(** * Verification of the single-page site mirroring script [crawler.js]

    The development embeds the script shallowly:

    - JavaScript strings are [string]s whose characters are the code units
      [U+0000]..[U+00FF]; the string methods the script calls ([split],
      [trim], [replace] with a character class, [slice], [includes],
      [toLowerCase], [join]) are the functions of module [JS];
    - Node's [path] module (POSIX flavour) is module [Path], working on the
      ["/"]-separated segments of a path;
    - the two regular expressions of [extractUrlsFromCss] are terms of a
      small backtracking matcher, module [Regex];
    - everything the script obtains from its runtime (the WHATWG [URL]
      parser, the network, cheerio's selector engine, the script directory)
      is a field of the record [Env]; the functions of the script are
      defined in section [Crawler] over an arbitrary [Env];
    - [urlToLocalPath] is a [gmap], [toDownload] an insertion-ordered list
      without duplicates, the file system a [gmap] from paths to contents,
      and [throw] is the [Throw] constructor of [res]. *)

From stdpp Require Import gmap strings list fin_maps.
From Stdlib Require Import Ascii.
From Stdlib Require String.

Local Open Scope stdpp_scope.

(** ** JavaScript string methods *)

Module JS.

(** Truthiness of a string: [Boolean(s)], [!s], [s || d]. *)
Definition truthy (s : string) : bool :=
  match s with "" => false | String _ _ => true end.

Definition or_else (s d : string) : string := if truthy s then s else d.

(** The class [\s] (also the set [trim] removes), restricted to the
    code units below 256: TAB, LF, VT, FF, CR, SP and NBSP. *)
Definition is_ws (c : ascii) : bool :=
  match c with
  | "009" | "010" | "011" | "012" | "013" | " " | "160" => true
  | _ => false
  end%char.

(** [s.startsWith(pre)] *)
Fixpoint startsWith (pre s : string) : bool :=
  match pre, s with
  | "", _ => true
  | String a pre', String b s' => Ascii.eqb a b && startsWith pre' s'
  | String _ _, "" => false
  end.

(** [hay.includes(needle)] *)
Fixpoint includes (needle hay : string) : bool :=
  startsWith needle hay ||
  match hay with
  | "" => false
  | String _ hay' => includes needle hay'
  end.

(** [s.split(c)] for a one-character separator. *)
Fixpoint split_on (c : ascii) (s : string) : list string :=
  match s with
  | "" => [""]
  | String a s' =>
      if Ascii.eqb a c then "" :: split_on c s'
      else match split_on c s' with
           | x :: r => String a x :: r
           | [] => [String a ""]
           end
  end.

(** [l.join(sep)] *)
Definition join (sep : string) (l : list string) : string :=
  String.concat sep l.

(** [s.split(/\s+/)]: the pieces between maximal runs of white space,
    a leading or trailing run giving an empty first or last piece.
    [prev] tells that the previous character was white space. *)
Fixpoint split_ws_go (prev : bool) (s : string) : list string :=
  match s with
  | "" => [""]
  | String a s' =>
      if is_ws a then
        if prev then split_ws_go true s' else "" :: split_ws_go true s'
      else match split_ws_go false s' with
           | x :: r => String a x :: r
           | [] => [String a ""]
           end
  end.

Definition split_ws (s : string) : list string := split_ws_go false s.

(** [s.split(/\s+/, n)] *)
Definition split_ws_limit (n : nat) (s : string) : list string :=
  take n (split_ws s).

Fixpoint trimStart (s : string) : string :=
  match s with
  | "" => ""
  | String a s' => if is_ws a then trimStart s' else s
  end.

Fixpoint trimEnd (s : string) : string :=
  match s with
  | "" => ""
  | String a s' =>
      match trimEnd s' with
      | "" => if is_ws a then "" else String a ""
      | t => String a t
      end
  end.

Definition trim (s : string) : string := trimEnd (trimStart s).

(** [s.replace(/[class]/g, r)] for a character class given as a
    predicate. *)
Fixpoint replace_class (p : ascii -> bool) (r : string) (s : string) : string :=
  match s with
  | "" => ""
  | String a s' =>
      if p a then r +:+ replace_class p r s'
      else String a (replace_class p r s')
  end.

(** [s.slice(0, n)] *)
Fixpoint slice0 (n : nat) (s : string) : string :=
  match n, s with
  | S n', String a s' => String a (slice0 n' s')
  | _, _ => ""
  end.

(** [c.toLowerCase()] on the code units below 256: the letters
    [A]..[Z] and [U+00C0]..[U+00DE] except the sign [U+00D7]. *)
Definition lower_char (c : ascii) : ascii :=
  let n := nat_of_ascii c in
  if ((65 <=? n) && (n <=? 90)) || ((192 <=? n) && (n <=? 222) && negb (n =? 215))
  then ascii_of_nat (n + 32) else c.

Fixpoint toLowerCase (s : string) : string :=
  match s with
  | "" => ""
  | String a s' => String (lower_char a) (toLowerCase s')
  end.

Fixpoint endsWith (suffix s : string) : bool :=
  String.eqb s suffix ||
  match s with
  | "" => false
  | String _ s' => endsWith suffix s'
  end.

(** A character occurs in a string. *)
Fixpoint has_char (p : ascii -> bool) (s : string) : bool :=
  match s with
  | "" => false
  | String a s' => p a || has_char p s'
  end.

End JS.

(** ** Node's [path] module, POSIX flavour

    The functions follow the results of Node's implementation, computed on
    the ["/"]-separated segments of the path instead of character by
    character. *)

Module Path.

Definition segments (p : string) : list string := JS.split_on "/" p.

Fixpoint last_nonempty (l : list string) : string :=
  match l with
  | [] => ""
  | s :: r => match last_nonempty r with "" => s | t => t end
  end.

(** [path.basename(p)]: the last non-empty segment, trailing slashes
    being ignored; [""] when there is none. *)
Definition basename (p : string) : string := last_nonempty (segments p).

(** The suffix of [s] that starts at its last ["."], if it has one. *)
Fixpoint last_dot_suffix (s : string) : option string :=
  match s with
  | "" => None
  | String a s' =>
      match last_dot_suffix s' with
      | Some e => Some e
      | None => if Ascii.eqb a "." then Some s else None
      end
  end.

(** [path.extname(p)]: from the last ["."] of the basename to its end;
    [""] when the basename has no ["."] after its first character, or is
    [".."]. *)
Definition extname (p : string) : string :=
  match basename p with
  | "" => ""
  | String a r =>
      match last_dot_suffix r with
      | None => ""
      | Some e => if String.eqb (String a r) ".." then "" else e
      end
  end.

(** [normalizeString]: [acc] holds the segments kept so far, last one
    first. *)
Fixpoint norm_go (allowAboveRoot : bool) (acc segs : list string) : list string :=
  match segs with
  | [] => rev acc
  | s :: r =>
      if String.eqb s "" || String.eqb s "." then norm_go allowAboveRoot acc r
      else if String.eqb s ".." then
        match acc with
        | [] => norm_go allowAboveRoot (if allowAboveRoot then [".."] else []) r
        | t :: acc' =>
            if String.eqb t ".."
            then norm_go allowAboveRoot (if allowAboveRoot then ".." :: acc else acc) r
            else norm_go allowAboveRoot acc' r
        end
      else norm_go allowAboveRoot (s :: acc) r
  end.

Definition isAbsolute (p : string) : bool := JS.startsWith "/" p.

(** [path.normalize(p)] *)
Definition normalize (p : string) : string :=
  if String.eqb p "" then "." else
  let r := JS.join "/" (norm_go (negb (isAbsolute p)) [] (segments p)) in
  if String.eqb r "" then
    if isAbsolute p then "/" else if JS.endsWith "/" p then "./" else "."
  else (if isAbsolute p then "/" else "") +:+ r +:+
       (if JS.endsWith "/" p then "/" else "").

(** [path.join(...args)] *)
Definition join (args : list string) : string :=
  match filter (fun a => JS.truthy a = true) args with
  | [] => "."
  | parts => normalize (JS.join "/" parts)
  end.

(** The segments of [path.resolve(p)], for the working directory [cwd]. *)
Definition resolve_segs (cwd p : string) : list string :=
  if isAbsolute p then norm_go false [] (segments p)
  else norm_go false [] (segments cwd ++ segments p).

Fixpoint strip_common (f t : list string) : list string * list string :=
  match f, t with
  | a :: f', b :: t' => if String.eqb a b then strip_common f' t' else (f, t)
  | _, _ => (f, t)
  end.

(** [path.relative(from, to)] *)
Definition relative (cwd from to : string) : string :=
  if String.eqb from to then "" else
  let '(f, t) := strip_common (resolve_segs cwd from) (resolve_segs cwd to) in
  JS.join "/" (((fun _ => "..") <$> f) ++ t).

End Path.

(** ** A backtracking matcher for the regular expressions of the script *)

Module Regex.

Inductive re : Type :=
| Eps
| Chr (p : ascii -> bool)          (* one character of a class *)
| Seq (r1 r2 : re)
| Opt (r : re)                     (* [r?], greedy *)
| Star (p : ascii -> bool)         (* [[class]*], greedy *)
| Group (n : nat) (r : re)         (* capturing group number [n] *)
| Backref (n : nat).               (* [\n] *)

Definition Plus (p : ascii -> bool) : re := Seq (Chr p) (Star p).

(** A literal under the [i] flag. *)
Fixpoint Lit_i (s : string) : re :=
  match s with
  | "" => Eps
  | String a s' =>
      Seq (Chr (fun c => Ascii.eqb (JS.lower_char c) (JS.lower_char a))) (Lit_i s')
  end.

(** Captures: group number to captured text; a group that has not
    matched reads as the empty string, as a back-reference to it does in
    JavaScript. *)
Definition captures : Type := nat -> string.
Definition no_captures : captures := fun _ => "".
Definition set_capture (n : nat) (v : string) (c : captures) : captures :=
  fun m => if Nat.eqb m n then v else c m.

Fixpoint strip_prefix (pre s : string) : option string :=
  match pre, s with
  | "", _ => Some s
  | String a pre', String b s' =>
      if Ascii.eqb a b then strip_prefix pre' s' else None
  | String _ _, "" => None
  end.

(** The text consumed between the input [s] and its suffix [rest]. *)
Definition consumed (s rest : string) : string :=
  JS.slice0 (String.length s - String.length rest) s.

Section Exec.
Context {A : Type}.

Fixpoint star (p : ascii -> bool) (s : string) (k : string -> option A) : option A :=
  match s with
  | "" => k ""
  | String a s' =>
      if p a then
        match star p s' k with
        | Some x => Some x
        | None => k s
        end
      else k s
  end.

(** [exec r s c k]: match [r] at the start of [s], then continue with
    [k] on the rest; [None] makes the matcher backtrack. *)
Fixpoint exec (r : re) (s : string) (c : captures)
         (k : string -> captures -> option A) : option A :=
  match r with
  | Eps => k s c
  | Chr p =>
      match s with
      | String a s' => if p a then k s' c else None
      | "" => None
      end
  | Seq r1 r2 => exec r1 s c (fun s' c' => exec r2 s' c' k)
  | Opt r' =>
      match exec r' s c k with
      | Some x => Some x
      | None => k s c
      end
  | Star p => star p s (fun s' => k s' c)
  | Group n r' => exec r' s c (fun s' c' => k s' (set_capture n (consumed s s') c'))
  | Backref n =>
      match strip_prefix (c n) s with
      | Some s' => k s' c
      | None => None
      end
  end.
End Exec.

(** One call of [regex.exec(text)] at a given start: the rest of the
    text after the match and the captures. *)
Definition match_here (r : re) (s : string) : option (string * captures) :=
  exec r s no_captures (fun rest c => Some (rest, c)).

(** The loop [while ((m = regex.exec(text))) ...] of a [g] regular
    expression, collecting [m[2]]: after a match the search goes on
    behind it, else one character further. *)
Fixpoint exec_all_go (fuel : nat) (r : re) (s : string) : list string :=
  match fuel with
  | 0 => []
  | S fuel' =>
      match match_here r s with
      | Some (rest, c) => c 2 :: exec_all_go fuel' r rest
      | None =>
          match s with
          | "" => []
          | String _ s' => exec_all_go fuel' r s'
          end
      end
  end.

Definition exec_all (r : re) (s : string) : list string :=
  exec_all_go (S (String.length s)) r s.

End Regex.

(** ** The runtime of the script *)

(** The properties of a [URL] object the script reads. *)
Record URL : Type := mkURL {
  href : string;        (* [u.toString()] *)
  origin : string;      (* [u.origin] *)
  hostname : string;    (* [u.hostname] *)
  pathname : string;    (* [u.pathname] *)
}.

(** What [fetch] resolves to: [res.status],
    [res.headers.get("content-type")] and the bytes of the body. *)
Record Response : Type := mkResponse {
  status : nat;
  content_type : option string;
  body : string;
}.

(** An element of the parsed page: its tag and its attributes
    ([$el.attr(name)] reads, [$el.attr(name, v)] writes). A document is
    the list of its elements in document order. *)
Record element : Type := mkElement {
  tag : string;
  attribs : gmap string string;
}.

Abbreviation document := (list element).

Record Env : Type := mkEnv {
  (** [new URL(input)] and [new URL(input, base)]; [None] when the
      constructor throws. *)
  newURL : string -> option string -> option URL;
  (** The network, [fetch(u, {headers})]: a response, or the message of
      the error the promise rejects with. *)
  fetch : string -> Response + string;
  (** [new TextDecoder().decode(buf)] *)
  decode : string -> string;
  (** [cheerio.load(text)] *)
  load : string -> document;
  (** cheerio's selector engine: the element is among [$(selector)]. *)
  matches : string -> element -> bool;
  (** [$.html()] *)
  html : document -> string;
  (** The directory of the script, and [process.cwd()]. *)
  __dirname : string;
  cwd : string;
}.

(** The errors the script can raise. *)
Inductive error : Type :=
| InvalidURL (input : string)            (* [new URL] throws *)
| HttpError (st : nat) (u : string)      (* [new Error(`HTTP ${res.status} for ${u}`)] *)
| FetchFailed (msg : string)             (* [fetch] rejects *)
| Undefined.                             (* a method called on [undefined] *)

(** The result of a computation that may throw; [OutOfFuel] stands for a
    loop that has not finished within the given number of iterations. *)
Inductive res (A : Type) : Type :=
| Ret (a : A)
| Throw (e : error)
| OutOfFuel.

Arguments Ret {A} a.
Arguments Throw {A} e.
Arguments OutOfFuel {A}.

Global Instance res_ret : MRet res := fun A a => Ret a.
Global Instance res_bind : MBind res := fun A B f m =>
  match m with
  | Ret a => f a
  | Throw e => Throw e
  | OutOfFuel => OutOfFuel
  end.

(** What one run of the script changes. *)
Record state : Type := mkState {
  toDownload : list string;               (* the [Set], in insertion order *)
  urlToLocalPath : gmap string string;    (* the [Map] *)
  disk : gmap string string;              (* files written by [saveFile] *)
  fetched : list string;                  (* the calls of [fetch], in order *)
  warned : list (string * error);         (* the calls of [console.warn] *)
}.

(** [set.add(x)] on a [Set] kept in insertion order. *)
Definition set_add (x : string) (s : list string) : list string :=
  if decide (x ∈ s) then s else s ++ [x].

(** [new Set(l)] *)
Definition new_Set (l : list string) : list string :=
  fold_left (fun s x => set_add x s) l [].

(** ** Configuration *)

Definition CONCURRENCY : nat := 8.
Definition OUTPUT_BASE : string := "downloaded".

(** ** Utilities of the script *)

Definition ensureTrailingSlash (p : string) : string :=
  if JS.endsWith "/" p then p else p +:+ "/".

(** The class of [sanitizeFilename]: the characters [<], [>], [:],
    the double quote, [/], the backslash, [|], [?] and the star, and the
    controls [\x00]..[\x1F]. *)
Definition hostile (c : ascii) : bool :=
  (nat_of_ascii c <? 32) ||
  match c with
  | "<" | ">" | ":" | "034" | "/" | "\" | "|" | "?" | "*" => true
  | _ => false
  end%char.

Definition sanitizeFilename (name : string) : string :=
  JS.or_else (JS.slice0 200 (JS.replace_class hostile "_" name)) "file".

Definition chooseSubdirByExt (ext : string) : string :=
  if decide (ext = ".css") then "css"
  else if decide (ext = ".js") then "js"
  else if decide (ext ∈ [".png"; ".jpg"; ".jpeg"; ".gif"; ".webp"; ".svg"; ".avif"]) then "img"
  else if decide (ext ∈ [".woff"; ".woff2"; ".ttf"; ".otf"; ".eot"]) then "fonts"
  else if decide (ext = ".html" ∨ ext = "") then ""
  else "assets".

(** The regular expressions of [extractUrlsFromCss]. *)
Definition quote_char (c : ascii) : bool :=
  (Ascii.eqb c "'" || Ascii.eqb c "034")%char.

Definition url_char (c : ascii) : bool :=
  negb (quote_char c || Ascii.eqb c ")"%char).

Definition is_char (a : ascii) (c : ascii) : bool := Ascii.eqb c a.

(** The common part of both expressions: group 1 is an optional single
    or double quote, group 2 a non-empty run of characters other than the
    quotes and the closing parenthesis, then a back-reference to group 1
    and optional white space. *)
Definition quoted_target : Regex.re :=
  Regex.Seq (Regex.Group 1 (Regex.Opt (Regex.Chr quote_char)))
 (Regex.Seq (Regex.Group 2 (Regex.Plus url_char))
 (Regex.Seq (Regex.Backref 1)
            (Regex.Star JS.is_ws))).

(** [urlRegex], flags [gi]: the literal [url(], optional white space,
    the quoted target, the closing parenthesis. *)
Definition urlRegex : Regex.re :=
  Regex.Seq (Regex.Lit_i "url(")
 (Regex.Seq (Regex.Star JS.is_ws)
 (Regex.Seq quoted_target
            (Regex.Chr (is_char ")")))).

(** [importRegex], flags [gi]: the literal [@import], white space, an
    optional [url(], optional white space, the quoted target, an optional
    closing parenthesis. *)
Definition importRegex : Regex.re :=
  Regex.Seq (Regex.Lit_i "@import")
 (Regex.Seq (Regex.Plus JS.is_ws)
 (Regex.Seq (Regex.Opt (Regex.Lit_i "url("))
 (Regex.Seq (Regex.Star JS.is_ws)
 (Regex.Seq quoted_target
            (Regex.Opt (Regex.Chr (is_char ")"))))))).

(** The selector and attribute pairs of [assetAttrs] and [attrMap]. *)
Definition assetAttrs : list (string * string) :=
  [ ("link[rel=stylesheet]", "href");
    ("link[rel~=icon]", "href");
    ("script[src]", "src");
    ("img[src]", "src");
    ("source[src]", "src");
    ("video[src]", "src");
    ("audio[src]", "src");
    ("img[srcset]", "srcset") ].

Definition attrMap : list (string * string) := assetAttrs.

(** [$el.attr(name)], with [undefined] and the empty string both falsy. *)
Definition attr (el : element) (name : string) : option string :=
  match attribs el !! name with
  | Some v => if JS.truthy v then Some v else None
  | None => None
  end.

Definition set_attr (el : element) (name v : string) : element :=
  mkElement (tag el) (<[name := v]> (attribs el)).

(** [val.split(",").map((s) => s.trim()).filter(Boolean)] *)
Definition srcset_pieces (val : string) : list string :=
  filter (fun s => JS.truthy s = true) (JS.trim <$> JS.split_on "," val).

(** ** The functions of the script *)

Section Crawler.

Variable E : Env.

(** [new URL(input)] and [new URL(input, base)] as computations. *)
Definition new_URL (input : string) (base : option string) : res URL :=
  match newURL E input base with
  | Some u => Ret u
  | None => Throw (InvalidURL input)
  end.

Definition extFromUrlOrType (u contentType : string) : res string :=
  urlObj ← new_URL u None;
  let pathname := pathname urlObj in
  let ext := JS.toLowerCase (Path.extname pathname) in
  if JS.truthy ext then Ret ext
  else if negb (JS.truthy contentType) then Ret ""
  else if JS.includes "text/html" contentType then Ret ".html"
  else if JS.includes "text/css" contentType then Ret ".css"
  else if JS.includes "javascript" contentType then Ret ".js"
  else if JS.includes "image/" contentType then
    match JS.split_on "/" contentType !! 1 with
    | None => Throw Undefined
    | Some rest =>
        let sub := default "" (head (JS.split_on ";" rest)) in
        Ret ("." +:+ (if decide (sub = "jpeg") then "jpg" else sub))
    end
  else if JS.includes "font/" contentType then Ret ".woff2"
  else Ret "".

Definition localPathFor (originHost targetUrl contentType : string) : res string :=
  urlObj ← new_URL targetUrl None;
  ext0 ← extFromUrlOrType targetUrl contentType;
  let ext := JS.or_else ext0 "" in
  let subdir := chooseSubdirByExt ext in
  let nameGuess :=
    sanitizeFilename (JS.or_else (Path.basename (pathname urlObj)) "index") +:+
    (if JS.truthy ext && negb (JS.truthy (Path.extname (pathname urlObj)))
     then ext else "") in
  let dir := if JS.truthy subdir then Path.join [originHost; subdir] else originHost in
  Ret (Path.join [dir; JS.or_else nameGuess ("index" +:+ JS.or_else ext ".html")]).

(** The body of both [while] loops of [extractUrlsFromCss]: resolve the
    captured text against the base, add the result to [found], drop it
    when [new URL] throws. *)
Definition add_found (baseUrl : string) (found : list string) (m2 : string) : list string :=
  match newURL E m2 (Some baseUrl) with
  | Some u => set_add (href u) found
  | None => found
  end.

Definition extractUrlsFromCss (cssText baseUrl : string) : list string :=
  let found := fold_left (add_found baseUrl) (Regex.exec_all urlRegex cssText) [] in
  fold_left (add_found baseUrl) (Regex.exec_all importRegex cssText) found.

(** The URLs one element contributes for one attribute. *)
Definition collect_one (baseUrl : string) (sameOriginOnly : bool) (orig : string)
           (attr_name : string) (el : element) : list string :=
  match attr el attr_name with
  | None => []
  | Some val =>
      let keep (ref : string) : list string :=
        match newURL E ref (Some baseUrl) with
        | Some u =>
            if sameOriginOnly && negb (String.eqb (origin u) orig) then []
            else [href u]
        | None => []
        end in
      if decide (attr_name = "srcset") then
        let candidates :=
          (fun entry => default "" (head (JS.split_ws entry))) <$> srcset_pieces val in
        candidates ≫= keep
      else keep val
  end.

Definition collectAndRewriteHtml (doc : document) (baseUrl : string)
           (sameOriginOnly : bool) (orig : string) : list string :=
  assetAttrs ≫= (fun '(selector, attr_name) =>
    filter (fun el => matches E selector el = true) doc ≫=
      collect_one baseUrl sameOriginOnly orig attr_name).

(** [res.ok] *)
Definition ok (r : Response) : bool := (200 <=? status r) && (status r <=? 299).

Definition fetchWithType (u : string) : res (string * string) :=
  match fetch E u with
  | inr msg => Throw (FetchFailed msg)
  | inl r =>
      if ok r then Ret (body r, default "" (content_type r))
      else Throw (HttpError (status r) u)
  end.

(** [saveFile]: the directories are created on the way and left out of
    the model of the disk. *)
Definition saveFile (filePath data : string) (d : gmap string string) : gmap string string :=
  <[filePath := data]> d.

(** The part of [run] that the closure [downloadOne] and the rewriting
    loop see: [origin], [hostName] and [startUrl]. *)
Section Run.

Variables (orig hostName startUrl : string).

(** The same-origin filter of the discovered URLs. *)
Definition same_origin (nu : string) : bool :=
  match newURL E nu None with
  | Some parsed => String.eqb (origin parsed) orig
  | None => false
  end.

Definition downloadOne (u : string) (st : state) : res state :=
  if decide (is_Some (urlToLocalPath st !! u)) then Ret st
  else
    match fetchWithType u with
    | OutOfFuel => OutOfFuel
    | Throw e =>
        Ret (mkState (toDownload st) (urlToLocalPath st) (disk st)
                     (fetched st ++ [u]) (warned st ++ [(u, e)]))
    | Ret (buf, contentType) =>
        lp ← localPathFor hostName u contentType;
        let localRelative :=
          Path.relative (cwd E)
            (Path.join [__dirname E; OUTPUT_BASE])
            (Path.join [__dirname E; OUTPUT_BASE; lp]) in
        let localAbs := Path.join [__dirname E; OUTPUT_BASE; localRelative] in
        let disk' := saveFile localAbs buf (disk st) in
        let map' :=
          <[u := JS.replace_class (is_char "\") "/" localRelative]> (urlToLocalPath st) in
        let toDownload' :=
          if JS.includes "text/css" (JS.or_else contentType "") then
            let cssText := decode E buf in
            let moreUrls := filter (fun nu => same_origin nu = true)
                                   (extractUrlsFromCss cssText u) in
            fold_left (fun s x => set_add x s) moreUrls (toDownload st)
          else toDownload st in
        Ret (mkState toDownload' map' disk' (fetched st ++ [u]) (warned st))
    end.

(** [Promise.all(list.map((u) => limit(() => downloadOne(u))))].
    The calls of one wave are for distinct URLs; each call reads and
    writes the entry of its own URL only and only adds to
    [toDownload], so the wave is modelled by the calls made one after
    the other in the order of the list. A call that throws rejects
    the whole wave. *)
Fixpoint downloadAll (l : list string) (st : state) : res state :=
  match l with
  | [] => Ret st
  | u :: l' => st' ← downloadOne u st; downloadAll l' st'
  end.

(** One wave over a snapshot [[...toDownload]]. *)
Definition wave (st : state) : res state := downloadAll (toDownload st) st.

(** [while (toDownload.size !== prevCount) { prevCount = toDownload.size; wave }] *)
Fixpoint waveLoop (fuel : nat) (prevCount : nat) (st : state) : res state :=
  if length (toDownload st) =? prevCount then Ret st
  else
    match fuel with
    | 0 => OutOfFuel
    | S fuel' =>
        st' ← wave st;
        waveLoop fuel' (length (toDownload st)) st'
    end.

(** One entry of a [srcset] value in the rewriting loop. *)
Definition rewrite_entry (m : gmap string string) (entry : string) : string :=
  let parts := JS.split_ws_limit 2 entry in
  let uPart := default "" (parts !! 0) in
  let descriptor := parts !! 1 in
  match newURL E uPart (Some startUrl) with
  | Some u =>
      let abs := href u in
      let loc := default "" (m !! abs) in
      JS.or_else loc uPart +:+
      (match descriptor with
       | Some d => if JS.truthy d then " " +:+ d else ""
       | None => ""
       end)
  | None => entry
  end.

(** The callback of [$(selector).each] in the rewriting loop. *)
Definition rewrite_attr (m : gmap string string) (attr_name : string)
           (el : element) : element :=
  match attr el attr_name with
  | None => el
  | Some val =>
      if decide (attr_name = "srcset") then
        set_attr el attr_name
          (JS.join ", " (rewrite_entry m <$> srcset_pieces val))
      else
        match newURL E val (Some startUrl) with
        | Some u =>
            let localRel := default "" (m !! href u) in
            if JS.truthy localRel then
              set_attr el attr_name
                (ensureTrailingSlash "./" +:+ Path.relative (cwd E) hostName localRel)
            else el
        | None => el
        end
  end.

(** Step 6 of [run]: the loop over [attrMap]. *)
Definition rewriteDocument (m : gmap string string) (doc : document) : document :=
  fold_left (fun d '(selector, attr_name) =>
               (fun el => if matches E selector el
                          then rewrite_attr m attr_name el else el) <$> d)
            attrMap doc.

End Run.

(** The replacement of [/[:.]/g] by an underscore. *)
Definition host_token (h : string) : string :=
  JS.replace_class (fun c => is_char ":" c || is_char "." c) "_" h.

(** [run(urlInput)]; the result is the final state and the rewritten
    document. *)
Definition run (fuel : nat) (urlInput : string) : res (state * document) :=
  u0 ← new_URL urlInput None;
  let startUrl := href u0 in
  u1 ← new_URL startUrl None;
  let orig := origin u1 in
  u2 ← new_URL startUrl None;
  let hostName := host_token (hostname u2) in
  let outRoot := Path.join [__dirname E; OUTPUT_BASE; hostName] in
  match fetchWithType startUrl with
  | OutOfFuel => OutOfFuel
  | Throw e => Throw e
  | Ret (buf, _) =>
      let htmlText := decode E buf in
      let doc := load E htmlText in
      let assets := collectAndRewriteHtml doc startUrl true orig in
      let st0 := mkState (new_Set assets) ∅ ∅ [startUrl] [] in
      st1 ← wave orig hostName st0;
      st2 ← waveLoop orig hostName fuel 0 st1;
      let doc' := rewriteDocument hostName startUrl (urlToLocalPath st2) doc in
      let htmlOut := Path.join [outRoot; "index.html"] in
      Ret (mkState (toDownload st2) (urlToLocalPath st2)
                   (saveFile htmlOut (html E doc') (disk st2))
                   (fetched st2) (warned st2),
           doc')
  end.

(** The top level: what the process prints with [console.error], and
    its exit status; [None] while [run] has not finished. *)
Definition main (fuel : nat) (url : string) : option (option error * nat) :=
  match run fuel url with
  | Ret _ => Some (None, 0)
  | Throw e => Some (Some e, 1)
  | OutOfFuel => None
  end.

End Crawler.

(** ** A concrete runtime for the examples

    [Example.env net pages] is a runtime over a finite site: [net] lists
    the responses of the network and [pages] the parsed form of the page
    texts. Its URL parser covers [http] and [https] URLs and references
    relative to them, written with unreserved characters only; on these
    it gives the components the WHATWG parser gives. Anything else is
    answered by [None], which no example relies on. *)

Module Example.

#[global] Instance URL_eq_dec : EqDecision URL.
Proof. solve_decision. Defined.

(** The part of [s] before the first character of class [p], and the
    rest from that character on. *)
Fixpoint break_at (p : ascii -> bool) (s : string) : string * string :=
  match s with
  | "" => ("", "")
  | String a s' =>
      if p a then ("", s)
      else let '(x, y) := break_at p s' in (String a x, y)
  end.

Definition drop_chars (n : nat) (s : string) : string :=
  String.substring n (String.length s - n) s.

Definition plain_char (c : ascii) : bool :=
  let n := nat_of_ascii c in
  ((48 <=? n) && (n <=? 57)) || ((65 <=? n) && (n <=? 90)) ||
  ((97 <=? n) && (n <=? 122)) ||
  match c with
  | "-" | "." | "_" | "~" | "/" | ":" | "?" | "#" | "=" | "&" | "," | "+" | "@" => true
  | _ => false
  end%char.

Fixpoint all_chars (p : ascii -> bool) (s : string) : bool :=
  match s with
  | "" => true
  | String a s' => p a && all_chars p s'
  end.

(** Removal of the dot segments of a path, [acc] holding the segments
    kept so far, last one first. *)
Fixpoint dots (acc segs : list string) : list string :=
  match segs with
  | [] => rev acc
  | s :: r =>
      if String.eqb s "." then
        match r with [] => dots ("" :: acc) r | _ => dots acc r end
      else if String.eqb s ".." then
        match r with [] => dots ("" :: tail acc) r | _ => dots (tail acc) r end
      else dots (s :: acc) r
  end.

Definition is_delim (c : ascii) : bool :=
  (Ascii.eqb c "/" || Ascii.eqb c "?" || Ascii.eqb c "#")%char.

Definition is_query (c : ascii) : bool :=
  (Ascii.eqb c "?" || Ascii.eqb c "#")%char.

(** An absolute URL [scheme://host[:port][/path][?query][#fragment]]. *)
Definition absolute (s : string) : option URL :=
  let scheme :=
    if JS.startsWith "https://" s then Some ("https", drop_chars 8 s)
    else if JS.startsWith "http://" s then Some ("http", drop_chars 7 s)
    else None in
  match scheme with
  | None => None
  | Some (sch, rest) =>
      let '(auth, tail) := break_at is_delim rest in
      let '(path, suffix) := break_at is_query tail in
      let '(host, port) := break_at (is_char ":") (JS.toLowerCase auth) in
      let dflt := if String.eqb sch "https" then ":443" else ":80" in
      let hostport :=
        if String.eqb port dflt || String.eqb port ":" then host else host +:+ port in
      if String.eqb host "" then None
      else
        let pname := "/" +:+ JS.join "/" (dots [] (JS.split_on "/" (drop_chars 1 path))) in
        let org := sch +:+ "://" +:+ hostport in
        Some (mkURL (org +:+ pname +:+ suffix) org host pname)
  end.

(** The directory of a path: up to and including its last slash. *)
Fixpoint directory (p : string) : string :=
  match p with
  | "" => ""
  | String a p' =>
      if JS.has_char (is_char "/") p then String a (directory p') else ""
  end.

Definition raw (input : string) (base : option string) : option URL :=
  if negb (all_chars plain_char input) then None
  else
    match absolute input with
    | Some u => Some u
    | None =>
        match base with
        | None => None
        | Some b =>
            match absolute b with
            | None => None
            | Some bu =>
                if JS.startsWith "//" input || String.eqb input "" ||
                   JS.has_char (is_char ":") (fst (break_at is_delim input)) ||
                   JS.startsWith "?" input || JS.startsWith "#" input
                then None
                else if JS.startsWith "/" input then absolute (origin bu +:+ input)
                else absolute (origin bu +:+ directory (pathname bu) +:+ input)
            end
        end
    end.

(** The parser keeps the results that the parser maps to themselves
    when they are written out and read again. *)
Definition parseURL (input : string) (base : option string) : option URL :=
  match raw input base with
  | Some u => if decide (raw (href u) None = Some u) then Some u else None
  | None => None
  end.

Fixpoint assoc {A : Type} (k : string) (l : list (string * A)) : option A :=
  match l with
  | [] => None
  | (k', v) :: l' => if String.eqb k k' then Some v else assoc k l'
  end.

Definition has_attr (name : string) (el : element) : bool :=
  bool_decide (is_Some (attribs el !! name)).

Definition rel_words (el : element) : list string :=
  JS.split_ws (default "" (attribs el !! "rel")).

(** The eight selectors of the script. *)
Definition selects (selector : string) (el : element) : bool :=
  if String.eqb selector "link[rel=stylesheet]" then
    String.eqb (tag el) "link" && bool_decide (attribs el !! "rel" = Some "stylesheet")
  else if String.eqb selector "link[rel~=icon]" then
    String.eqb (tag el) "link" && bool_decide ("icon" ∈ rel_words el)
  else if String.eqb selector "script[src]" then
    String.eqb (tag el) "script" && has_attr "src" el
  else if String.eqb selector "img[src]" then
    String.eqb (tag el) "img" && has_attr "src" el
  else if String.eqb selector "source[src]" then
    String.eqb (tag el) "source" && has_attr "src" el
  else if String.eqb selector "video[src]" then
    String.eqb (tag el) "video" && has_attr "src" el
  else if String.eqb selector "audio[src]" then
    String.eqb (tag el) "audio" && has_attr "src" el
  else if String.eqb selector "img[srcset]" then
    String.eqb (tag el) "img" && has_attr "srcset" el
  else false.

Definition print_attr (kv : string * string) : string :=
  " " +:+ kv.1 +:+ "='" +:+ kv.2 +:+ "'".

Definition print_element (el : element) : string :=
  "<" +:+ tag el +:+ JS.join "" (print_attr <$> map_to_list (attribs el)) +:+ ">".

Definition print (doc : document) : string := JS.join "" (print_element <$> doc).

Definition env (net : list (string * Response)) (pages : list (string * document)) : Env :=
  {| newURL := parseURL;
     fetch := fun u =>
       match assoc u net with
       | Some r => inl r
       | None => inr "fetch failed"
       end;
     decode := fun buf => buf;
     load := fun text => default [] (assoc text pages);
     matches := selects;
     html := print;
     __dirname := "/srv/scraper";
     cwd := "/srv" |}.

Definition el (t : string) (kvs : list (string * string)) : element :=
  mkElement t (list_to_map kvs).

End Example.

(** ** The path mapper as the specification words it

    [deriveLocalPath segment host pathname contentType] follows the
    description of the path mapper: extension from the URL path, else
    from the content type; subdirectory by extension; file name from a
    segment of the URL path; the three joined by slashes. The segment the
    file name is taken from is a parameter: [last_segment] is the last
    path segment of the URL, [last_nonempty_segment] its last non-empty
    one. *)

Module Reference.

Definition last_segment (pathname : string) : string :=
  default "" (last (JS.split_on "/" pathname)).

Definition last_nonempty_segment (pathname : string) : string :=
  default "" (last (filter (fun s => s ≠ "") (JS.split_on "/" pathname))).

(** The extension of a file name: from its last dot on, a dot in first
    position not counting. *)
Definition name_extension (name : string) : string :=
  match name with
  | "" => ""
  | String _ r => default "" (Path.last_dot_suffix r)
  end.

(** The fixed table from content types to extensions. *)
Definition type_extension (contentType : string) : string :=
  if JS.includes "text/html" contentType then ".html"
  else if JS.includes "text/css" contentType then ".css"
  else if JS.includes "javascript" contentType then ".js"
  else if JS.includes "image/" contentType then
    let sub := default "" (head (JS.split_on ";"
                 (default "" (JS.split_on "/" contentType !! 1)))) in
    "." +:+ (if String.eqb sub "jpeg" then "jpg" else sub)
  else if JS.includes "font/" contentType then ".woff2"
  else "".

Definition image_extensions : list string :=
  [".png"; ".jpg"; ".jpeg"; ".gif"; ".webp"; ".svg"; ".avif"].

Definition font_extensions : list string :=
  [".woff"; ".woff2"; ".ttf"; ".otf"; ".eot"].

(** The subdirectory an extension is routed to, slash included. *)
Definition subdirectory (ext : string) : string :=
  if String.eqb ext ".css" then "css/"
  else if String.eqb ext ".js" then "js/"
  else if bool_decide (ext ∈ image_extensions) then "img/"
  else if bool_decide (ext ∈ font_extensions) then "fonts/"
  else if String.eqb ext ".html" || String.eqb ext "" then ""
  else "assets/".

Section Mapper.

Variable segment : string -> string.

Definition url_extension (pathname : string) : string :=
  JS.toLowerCase (name_extension (segment pathname)).

Definition extension (pathname contentType : string) : string :=
  match url_extension pathname with
  | "" => type_extension contentType
  | e => e
  end.

Definition filename (pathname contentType : string) : string :=
  let name :=
    match segment pathname with
    | "" => "index"
    | seg => JS.slice0 200 (JS.replace_class hostile "_" seg)
    end in
  match url_extension pathname with
  | "" => name +:+ extension pathname contentType
  | _ => name
  end.

Definition deriveLocalPath (originHostToken pathname contentType : string) : string :=
  originHostToken +:+ "/" +:+
  subdirectory (extension pathname contentType) +:+
  filename pathname contentType.

End Mapper.

End Reference.

(** ** Notions the statements use *)

(** Writing a URL out and reading it again gives the same URL. *)
Definition URL_roundtrip (E : Env) : Prop :=
  ∀ s b u, newURL E s b = Some u → newURL E (href u) None = Some u.

(** The URLs of origin [orig] have no dot segment as last segment of
    their path. *)
Definition URL_paths_resolved (E : Env) (orig : string) : Prop :=
  ∀ s b u, newURL E s b = Some u → origin u = orig →
    Path.basename (pathname u) ≠ "." ∧ Path.basename (pathname u) ≠ "..".

(** The selectors of the script do not look at the values of the
    attributes the script rewrites. *)
Definition selectors_stable (E : Env) : Prop :=
  ∀ selector el name v,
    name ∈ ["href"; "src"; "srcset"] →
    is_Some (attribs el !! name) →
    matches E selector (set_attr el name v) = matches E selector el.

Definition slash_free (s : string) : Prop := JS.has_char (is_char "/") s = false.

(** A path segment that [path.normalize] keeps as it is. *)
Definition clean_segment (s : string) : Prop :=
  s ≠ "" ∧ s ≠ "." ∧ s ≠ ".." ∧ slash_free s.

(** A host name as the URLs of a web site have it. *)
Definition clean_host (h : string) : Prop :=
  h ≠ "" ∧ slash_free h ∧ JS.has_char (is_char "\") h = false.

(** The absolute path with the given segments. *)
Definition absolute_path (segs : list string) : string := "/" +:+ JS.join "/" segs.

(** The number of times [u] occurs in a list of URLs. *)
Definition times (u : string) (l : list string) : nat :=
  length (filter (fun x => x = u) l).

(** The character-wise replacement of the dots and colons of a host. *)
Fixpoint underscore_dots (h : string) : string :=
  match h with
  | "" => ""
  | String c h' =>
      String (if Ascii.eqb c "." || Ascii.eqb c ":" then "_"%char else c)
             (underscore_dots h')
  end.

Section Site.

Variable E : Env.
Variable orig : string.

(** The URLs a fetched style sheet makes pending. *)
Definition links (u : string) : list string :=
  match fetchWithType E u with
  | Ret (buf, contentType) =>
      if JS.includes "text/css" (JS.or_else contentType "") then
        filter (fun nu => same_origin E orig nu = true)
               (extractUrlsFromCss E (decode E buf) u)
      else []
  | _ => []
  end.

(** Reachable from the references of the page through fetched style
    sheets. *)
Inductive reachable (assets : list string) : string -> Prop :=
| reach_asset x : x ∈ assets → reachable assets x
| reach_link u x : reachable assets u → x ∈ links u → reachable assets x.

Definition fetch_ok (u : string) : Prop :=
  ∃ buf contentType, fetchWithType E u = Ret (buf, contentType).

End Site.

(** ** Notions of the proofs *)

Ltac tidy := repeat first [assumption | done | constructor].

Section Steps.

Variable E : Env.
Variables (orig hostName : string).

(** The value [downloadOne] stores in the map for the mapped path [lp],
    and the path it saves the bytes at. *)
Definition stored (lp : string) : string :=
  JS.replace_class (is_char "\") "/"
    (Path.relative (cwd E)
       (Path.join [__dirname E; OUTPUT_BASE])
       (Path.join [__dirname E; OUTPUT_BASE; lp])).

Definition saved_at (lp : string) : string :=
  Path.join [__dirname E; OUTPUT_BASE;
             Path.relative (cwd E)
               (Path.join [__dirname E; OUTPUT_BASE])
               (Path.join [__dirname E; OUTPUT_BASE; lp])].

(** The three ways a call of [downloadOne] that returns changes the
    state: the URL is known already, its fetch fails, or it is saved. *)
Inductive download_step (u : string) (st : state) : state -> Prop :=
| step_known :
    is_Some (urlToLocalPath st !! u) →
    download_step u st st
| step_failed e :
    urlToLocalPath st !! u = None →
    fetchWithType E u = Throw e →
    download_step u st
      (mkState (toDownload st) (urlToLocalPath st) (disk st)
               (fetched st ++ [u]) (warned st ++ [(u, e)]))
| step_saved buf ct lp :
    urlToLocalPath st !! u = None →
    fetchWithType E u = Ret (buf, ct) →
    localPathFor E hostName u ct = Ret lp →
    download_step u st
      (mkState (fold_left (fun s x => set_add x s) (links E orig u) (toDownload st))
               (<[u := stored lp]> (urlToLocalPath st))
               (saveFile (saved_at lp) buf (disk st))
               (fetched st ++ [u]) (warned st)).

End Steps.

(** The pending set, the map and the two logs only grow. *)
Definition grows (st st' : state) : Prop :=
  toDownload st `prefix_of` toDownload st' ∧
  urlToLocalPath st ⊆ urlToLocalPath st' ∧
  fetched st `prefix_of` fetched st' ∧
  warned st `prefix_of` warned st'.

Section RunInvariant.

Variable E : Env.
Variables (orig hostName startUrl : string).
Variable assets : list string.

(** What holds of the state throughout the download phase. *)
Record run_inv (st : state) : Prop := {
  inv_nodup : NoDup (toDownload st);
  inv_reach : ∀ x, x ∈ toDownload st → reachable E orig assets x;
  inv_keys : ∀ x, is_Some (urlToLocalPath st !! x) →
                  x ∈ toDownload st ∧ fetch_ok E x;
  inv_closed : ∀ x y, is_Some (urlToLocalPath st !! x) →
                      y ∈ links E orig x → y ∈ toDownload st;
  inv_values : ∀ x p, urlToLocalPath st !! x = Some p →
                      ∃ ct lp, localPathFor E hostName x ct = Ret lp ∧ p = stored E lp;
  inv_fetched : ∃ rest, fetched st = startUrl :: rest ∧
                  (∀ x, x ∈ rest → x ∈ toDownload st) ∧
                  (∀ u, fetch_ok E u →
                        times u rest = if decide (is_Some (urlToLocalPath st !! u))
                                       then 1 else 0);
  inv_warned : ∀ x e, (x, e) ∈ warned st → fetchWithType E x = Throw e;
}.

End RunInvariant.

(** A finite set of URLs that holds the references of the page and is
    closed under the links of its style sheets, as a test. *)
Definition site_closed (E : Env) (orig : string) (assets site : list string) : bool :=
  forallb (fun x => bool_decide (x ∈ site)) assets &&
  forallb (fun u => forallb (fun x => bool_decide (x ∈ site)) (links E orig u)) site.

(** What the rewriting loop does to one element. *)
Definition rewrite_element (E : Env) (hostName startUrl : string)
           (m : gmap string string) (el : element) : element :=
  fold_left (fun e '(selector, attr_name) =>
               if matches E selector e
               then rewrite_attr E hostName startUrl m attr_name e else e)
            attrMap el.

Definition ws_free (s : string) : Prop := JS.has_char JS.is_ws s = false.

Definition comma_free (s : string) : Prop := JS.has_char (is_char ",") s = false.

(** An entry of a [srcset] list as the script splits them off: not
    empty, without white space at either end, without comma. *)
Definition tight (e : string) : Prop := e ≠ "" ∧ JS.trim e = e ∧ comma_free e.

(** The value the rewriter writes for a plain attribute. *)
Definition written_plain (E : Env) (hostName loc : string) : string :=
  ensureTrailingSlash "./" +:+ Path.relative (cwd E) hostName loc.

(** A reference that does not resolve to a key of the map with a truthy
    value. *)
Definition unmapped (E : Env) (startUrl : string) (m : gmap string string)
           (v : string) : Prop :=
  ∀ U, newURL E v (Some startUrl) = Some U → default "" (m !! href U) = "".

(** The local paths of the map, as the rewriter writes them, are not
    references to entries of the map, and are single tokens of a
    [srcset] list. *)
Definition map_settled (E : Env) (hostName startUrl : string)
           (m : gmap string string) : Prop :=
  ∀ k loc, m !! k = Some loc → loc ≠ "" →
    unmapped E startUrl m (written_plain E hostName loc) ∧
    unmapped E startUrl m loc ∧
    JS.has_char JS.is_ws loc = false ∧
    JS.has_char (is_char ",") loc = false.

Section Targets.

Variable E : Env.
Variables (hostName startUrl : string).
Variable m : gmap string string.

(** The value the rewriting loop gives an attribute that has the value
    [val]. *)
Definition srcset_target (val : string) : string :=
  JS.join ", " (rewrite_entry E startUrl m <$> srcset_pieces val).

Definition plain_target (val : string) : string :=
  match newURL E val (Some startUrl) with
  | Some u =>
      match default "" (m !! href u) with
      | "" => val
      | loc => written_plain E hostName loc
      end
  | None => val
  end.

Definition target (name val : string) : string :=
  if decide (name = "srcset") then srcset_target val else plain_target val.

End Targets.

(** ** Example sites *)

Module Scenario.

Import Example.

Definition seed : string := "https://example.test/".

Definition seed_url : URL :=
  mkURL "https://example.test/" "https://example.test" "example.test" "/".

Definition ok_html : Response := mkResponse 200 (Some "text/html; charset=utf-8") "PAGE".

Definition png : Response := mkResponse 200 (Some "image/png") "PNG".

Definition not_found : Response := mkResponse 404 None "".

(** A page with a style sheet that imports a second one, which refers
    to an image. *)
Definition page : document :=
  [el "link" [("rel", "stylesheet"); ("href", "/s.css")];
   el "img" [("src", "/i.png")]].

Definition sheets : list (string * Response) :=
  [("https://example.test/", ok_html);
   ("https://example.test/s.css",
    mkResponse 200 (Some "text/css") "@import url('/extra.css');");
   ("https://example.test/extra.css",
    mkResponse 200 (Some "text/css; charset=utf-8") ".x{background:url(/sprite.png)}");
   ("https://example.test/sprite.png", png)].

Definition urls : list string :=
  ["https://example.test/s.css"; "https://example.test/i.png";
   "https://example.test/extra.css"; "https://example.test/sprite.png"].

(** Every fetch succeeds. *)
Definition site_ok : Env :=
  env (sheets ++ [("https://example.test/i.png", png)]) [("PAGE", page)].

(** The image of the page answers 404. *)
Definition site_404 : Env :=
  env (sheets ++ [("https://example.test/i.png", not_found)]) [("PAGE", page)].

(** The page itself answers 500. *)
Definition site_down : Env :=
  env [("https://example.test/", mkResponse 500 None "")] [].

(** An image with two candidates, of which the second answers 404. *)
Definition srcset_page : document :=
  [el "img" [("src", "a.png"); ("srcset", "a.png 1x, b.png 2x")]].

Definition srcset_site : Env :=
  env [("https://example.test/", ok_html);
       ("https://example.test/a.png", png);
       ("https://example.test/b.png", not_found)]
      [("PAGE", srcset_page)].

(** An image whose candidates are on another origin. *)
Definition cdn_srcset : string := "https://cdn.test/a.png 1x,https://cdn.test/b.png 2x".

Definition cdn_page : document := [el "img" [("srcset", cdn_srcset)]].

Definition cdn_site : Env :=
  env [("https://example.test/", ok_html)] [("PAGE", cdn_page)].

Definition cdn_url : URL :=
  mkURL "https://cdn.test/a.png" "https://cdn.test" "cdn.test" "/a.png".

(** Two assets without extension in their URLs, one saved as [logo] and
    one at [/logo]. *)
Definition logo_page : document :=
  [el "img" [("src", "/a/logo")]; el "script" [("src", "/logo")]].

Definition logo_site : Env :=
  env [("https://example.test/", ok_html);
       ("https://example.test/a/logo",
        mkResponse 200 (Some "application/octet-stream") "IMG");
       ("https://example.test/logo", mkResponse 200 (Some "text/javascript") "JS")]
      [("PAGE", logo_page)].

(** A map with one entry. *)
Definition one_sheet : gmap string string :=
  {[ "https://example.test/s.css" := "example_test/css/s.css" ]}.

(** The state before the first wave on [site_ok]. *)
Definition start_state : state :=
  mkState ["https://example.test/s.css"; "https://example.test/i.png"] ∅ ∅ [seed] [].

(** What a run on the example start URL returns within ten passes of
    the loop: the final state and the rewritten document. *)
Definition result (E : Env) : state * document :=
  match run E 10 seed with
  | Ret r => r
  | _ => (mkState [] ∅ ∅ [] [], [])
  end.

Definition final (E : Env) : state := (result E).1.

Definition rewritten (E : Env) : document := (result E).2.

End Scenario.

(** ** The prompt *)

(** The [conform] test of the prompt of the script: an input is
    accepted when [new URL] does not throw on it. *)
Definition conform (E : Env) (v : string) : bool :=
  match newURL E v None with
  | Some _ => true
  | None => false
  end.

(** ** The files of the assets *)

(** Every entry of the map has its file on the disk, at the path
    [downloadOne] saved it. *)
Definition on_disk (E : Env) (hostName : string) (st : state) : Prop :=
  ∀ u p, urlToLocalPath st !! u = Some p →
    ∃ ct lp, localPathFor E hostName u ct = Ret lp ∧ p = stored E lp ∧
             is_Some (disk st !! saved_at E lp).

(** * Properties *)

#[local] Arguments String.append !_ _ / : simpl nomatch.

Lemma app_empty_r (s : string) : s +:+ "" = s.
Proof. induction s as [|a s IH]; simpl; [done | by rewrite IH]. Qed.

Lemma app_assoc_s (a b c : string) : (a +:+ b) +:+ c = a +:+ b +:+ c.
Proof. induction a as [|x a IH]; simpl; [done | by rewrite IH]. Qed.

Lemma split_on_nonempty c s : JS.split_on c s ≠ [].
Proof.
  destruct s as [|a s]; simpl; [done |].
  destruct (Ascii.eqb a c); [done |].
  by destruct (JS.split_on c s).
Qed.

Lemma split_on_app c a b :
  JS.split_on c (a +:+ String c b) = JS.split_on c a ++ JS.split_on c b.
Proof.
  induction a as [|x a IH]; simpl.
  - by rewrite Ascii.eqb_refl.
  - rewrite IH. destruct (Ascii.eqb x c); [done |].
    pose proof (split_on_nonempty c a).
    by destruct (JS.split_on c a).
Qed.

Lemma has_char_app p a b :
  JS.has_char p (a +:+ b) = JS.has_char p a || JS.has_char p b.
Proof. induction a as [|x a IH]; simpl; [done | by rewrite IH, orb_assoc]. Qed.

Lemma split_on_free c s :
  JS.has_char (is_char c) s = false → JS.split_on c s = [s].
Proof.
  induction s as [|a s IH]; simpl; [done |].
  unfold is_char at 1. intros [Ha Hs]%orb_false_iff.
  rewrite Ha, (IH Hs). done.
Qed.

Lemma split_on_has_char c p s :
  JS.has_char p s = false → Forall (fun x => JS.has_char p x = false) (JS.split_on c s).
Proof.
  induction s as [|a s IH]; simpl.
  - intros _. by constructor.
  - intros [Ha Hs]%orb_false_iff. specialize (IH Hs).
    destruct (Ascii.eqb a c).
    + by constructor.
    + destruct (JS.split_on c s) as [|x r]; inversion IH; subst;
        constructor; simpl; try done. all: by rewrite Ha.
Qed.

Lemma split_on_pieces_free c s :
  Forall (fun x => JS.has_char (is_char c) x = false) (JS.split_on c s).
Proof.
  induction s as [|a s IH]; simpl.
  - by constructor.
  - destruct (Ascii.eqb a c) eqn:Hac.
    + by constructor.
    + destruct (JS.split_on c s) as [|x r]; inversion IH; subst;
        constructor; simpl; try done; unfold is_char at 1; by rewrite Hac.
Qed.

Lemma join_cons sep x y l :
  JS.join sep (x :: y :: l) = x +:+ sep +:+ JS.join sep (y :: l).
Proof. done. Qed.

Lemma join_app sep l1 l2 :
  l1 ≠ [] → l2 ≠ [] →
  JS.join sep (l1 ++ l2) = JS.join sep l1 +:+ sep +:+ JS.join sep l2.
Proof.
  intros H1 H2. induction l1 as [|x l1 IH]; [done |].
  destruct l1 as [|y l1].
  - destruct l2; [done | done].
  - change ((x :: y :: l1) ++ l2) with (x :: y :: (l1 ++ l2)).
    rewrite !join_cons. change (y :: l1 ++ l2) with ((y :: l1) ++ l2).
    rewrite IH by done. by rewrite !app_assoc_s.
Qed.

Lemma segments_app a b :
  Path.segments (a +:+ "/" +:+ b) = Path.segments a ++ Path.segments b.
Proof. apply split_on_app. Qed.

Lemma segments_join (parts : list string) :
  parts ≠ [] → Path.segments (JS.join "/" parts) = parts ≫= Path.segments.
Proof.
  induction parts as [|x parts IH]; [done |]. intros _.
  destruct parts as [|y parts].
  - rewrite bind_cons. simpl. by rewrite app_nil_r.
  - rewrite join_cons, segments_app, IH by done. by rewrite (bind_cons _ x).
Qed.

Lemma segments_slash_free s : slash_free s → Path.segments s = [s].
Proof. apply split_on_free. Qed.

Lemma segments_rel (l : list string) :
  l ≠ [] → Forall slash_free l → Path.segments (JS.join "/" l) = l.
Proof.
  intros Hl Hf. rewrite segments_join by done.
  clear Hl. induction Hf as [|x l Hx _ IH]; [done |].
  rewrite bind_cons, (segments_slash_free x Hx), IH. done.
Qed.

Lemma segments_absolute (l : list string) :
  Forall slash_free l →
  Path.segments (absolute_path l) = "" :: (if decide (l = []) then [""] else l).
Proof.
  intros Hf. unfold absolute_path.
  change ("/" +:+ JS.join "/" l) with ("" +:+ "/" +:+ JS.join "/" l).
  rewrite segments_app. simpl. f_equal.
  destruct (decide (l = [])) as [-> | Hl]; [done |].
  by apply segments_rel.
Qed.

Lemma eqb_ne (s t : string) : s ≠ t → String.eqb s t = false.
Proof. by intros ?%String.eqb_neq. Qed.

Lemma split_on_singleton c s x : JS.split_on c s = [x] → s = x.
Proof.
  revert x. induction s as [|a s IH]; simpl; intros x Hx.
  - by inversion Hx.
  - destruct (Ascii.eqb a c).
    + inversion Hx as [[H1 H2]]. by apply split_on_nonempty in H2.
    + destruct (JS.split_on c s) as [|y r] eqn:Hs;
        [by apply split_on_nonempty in Hs |].
      injection Hx as <- ->. by rewrite (IH y eq_refl).
Qed.

Lemma endsWith_slash_last p :
  JS.endsWith "/" p = true → last (Path.segments p) = Some "".
Proof.
  unfold Path.segments.
  induction p as [|a p IH]; [done |].
  cbn [JS.endsWith JS.split_on].
  intros [Heq | Hend]%orb_true_iff.
  - apply String.eqb_eq in Heq. injection Heq as -> ->. done.
  - specialize (IH Hend).
    destruct (Ascii.eqb a "/").
    + pose proof (split_on_nonempty "/" p).
      destruct (JS.split_on "/" p); [done |]. by rewrite last_cons, IH.
    + destruct (JS.split_on "/" p) as [|x r] eqn:Hs; [done |].
      destruct r as [|y r].
      * apply split_on_singleton in Hs. injection IH as ->. by subst.
      * by rewrite !last_cons_cons in *.
Qed.

Lemma isAbsolute_segments p :
  Path.isAbsolute p = true → ∃ r, Path.segments p = "" :: r.
Proof.
  unfold Path.isAbsolute, Path.segments.
  destruct p as [|a p]; [done |].
  cbn [JS.startsWith JS.split_on].
  destruct (Ascii.eqb "/" a) eqn:Ha; [| done].
  apply Ascii.eqb_eq in Ha as <-.
  intros _. rewrite Ascii.eqb_refl. eauto.
Qed.

Lemma clean_or_empty_filter (l : list string) :
  Forall clean_segment l → filter (fun s => s ≠ "") l = l.
Proof.
  induction 1 as [|x l [Hx _] _ IH]; [done |].
  rewrite filter_cons_True by done. by rewrite IH.
Qed.

Lemma norm_go_kept b acc l :
  Forall (fun s => s = "" ∨ clean_segment s) l →
  Path.norm_go b acc l = rev acc ++ filter (fun s => s ≠ "") l.
Proof.
  intros Hl. revert acc. induction Hl as [|s l Hs _ IH]; intros acc; simpl.
  - by rewrite app_nil_r.
  - destruct Hs as [-> | (H1 & H2 & H3 & _)].
    + simpl. rewrite IH. by rewrite filter_cons_False by naive_solver.
    + rewrite (eqb_ne _ _ H1), (eqb_ne _ _ H2), (eqb_ne _ _ H3). simpl.
      rewrite IH, filter_cons_True by done. simpl.
      by rewrite <- app_assoc.
Qed.

Lemma join_nonempty sep x l : x ≠ "" → JS.join sep (x :: l) ≠ "".
Proof.
  intros Hx. destruct l as [|y l]; [done |].
  rewrite join_cons. destruct x; [done | done].
Qed.

Lemma normalize_tidy p s :
  Forall (fun s => s = "" ∨ clean_segment s) (Path.segments p) →
  last (Path.segments p) = Some s → s ≠ "" →
  Path.normalize p =
    if Path.isAbsolute p
    then absolute_path (filter (fun s => s ≠ "") (Path.segments p))
    else JS.join "/" (filter (fun s => s ≠ "") (Path.segments p)).
Proof.
  intros Hseg Hlast Hs.
  assert (p ≠ "") as Hp.
  { intros ->. unfold Path.segments in Hlast. simpl in Hlast. by inversion Hlast. }
  assert (JS.endsWith "/" p = false) as Hend.
  { destruct (JS.endsWith "/" p) eqn:He; [| done].
    apply endsWith_slash_last in He. congruence. }
  assert (s ∈ filter (fun s => s ≠ "") (Path.segments p)) as Hin.
  { apply list_elem_of_filter. split; [done |]. by apply last_Some_elem_of. }
  unfold Path.normalize. rewrite (eqb_ne _ _ Hp), Hend.
  rewrite norm_go_kept by done. simpl.
  destruct (filter (fun s => s ≠ "") (Path.segments p)) as [|x l] eqn:Hk.
  { by apply elem_of_nil in Hin. }
  assert (x ≠ "") as Hx.
  { assert (x ∈ filter (fun s => s ≠ "") (Path.segments p)) as Hx by (rewrite Hk; left).
    by apply list_elem_of_filter in Hx as [? _]. }
  rewrite (eqb_ne _ _ (join_nonempty "/" x l Hx)).
  destruct (Path.isAbsolute p); [| by rewrite app_empty_r].
  unfold absolute_path. by rewrite app_empty_r.
Qed.

Lemma join_all_nonempty (args : list string) x :
  Forall (fun a => a ≠ "") (x :: args) →
  Path.join (x :: args) = Path.normalize (JS.join "/" (x :: args)).
Proof.
  intros Hne. unfold Path.join.
  assert (filter (fun a => JS.truthy a = true) (x :: args) = x :: args) as ->; [| done].
  induction Hne as [|y l Hy _ IH]; [done |].
  rewrite filter_cons_True by (by destruct y). by rewrite IH.
Qed.

Lemma clean_slash_free (l : list string) :
  Forall clean_segment l → Forall slash_free l.
Proof. intros H. eapply Forall_impl; [exact H |]. by intros s (_ & _ & _ & ?). Qed.

Lemma clean_nonempty (l : list string) :
  Forall clean_segment l → Forall (fun s => s ≠ "") l.
Proof. intros H. eapply Forall_impl; [exact H |]. by intros s (? & _). Qed.

Lemma clean_or_empty (l : list string) :
  Forall clean_segment l → Forall (fun s => s = "" ∨ clean_segment s) l.
Proof. intros H. eapply Forall_impl; [exact H |]. by right. Qed.

Lemma segments_rels (xs : list (list string)) :
  Forall (fun l => l ≠ [] ∧ Forall clean_segment l) xs →
  (JS.join "/" <$> xs) ≫= Path.segments = concat xs.
Proof.
  induction 1 as [|l xs [Hl Hc] _ IH]; [done |].
  rewrite fmap_cons, bind_cons, IH.
  by rewrite segments_rel by auto using clean_slash_free.
Qed.

Lemma rels_nonempty (xs : list (list string)) :
  Forall (fun l => l ≠ [] ∧ Forall clean_segment l) xs →
  Forall (fun a => a ≠ "") (JS.join "/" <$> xs).
Proof.
  induction 1 as [|l xs [Hl Hc] _ IH]; [by constructor |].
  rewrite fmap_cons. constructor; [| done].
  destruct Hc as [|x l [Hx _] _]; [done |]. by apply join_nonempty.
Qed.

Lemma concat_clean (xs : list (list string)) :
  Forall (fun l => l ≠ [] ∧ Forall clean_segment l) xs →
  Forall clean_segment (concat xs).
Proof.
  induction 1 as [|l xs [_ Hc] _ IH]; [by constructor |].
  simpl. by apply Forall_app.
Qed.

Lemma concat_last (xs : list (list string)) :
  xs ≠ [] → Forall (fun l => l ≠ [] ∧ Forall clean_segment l) xs →
  ∃ s, last (concat xs) = Some s ∧ s ≠ "".
Proof.
  intros Hxs Hf.
  destruct (last (concat xs)) as [s|] eqn:Hl.
  - exists s. split; [done |].
    apply last_Some_elem_of in Hl.
    pose proof (concat_clean xs Hf) as Hc.
    rewrite Forall_forall in Hc. by destruct (Hc s Hl).
  - apply last_None in Hl. destruct Hf as [|l xs [Hne _] _]; [done |].
    simpl in Hl. by apply app_eq_nil in Hl as [? _].
Qed.

Lemma last_app_Some {A} (l1 l2 : list A) x :
  last l2 = Some x → last (l1 ++ l2) = Some x.
Proof.
  intros H. destruct l2 as [|y l2] using rev_ind; [done |].
  rewrite app_assoc, last_snoc. by rewrite last_snoc in H.
Qed.

Lemma join_relative (xs : list (list string)) :
  xs ≠ [] → Forall (fun l => l ≠ [] ∧ Forall clean_segment l) xs →
  Path.join (JS.join "/" <$> xs) = JS.join "/" (concat xs).
Proof.
  intros Hxs Hf.
  destruct (concat_last xs Hxs Hf) as (s & Hlast & Hs).
  pose proof (rels_nonempty xs Hf) as Hne.
  pose proof (concat_clean xs Hf) as Hc.
  destruct (JS.join "/" <$> xs) as [|a args] eqn:Hargs.
  { by destruct xs. }
  rewrite join_all_nonempty by done.
  assert (Path.segments (JS.join "/" (a :: args)) = concat xs) as Hseg.
  { rewrite segments_join by done. rewrite <- Hargs. by apply segments_rels. }
  rewrite (normalize_tidy _ s); rewrite ?Hseg; try done.
  - rewrite clean_or_empty_filter by done.
    destruct (Path.isAbsolute _) eqn:Habs; [| done].
    apply isAbsolute_segments in Habs as [r Hr]. rewrite Hseg in Hr.
    rewrite Hr in Hc. apply Forall_cons in Hc as [[? _] _]. done.
  - by apply clean_or_empty.
Qed.

Lemma join_absolute (ds : list string) (xs : list (list string)) :
  Forall clean_segment ds →
  xs ≠ [] → Forall (fun l => l ≠ [] ∧ Forall clean_segment l) xs →
  Path.join (absolute_path ds :: (JS.join "/" <$> xs)) = absolute_path (ds ++ concat xs).
Proof.
  intros Hds Hxs Hf.
  destruct (concat_last xs Hxs Hf) as (s & Hlast & Hs).
  pose proof (rels_nonempty xs Hf) as Hne.
  pose proof (concat_clean xs Hf) as Hc.
  rewrite join_all_nonempty by (constructor; done).
  destruct (JS.join "/" <$> xs) as [|a args] eqn:Hargs.
  { by destruct xs. }
  assert (Path.segments (JS.join "/" (absolute_path ds :: a :: args)) =
          ("" :: (if decide (ds = []) then [""] else ds)) ++ concat xs) as Hseg.
  { rewrite segments_join by done. rewrite bind_cons.
    rewrite segments_absolute by auto using clean_slash_free.
    f_equal. rewrite <- Hargs. by apply segments_rels. }
  assert (Path.isAbsolute (JS.join "/" (absolute_path ds :: a :: args)) = true)
    as Habs by (by rewrite join_cons).
  rewrite (normalize_tidy _ s); rewrite ?Hseg, ?Habs.
  - f_equal. rewrite filter_app, filter_cons_False by naive_solver.
    f_equal.
    + destruct (decide (ds = [])) as [-> | ?]; [done |].
      by apply clean_or_empty_filter.
    + by apply clean_or_empty_filter.
  - constructor; [by left |]. apply Forall_app. split; [| by apply clean_or_empty].
    destruct (decide (ds = [])); [constructor; [by left | done] |].
    by apply clean_or_empty.
  - by apply last_app_Some.
  - done.
Qed.

Lemma strip_common_app (l1 l2 : list string) :
  Path.strip_common l1 (l1 ++ l2) = ([], l2).
Proof.
  induction l1 as [|x l1 IH]; simpl; [by destruct l2 |].
  by rewrite String.eqb_refl.
Qed.

Lemma resolve_absolute cwd (l : list string) :
  Forall clean_segment l → Path.resolve_segs cwd (absolute_path l) = l.
Proof.
  intros Hl. unfold Path.resolve_segs.
  assert (Path.isAbsolute (absolute_path l) = true) as -> by done.
  rewrite segments_absolute by auto using clean_slash_free.
  rewrite norm_go_kept.
  - simpl. rewrite filter_cons_False by naive_solver.
    destruct (decide (l = [])) as [-> | ?]; [done |].
    by apply clean_or_empty_filter.
  - constructor; [by left |].
    destruct (decide (l = [])); [constructor; [by left | done] |].
    by apply clean_or_empty.
Qed.

Lemma relative_inside cwd (ds ls : list string) :
  Forall clean_segment ds → Forall clean_segment ls →
  Path.relative cwd (absolute_path ds) (absolute_path (ds ++ ls)) = JS.join "/" ls.
Proof.
  intros Hds Hls. unfold Path.relative.
  rewrite !resolve_absolute by (try apply Forall_app; done).
  rewrite strip_common_app.
  destruct (String.eqb _ _) eqn:Heq; [| done].
  apply String.eqb_eq in Heq.
  apply (f_equal Path.segments) in Heq.
  rewrite !segments_absolute in Heq
    by (apply clean_slash_free; try apply Forall_app; done).
  injection Heq as Heq.
  destruct ls as [|x ls]; [done |]. exfalso.
  destruct (decide (ds = [])) as [-> | ?].
  - destruct (decide ([] ++ x :: ls = [])); [done |].
    simpl in Heq. injection Heq as <- _.
    apply Forall_cons in Hls as [[? _] _]. done.
  - destruct (decide (ds ++ x :: ls = [])) as [Hnil | _].
    + by apply app_eq_nil in Hnil as [? _].
    + apply (f_equal length) in Heq. rewrite length_app in Heq. simpl in Heq. lia.
Qed.

Lemma startsWith_app pre s : JS.startsWith pre s = true → ∃ r, s = pre +:+ r.
Proof.
  revert s. induction pre as [|a pre IH]; intros s; simpl.
  - intros _. by exists s.
  - destruct s as [|b s]; [done |].
    intros [Hab Hs]%andb_true_iff. apply Ascii.eqb_eq in Hab as ->.
    destruct (IH s Hs) as [r ->]. by exists r.
Qed.

Lemma includes_has_char needle p s :
  JS.has_char p needle = true → JS.includes needle s = true → JS.has_char p s = true.
Proof.
  intros Hn. induction s as [|a s IH]; simpl.
  - rewrite orb_false_r. intros [r Hr]%startsWith_app.
    destruct needle; [done | done].
  - intros [Hpre | Hin]%orb_true_iff.
    + apply startsWith_app in Hpre as [r Hr].
      change (p a || JS.has_char p s) with (JS.has_char p (String a s)).
      by rewrite Hr, has_char_app, Hn.
    + by rewrite (IH Hin), orb_true_r.
Qed.

Lemma split_on_second c s :
  JS.has_char (is_char c) s = true → is_Some (JS.split_on c s !! 1).
Proof.
  induction s as [|a s IH]; simpl; [done |].
  unfold is_char at 1. destruct (Ascii.eqb a c) eqn:Hac; simpl.
  - intros _. pose proof (split_on_nonempty c s).
    destruct (JS.split_on c s); [done | by eexists].
  - intros Hs. specialize (IH Hs).
    destruct (JS.split_on c s) as [|x r]; [by destruct IH | done].
Qed.

Lemma toLowerCase_empty s : JS.toLowerCase s = "" ↔ s = "".
Proof. by destruct s. Qed.

Lemma truthy_true s : JS.truthy s = true ↔ s ≠ "".
Proof. by destruct s. Qed.

Lemma or_else_nonempty s d : s ≠ "" → JS.or_else s d = s.
Proof. by destruct s. Qed.

Lemma hostile_slash a : Ascii.eqb a "/" = true → hostile a = true.
Proof. by intros ->%Ascii.eqb_eq. Qed.

Lemma replace_hostile_slash_free s : slash_free (JS.replace_class hostile "_" s).
Proof.
  unfold slash_free. induction s as [|a s IH]; simpl; [done |].
  destruct (hostile a) eqn:Ha; simpl; [done |].
  rewrite IH, orb_false_r. unfold is_char.
  destruct (Ascii.eqb a "/") eqn:Hs; [| done].
  by rewrite (hostile_slash a Hs) in Ha.
Qed.

Lemma replace_hostile_cons a s :
  ∃ b, JS.replace_class hostile "_" (String a s) =
         String b (JS.replace_class hostile "_" s) ∧ (b = "."%char → a = "."%char).
Proof.
  simpl. destruct (hostile a) eqn:Ha.
  - exists "_"%char. by split.
  - exists a. by split.
Qed.

Lemma replace_hostile_nil s : JS.replace_class hostile "_" s = "" → s = "".
Proof.
  destruct s as [|a s]; [done |].
  destruct (replace_hostile_cons a s) as (b & -> & _). done.
Qed.

Lemma replace_hostile_dot s : JS.replace_class hostile "_" s = "." → s = ".".
Proof.
  destruct s as [|a s]; [done |].
  destruct (replace_hostile_cons a s) as (b & -> & Hb).
  intros [= -> Hs]. apply replace_hostile_nil in Hs as ->. by rewrite Hb.
Qed.

Lemma replace_hostile_dotdot s : JS.replace_class hostile "_" s = ".." → s = "..".
Proof.
  destruct s as [|a s]; [done |].
  destruct (replace_hostile_cons a s) as (b & -> & Hb).
  intros [= -> Hs]. apply replace_hostile_dot in Hs as ->. by rewrite Hb.
Qed.

Lemma slice0_slash_free n s : slash_free s → slash_free (JS.slice0 n s).
Proof.
  unfold slash_free. revert s. induction n as [|n IH]; intros [|a s]; simpl; try done.
  intros [Ha Hs]%orb_false_iff. by rewrite Ha, IH.
Qed.

Lemma slice0_nil n s : s ≠ "" → JS.slice0 (S n) s ≠ "".
Proof. by destruct s. Qed.

Lemma slice0_dot n s : JS.slice0 (S (S n)) s = "." → s = ".".
Proof. destruct s as [|a [|b s]]; simpl; congruence. Qed.

Lemma slice0_dotdot n s : JS.slice0 (S (S (S n))) s = ".." → s = "..".
Proof. destruct s as [|a [|b [|c s]]]; simpl; congruence. Qed.

(** The sanitized name of a non-empty segment other than the dot
    segments is a clean segment. *)
Lemma sanitizeFilename_clean x :
  x ≠ "" → x ≠ "." → x ≠ ".." →
  sanitizeFilename x = JS.slice0 200 (JS.replace_class hostile "_" x) ∧
  clean_segment (sanitizeFilename x).
Proof.
  intros H0 H1 H2. unfold sanitizeFilename.
  assert (JS.slice0 200 (JS.replace_class hostile "_" x) ≠ "") as Hne.
  { apply slice0_nil. by intros ?%replace_hostile_nil. }
  rewrite or_else_nonempty by done. split; [done |].
  split; [done |]. split; [| split].
  - by intros ?%(slice0_dot 198)%replace_hostile_dot.
  - by intros ?%(slice0_dotdot 197)%replace_hostile_dotdot.
  - apply slice0_slash_free, replace_hostile_slash_free.
Qed.

Lemma app_not_dots base e :
  clean_segment base → slash_free e → clean_segment (base +:+ e).
Proof.
  intros (H0 & H1 & H2 & H3) He. split; [| split; [| split]].
  - by destruct base.
  - destruct base as [|a [|b base]]; [done | | done].
    destruct e; [by rewrite app_empty_r | done].
  - destruct base as [|a [|b [|c base]]]; [done | | | done].
    + destruct e as [|x [|y e]]; simpl; [done | | done].
      intros [= -> ->]. done.
    + destruct e; [by rewrite app_empty_r | done].
  - unfold slash_free in *. by rewrite has_char_app, H3, He.
Qed.

Lemma last_nonempty_filter (l : list string) :
  Path.last_nonempty l = default "" (last (filter (fun s => s ≠ "") l)).
Proof.
  induction l as [|s l IH]; [done |]. simpl.
  destruct (decide (s = "")) as [-> | Hs].
  - rewrite filter_cons_False by naive_solver. rewrite <- IH.
    by destruct (Path.last_nonempty l).
  - rewrite filter_cons_True by done.
    assert (Forall (fun s => s ≠ "") (filter (fun s => s ≠ "") l)) as Hf.
    { apply Forall_forall. by intros x [? _]%list_elem_of_filter. }
    destruct (filter (fun s => s ≠ "") l) as [|y f] using rev_ind.
    + simpl in IH. by rewrite IH.
    + rewrite app_comm_cons, last_snoc. rewrite last_snoc in IH. simpl in IH.
      rewrite IH. rewrite Forall_app, Forall_singleton in Hf.
      destruct Hf as [_ Hy]. by destruct y.
Qed.

Lemma basename_last_nonempty p :
  Path.basename p = Reference.last_nonempty_segment p.
Proof. apply last_nonempty_filter. Qed.

Lemma extname_name_extension p :
  Path.basename p ≠ ".." →
  Path.extname p = Reference.name_extension (Path.basename p).
Proof.
  intros Hb. unfold Path.extname, Reference.name_extension.
  destruct (Path.basename p) as [|a r]; [done |].
  destruct (Path.last_dot_suffix r); [| done].
  by rewrite (eqb_ne _ _ Hb).
Qed.

Lemma last_dot_suffix_free p s e :
  JS.has_char p s = false → Path.last_dot_suffix s = Some e → JS.has_char p e = false.
Proof.
  induction s as [|a s IH]; simpl; [done |].
  intros [Ha Hs]%orb_false_iff.
  destruct (Path.last_dot_suffix s) as [e'|].
  - intros [= <-]. by apply IH.
  - destruct (Ascii.eqb a "."); [| done]. intros [= <-]. simpl. by rewrite Ha, Hs.
Qed.

Lemma or_else_empty s : JS.or_else s "" = s.
Proof. by destruct s. Qed.

Lemma subdirectory_chooseSubdirByExt ext :
  Reference.subdirectory ext =
    match chooseSubdirByExt ext with
    | "" => ""
    | sub => sub +:+ "/"
    end.
Proof.
  unfold Reference.subdirectory, chooseSubdirByExt.
  destruct (decide (ext = ".css")) as [-> | H1]; [done |].
  rewrite (eqb_ne _ _ H1).
  destruct (decide (ext = ".js")) as [-> | H2]; [done |].
  rewrite (eqb_ne _ _ H2).
  unfold Reference.image_extensions, Reference.font_extensions.
  destruct (decide (ext ∈ _)) as [Hi | Hi].
  { by rewrite bool_decide_eq_true_2. }
  rewrite bool_decide_eq_false_2 by done.
  destruct (decide (ext ∈ _)) as [Hf | Hf].
  { by rewrite bool_decide_eq_true_2. }
  rewrite bool_decide_eq_false_2 by done.
  destruct (decide (ext = ".html" ∨ ext = "")) as [[-> | ->] | H3]; [done | done |].
  rewrite !eqb_ne by naive_solver. done.
Qed.

Lemma chooseSubdirByExt_clean ext :
  chooseSubdirByExt ext = "" ∨ clean_segment (chooseSubdirByExt ext).
Proof.
  unfold chooseSubdirByExt.
  repeat case_decide; auto; right; by repeat split.
Qed.

Lemma type_extension_empty : Reference.type_extension "" = "".
Proof. done. Qed.

Lemma type_extension_slash_free ct : slash_free (Reference.type_extension ct).
Proof.
  unfold Reference.type_extension.
  repeat (match goal with |- slash_free (if ?b then _ else _) => destruct b; [done |] end).
  destruct (JS.includes "image/" ct); [| by destruct (JS.includes "font/" ct)].
  unfold slash_free. simpl.
  destruct (String.eqb _ "jpeg"); [done |].
  assert (slash_free (default "" (JS.split_on "/" ct !! 1))) as Hrest.
  { destruct (JS.split_on "/" ct !! 1) as [x|] eqn:Hx; [| done].
    pose proof (split_on_pieces_free "/" ct) as Hf.
    rewrite Forall_forall in Hf. apply Hf. by eapply list_elem_of_lookup_2. }
  pose proof (split_on_has_char ";" _ _ Hrest) as Hf.
  destruct (JS.split_on ";" _) as [|x r]; [done |]. simpl.
  by apply Forall_cons in Hf as [? _].
Qed.

Section PathMapper.

Variable E : Env.

Lemma extFromUrlOrType_reference u U ct :
  newURL E u None = Some U →
  Path.basename (pathname U) ≠ ".." →
  extFromUrlOrType E u ct =
    Ret (Reference.extension Reference.last_nonempty_segment (pathname U) ct).
Proof.
  intros HU Hb. unfold extFromUrlOrType, new_URL. rewrite HU. simpl.
  unfold Reference.extension, Reference.url_extension.
  rewrite <- basename_last_nonempty, <- extname_name_extension by done.
  destruct (JS.toLowerCase (Path.extname (pathname U))) as [|a e]; [| done].
  simpl. destruct ct as [|c ct]; [reflexivity |].
  cbn [JS.truthy negb]. unfold Reference.type_extension.
  repeat (match goal with
          | |- (if ?b then _ else _) = Ret (if ?b then _ else _) => destruct b; [done |]
          end).
  destruct (JS.includes "image/" (String c ct)) eqn:Himg; [| by destruct (JS.includes "font/" _)].
  assert (is_Some (JS.split_on "/" (String c ct) !! 1)) as [rest Hrest].
  { apply split_on_second. by apply (includes_has_char "image/"). }
  rewrite Hrest. simpl. do 2 f_equal.
  case_decide as Hs; [by rewrite Hs |]. by rewrite (eqb_ne _ _ Hs).
Qed.

(** The result of [localPathFor] is the host token, the subdirectory if
    there is one, and a file name, all clean segments, joined by
    slashes; it is the path the reference definition gives. *)
Lemma localPathFor_segments h u U ct :
  newURL E u None = Some U →
  clean_segment h →
  Path.basename (pathname U) ≠ "." →
  Path.basename (pathname U) ≠ ".." →
  ∃ ls, ls ≠ [] ∧ Forall clean_segment ls ∧
    localPathFor E h u ct = Ret (JS.join "/" (h :: ls)) ∧
    JS.join "/" (h :: ls) =
      Reference.deriveLocalPath Reference.last_nonempty_segment h (pathname U) ct.
Proof.
  intros HU Hh Hb1 Hb2.
  unfold localPathFor. rewrite (extFromUrlOrType_reference u U ct HU Hb2).
  unfold new_URL. rewrite HU. simpl. rewrite or_else_empty.
  unfold Reference.deriveLocalPath, Reference.filename.
  set (ext := Reference.extension Reference.last_nonempty_segment (pathname U) ct).
  (* the file name *)
  set (extra := if JS.truthy ext && negb (JS.truthy (Path.extname (pathname U)))
                then ext else "").
  set (base := sanitizeFilename (JS.or_else (Path.basename (pathname U)) "index")).
  assert (clean_segment base ∧
          base = match Reference.last_nonempty_segment (pathname U) with
                 | "" => "index"
                 | seg => JS.slice0 200 (JS.replace_class hostile "_" seg)
                 end) as [Hbase Hbase_eq].
  { subst base. rewrite <- basename_last_nonempty.
    destruct (Path.basename (pathname U)) as [|a b] eqn:Hbn.
    - split; [by repeat split | done].
    - rewrite or_else_nonempty by done.
      destruct (sanitizeFilename_clean (String a b)) as [-> ?]; try done. }
  assert (slash_free extra ∧
          base +:+ extra =
            match Reference.url_extension Reference.last_nonempty_segment (pathname U) with
            | "" => base +:+ ext
            | _ => base
            end) as [Hextra Hextra_eq].
  { subst extra. unfold Reference.url_extension.
    rewrite <- basename_last_nonempty, <- extname_name_extension by done.
    subst ext. unfold Reference.extension, Reference.url_extension.
    rewrite <- basename_last_nonempty, <- extname_name_extension by done.
    destruct (Path.extname (pathname U)) as [|a e] eqn:Hext.
    - simpl. rewrite andb_true_r.
      destruct (Reference.type_extension ct) eqn:Ht; simpl.
      + by rewrite app_empty_r.
      + split; [| done]. rewrite <- Ht. apply type_extension_slash_free.
    - simpl. rewrite app_empty_r. done. }
  pose proof (app_not_dots base extra Hbase Hextra) as Hname.
  rewrite <- Hbase_eq, <- Hextra_eq.
  set (name := base +:+ extra) in *.
  rewrite (or_else_nonempty name) by (by destruct Hname).
  rewrite subdirectory_chooseSubdirByExt.
  destruct (chooseSubdirByExt_clean ext) as [Hsub | Hsub].
  - rewrite Hsub. simpl. exists [name]. split; [done |]. split; [tidy |].
    split; [| done]. f_equal.
    apply (join_relative [[h]; [name]]); tidy.
  - destruct (chooseSubdirByExt ext) as [|c sub] eqn:Hc; [by destruct Hsub |].
    cbn [JS.truthy]. exists [String c sub; name].
    split; [done |]. split; [tidy |].
    split.
    + f_equal.
      change (Path.join [h; String c sub])
        with (Path.join (JS.join "/" <$> [[h]; [String c sub]])).
      rewrite (join_relative [[h]; [String c sub]]) by tidy.
      apply (join_relative [[h; String c sub]; [name]]); tidy.
    + rewrite !join_cons. simpl. by rewrite app_assoc_s.
Qed.

End PathMapper.

(** *** The pending set *)

Lemma set_add_elem x y (s : list string) : x ∈ set_add y s ↔ x = y ∨ x ∈ s.
Proof.
  unfold set_add. case_decide as Hy.
  - split; [by right | by intros [-> | ?]].
  - rewrite elem_of_app, list_elem_of_singleton. tauto.
Qed.

Lemma set_add_NoDup y (s : list string) : NoDup s → NoDup (set_add y s).
Proof.
  intros Hs. unfold set_add. case_decide as Hy; [done |].
  apply NoDup_app. split; [done |]. split; [| apply NoDup_singleton].
  intros x Hx ->%list_elem_of_singleton. done.
Qed.

Lemma set_add_prefix y (s : list string) : s `prefix_of` set_add y s.
Proof. unfold set_add. case_decide; [done | by apply prefix_app_r]. Qed.

Lemma add_all_elem x (l s : list string) :
  x ∈ fold_left (fun s x => set_add x s) l s ↔ x ∈ l ∨ x ∈ s.
Proof.
  revert s. induction l as [|y l IH]; intros s; simpl.
  - rewrite elem_of_nil. tauto.
  - rewrite IH, set_add_elem, elem_of_cons. tauto.
Qed.

Lemma add_all_NoDup (l s : list string) :
  NoDup s → NoDup (fold_left (fun s x => set_add x s) l s).
Proof.
  revert s. induction l as [|y l IH]; intros s Hs; simpl; [done |].
  by apply IH, set_add_NoDup.
Qed.

Lemma add_all_prefix (l s : list string) :
  s `prefix_of` fold_left (fun s x => set_add x s) l s.
Proof.
  revert s. induction l as [|y l IH]; intros s; simpl; [done |].
  etrans; [apply (set_add_prefix y) | apply IH].
Qed.

Lemma new_Set_elem x (l : list string) : x ∈ new_Set l ↔ x ∈ l.
Proof. unfold new_Set. rewrite add_all_elem, elem_of_nil. tauto. Qed.

Lemma new_Set_NoDup (l : list string) : NoDup (new_Set l).
Proof. apply add_all_NoDup, NoDup_nil_2. Qed.

Lemma prefix_elem {A} (l1 l2 : list A) x : l1 `prefix_of` l2 → x ∈ l1 → x ∈ l2.
Proof. intros [k ->] ?. apply elem_of_app. by left. Qed.

Lemma prefix_same_length (l1 l2 : list string) :
  l1 `prefix_of` l2 → length l2 = length l1 → l2 = l1.
Proof.
  intros [k ->]. rewrite length_app. intros Hk.
  destruct k; [by rewrite app_nil_r | simpl in Hk; lia].
Qed.

(** *** One download *)

Section Downloads.

Variable E : Env.
Variables (orig hostName : string).

Lemma downloadOne_step u st st' :
  downloadOne E orig hostName u st = Ret st' → download_step E orig hostName u st st'.
Proof.
  unfold downloadOne. case_decide as Hu.
  { intros [= <-]. by constructor. }
  assert (urlToLocalPath st !! u = None) as Hnone.
  { destruct (urlToLocalPath st !! u) eqn:Hl; [| done]. by destruct Hu. }
  destruct (fetchWithType E u) as [[buf ct] | e |] eqn:Hf; [| | done].
  - destruct (localPathFor E hostName u ct) as [lp | |] eqn:Hlp; simpl; [| done | done].
    intros [= <-].
    replace (if JS.includes "text/css" (JS.or_else ct "") then _ else _)
      with (fold_left (fun s x => set_add x s) (links E orig u) (toDownload st)).
    + by eapply step_saved.
    + unfold links. rewrite Hf. by destruct (JS.includes _ _).
  - intros [= <-]. by constructor.
Qed.

Lemma step_downloadOne u st st' :
  download_step E orig hostName u st st' → downloadOne E orig hostName u st = Ret st'.
Proof.
  unfold downloadOne. destruct 1 as [Hu | e Hu Hf | buf ct lp Hu Hf Hlp].
  - by rewrite decide_True.
  - rewrite decide_False by (rewrite Hu; by intros []). by rewrite Hf.
  - rewrite decide_False by (rewrite Hu; by intros []). rewrite Hf, Hlp. simpl.
    do 2 f_equal. unfold links. rewrite Hf. by destruct (JS.includes _ _).
Qed.

End Downloads.

Lemma grows_refl st : grows st st.
Proof. by repeat split. Qed.

Lemma grows_trans st1 st2 st3 : grows st1 st2 → grows st2 st3 → grows st1 st3.
Proof.
  intros (A1 & A2 & A3 & A4) (B1 & B2 & B3 & B4).
  repeat split; by etrans.
Qed.

Section Waves.

Variable E : Env.
Variables (orig hostName : string).

Lemma step_grows u st st' : download_step E orig hostName u st st' → grows st st'.
Proof.
  destruct 1 as [Hu | e Hu Hf | buf ct lp Hu Hf Hlp]; repeat split; simpl;
    try done; try by apply prefix_app_r.
  - apply add_all_prefix.
  - by apply insert_subseteq.
Qed.

Lemma downloadAll_cons u l st st' :
  downloadAll E orig hostName (u :: l) st = Ret st' ↔
  ∃ st1, downloadOne E orig hostName u st = Ret st1 ∧
         downloadAll E orig hostName l st1 = Ret st'.
Proof.
  simpl. destruct (downloadOne E orig hostName u st) as [st1 | |]; simpl.
  - split; [by exists st1 | by intros (? & [= <-] & ?)].
  - split; [done | by intros (? & ? & _)].
  - split; [done | by intros (? & ? & _)].
Qed.

Lemma downloadAll_app l1 l2 st st' :
  downloadAll E orig hostName (l1 ++ l2) st = Ret st' ↔
  ∃ st1, downloadAll E orig hostName l1 st = Ret st1 ∧
         downloadAll E orig hostName l2 st1 = Ret st'.
Proof.
  revert st. induction l1 as [|u l1 IH]; intros st.
  - simpl. split; [by exists st | by intros (? & [= <-] & ?)].
  - rewrite <- app_comm_cons, downloadAll_cons. split.
    + intros (st1 & H1 & (st2 & H2 & H3)%IH). exists st2. split; [| done].
      apply downloadAll_cons. by exists st1.
    + intros (st2 & (st1 & H1 & H2)%downloadAll_cons & H3).
      exists st1. split; [done |]. apply IH. by exists st2.
Qed.

Lemma downloadAll_grows l st st' :
  downloadAll E orig hostName l st = Ret st' → grows st st'.
Proof.
  revert st. induction l as [|u l IH]; intros st.
  - intros [= <-]. apply grows_refl.
  - intros (st1 & H1%downloadOne_step%step_grows & H2%IH)%downloadAll_cons.
    by eapply grows_trans.
Qed.

Lemma wave_grows st st' : wave E orig hostName st = Ret st' → grows st st'.
Proof. apply downloadAll_grows. Qed.

Lemma waveLoop_unfold fuel n st :
  waveLoop E orig hostName fuel n st =
    if length (toDownload st) =? n then Ret st
    else match fuel with
         | 0 => OutOfFuel
         | S fuel' =>
             st' ← wave E orig hostName st;
             waveLoop E orig hostName fuel' (length (toDownload st)) st'
         end.
Proof. by destruct fuel. Qed.

Lemma waveLoop_grows fuel n st st' :
  waveLoop E orig hostName fuel n st = Ret st' → grows st st'.
Proof.
  revert n st. induction fuel as [|fuel IH]; intros n st; rewrite waveLoop_unfold;
    destruct (length (toDownload st) =? n); try done.
  - intros [= <-]. apply grows_refl.
  - intros [= <-]. apply grows_refl.
  - destruct (wave E orig hostName st) as [st1 | |] eqn:Hw; simpl; [| done | done].
    intros H%IH. eapply grows_trans; [by apply wave_grows | done].
Qed.

(** A property of the state that every download of a pending URL keeps
    is kept by a wave and by the loop. *)
Section Preservation.

Variable P : state -> Prop.
Hypothesis P_step : ∀ u st st',
  P st → u ∈ toDownload st → download_step E orig hostName u st st' → P st'.

Lemma downloadAll_preserves l st st' :
  P st → (∀ u, u ∈ l → u ∈ toDownload st) →
  downloadAll E orig hostName l st = Ret st' → P st'.
Proof.
  revert st. induction l as [|u l IH]; intros st HP Hl.
  - by intros [= <-].
  - intros (st1 & H1%downloadOne_step & H2)%downloadAll_cons.
    apply (IH st1); [| | done].
    + eapply P_step; [done | | done]. apply Hl. left.
    + intros x Hx. apply step_grows in H1 as [Hpre _].
      eapply prefix_elem; [done |]. apply Hl. by right.
Qed.

Lemma wave_preserves st st' :
  P st → wave E orig hostName st = Ret st' → P st'.
Proof. intros HP. by apply downloadAll_preserves. Qed.

Lemma waveLoop_preserves fuel n st st' :
  P st → waveLoop E orig hostName fuel n st = Ret st' → P st'.
Proof.
  revert n st. induction fuel as [|fuel IH]; intros n st HP; rewrite waveLoop_unfold;
    destruct (length (toDownload st) =? n); try done.
  - by intros [= <-].
  - by intros [= <-].
  - destruct (wave E orig hostName st) as [st1 | |] eqn:Hw; simpl; [| done | done].
    apply IH. by eapply wave_preserves.
Qed.

End Preservation.

(** The loop ends in a state that a wave has left as it found it. *)
Lemma waveLoop_fixpoint fuel n st st' :
  waveLoop E orig hostName fuel n st = Ret st' →
  (length (toDownload st) = n ∧ st' = st) ∨
  (∃ stp, grows st stp ∧ wave E orig hostName stp = Ret st' ∧
          toDownload stp = toDownload st').
Proof.
  revert n st. induction fuel as [|fuel IH]; intros n st; rewrite waveLoop_unfold;
    destruct (length (toDownload st) =? n) eqn:Hn; try done.
  - intros [= <-]. left. by apply Nat.eqb_eq in Hn.
  - intros [= <-]. left. by apply Nat.eqb_eq in Hn.
  - destruct (wave E orig hostName st) as [st1 | |] eqn:Hw; simpl; [| done | done].
    intros [[Hlen ->] | (stp & Hg & Hwp & Hp)]%IH; right.
    + exists st. split; [apply grows_refl |]. split; [done |].
      symmetry. apply prefix_same_length; [| done].
      by apply wave_grows in Hw as [? _].
    + exists stp. split; [| done].
      eapply grows_trans; [by apply wave_grows | done].
Qed.

Lemma waveLoop_more_fuel fuel fuel' n st st' :
  waveLoop E orig hostName fuel n st = Ret st' → fuel ≤ fuel' →
  waveLoop E orig hostName fuel' n st = Ret st'.
Proof.
  revert fuel' n st. induction fuel as [|fuel IH]; intros fuel' n st;
    rewrite !waveLoop_unfold; destruct (length (toDownload st) =? n); try done.
  destruct fuel' as [|fuel']; [lia |].
  destruct (wave E orig hostName st) as [st1 | |]; simpl; [| done | done].
  intros H Hle. apply IH; [done | lia].
Qed.

End Waves.

Lemma times_snoc u x (l : list string) :
  times u (l ++ [x]) = times u l + (if decide (x = u) then 1 else 0).
Proof.
  unfold times. rewrite filter_app, length_app. f_equal.
  case_decide.
  - by rewrite filter_cons_True.
  - by rewrite filter_cons_False.
Qed.

Lemma times_prefix u (l1 l2 : list string) :
  l1 `prefix_of` l2 → times u l1 ≤ times u l2.
Proof. intros [k ->]. unfold times. rewrite filter_app, length_app. lia. Qed.

Section Totality.

Variable E : Env.

Lemma extFromUrlOrType_total u U ct :
  newURL E u None = Some U → ∃ e, extFromUrlOrType E u ct = Ret e.
Proof.
  intros HU. unfold extFromUrlOrType, new_URL. rewrite HU. simpl.
  repeat (match goal with
          | |- ∃ e, (if ?b then _ else _) = Ret e => destruct b eqn:?; [by eexists |]
          end).
  destruct (JS.includes "image/" ct) eqn:Himg; [| by destruct (JS.includes "font/" _); eexists].
  assert (is_Some (JS.split_on "/" ct !! 1)) as [rest Hrest].
  { apply split_on_second. by apply (includes_has_char "image/"). }
  rewrite Hrest. by eexists.
Qed.

Lemma localPathFor_total h u U ct :
  newURL E u None = Some U → ∃ lp, localPathFor E h u ct = Ret lp.
Proof.
  intros HU. unfold localPathFor.
  destruct (extFromUrlOrType_total u U ct HU) as [e ->].
  unfold new_URL. rewrite HU. simpl. by eexists.
Qed.

Lemma downloadOne_total orig h u U st :
  newURL E u None = Some U → ∃ st', downloadOne E orig h u st = Ret st'.
Proof.
  intros HU. unfold downloadOne. case_decide; [by eexists |].
  destruct (fetchWithType E u) as [[buf ct] | e |] eqn:Hf.
  - destruct (localPathFor_total h u U ct HU) as [lp ->]. simpl. by eexists.
  - by eexists.
  - unfold fetchWithType in Hf. destruct (fetch E u) as [r | m]; [| done].
    by destruct (ok r).
Qed.

Lemma fetchWithType_cases u :
  (∃ buf ct, fetchWithType E u = Ret (buf, ct)) ∨ (∃ e, fetchWithType E u = Throw e).
Proof.
  unfold fetchWithType. destruct (fetch E u) as [r | m]; [| right; by eexists].
  destruct (ok r); [left | right]; by repeat eexists.
Qed.

(** The references collected from the page are URLs of the origin,
    written out. *)
Lemma collect_sound doc base orig x :
  x ∈ collectAndRewriteHtml E doc base true orig →
  ∃ ref U, newURL E ref (Some base) = Some U ∧ href U = x ∧ origin U = orig.
Proof.
  unfold collectAndRewriteHtml.
  intros ([selector name] & Hx & _)%list_elem_of_bind.
  apply list_elem_of_bind in Hx as (el & Hx & _).
  unfold collect_one in Hx. destruct (attr el name) as [val|]; [| by apply elem_of_nil in Hx].
  assert (∀ ref, x ∈ match newURL E ref (Some base) with
                     | Some u => if true && negb (String.eqb (origin u) orig)
                                 then [] else [href u]
                     | None => []
                     end →
          ∃ ref U, newURL E ref (Some base) = Some U ∧ href U = x ∧ origin U = orig)
    as Hkeep.
  { intros ref Hin. destruct (newURL E ref (Some base)) as [U|] eqn:HU;
      [| by apply elem_of_nil in Hin].
    simpl in Hin. destruct (String.eqb (origin U) orig) eqn:Ho; simpl in Hin;
      [| by apply elem_of_nil in Hin].
    apply list_elem_of_singleton in Hin as ->. apply String.eqb_eq in Ho.
    by exists ref, U. }
  case_decide.
  - apply list_elem_of_bind in Hx as (ref & Hx & _). by apply (Hkeep ref).
  - by apply (Hkeep val).
Qed.

End Totality.

Section Invariant.

Variable E : Env.
Variables (orig hostName startUrl : string).
Variable assets : list string.

Lemma run_inv_init :
  run_inv E orig hostName startUrl assets (mkState (new_Set assets) ∅ ∅ [startUrl] []).
Proof.
  split; simpl.
  - apply new_Set_NoDup.
  - intros x Hx. rewrite new_Set_elem in Hx. by constructor.
  - intros x [p Hp]. by rewrite lookup_empty in Hp.
  - intros x y [p Hp]. by rewrite lookup_empty in Hp.
  - intros x p Hp. by rewrite lookup_empty in Hp.
  - exists []. split; [done |]. split; [by intros x ?%elem_of_nil |].
    intros u _. rewrite decide_False; [done |]. rewrite lookup_empty. by intros [].
  - by intros x e ?%elem_of_nil.
Qed.

Lemma run_inv_step u st st' :
  run_inv E orig hostName startUrl assets st → u ∈ toDownload st →
  download_step E orig hostName u st st' → run_inv E orig hostName startUrl assets st'.
Proof.
  intros [Hnd Hreach Hkeys Hclosed Hvals (rest & Hrest & Hsub & Hcount) Hwarn] Hu.
  destruct 1 as [Hknown | e Hnone Hf | buf ct lp Hnone Hf Hlp].
  - by split; [.. | exists rest |].
  - split; simpl; try done.
    + exists (rest ++ [u]). split; [by rewrite Hrest |]. split.
      * intros x [? | ->%list_elem_of_singleton]%elem_of_app; auto.
      * intros v Hv. rewrite times_snoc, (Hcount v Hv).
        rewrite (decide_False (P := u = v)); [lia |].
        intros ->. destruct Hv as (? & ? & Hv). congruence.
    + intros x e' [? | [= -> ->]%list_elem_of_singleton]%elem_of_app; auto.
  - assert (∀ x, x ∈ toDownload st →
                 x ∈ fold_left (fun s x => set_add x s) (links E orig u) (toDownload st))
      as Hmono.
    { intros x Hx. apply add_all_elem. by right. }
    split; simpl.
    + by apply add_all_NoDup.
    + intros x [Hx | Hx]%add_all_elem; [| by apply Hreach].
      eapply reach_link; [by apply Hreach | done].
    + intros x Hx. destruct (decide (x = u)) as [-> | Hne].
      * split; [by apply Hmono |]. by exists buf, ct.
      * rewrite lookup_insert_ne in Hx by done.
        destruct (Hkeys x Hx). split; [by apply Hmono | done].
    + intros x y Hx Hy. destruct (decide (x = u)) as [-> | Hne].
      * apply add_all_elem. by left.
      * rewrite lookup_insert_ne in Hx by done. apply Hmono. by eapply Hclosed.
    + intros x p. destruct (decide (x = u)) as [-> | Hne].
      * rewrite lookup_insert_eq. intros [= <-]. by exists ct, lp.
      * rewrite lookup_insert_ne by done. apply Hvals.
    + exists (rest ++ [u]). split; [by rewrite Hrest |]. split.
      * intros x [? | ->%list_elem_of_singleton]%elem_of_app; auto.
      * intros v Hv. rewrite times_snoc, (Hcount v Hv).
        destruct (decide (u = v)) as [<- | Hne].
        -- rewrite decide_False by (rewrite Hnone; by intros []).
           rewrite decide_True; [done |]. rewrite lookup_insert_eq. by eexists.
        -- rewrite lookup_insert_ne by done. lia.
    + done.
Qed.

(** A wave resolves the pending URLs that can be fetched, and warns
    about the others once more. *)
Lemma downloadAll_outcome l st st' :
  run_inv E orig hostName startUrl assets st → (∀ u, u ∈ l → u ∈ toDownload st) →
  downloadAll E orig hostName l st = Ret st' →
  ∀ u, u ∈ l →
    (fetch_ok E u → is_Some (urlToLocalPath st' !! u)) ∧
    (∀ e, fetchWithType E u = Throw e →
          (u, e) ∈ warned st' ∧ times u (fetched st) < times u (fetched st')).
Proof.
  revert st. induction l as [|v l IH]; intros st Hinv Hl Hall u Hu.
  { by apply elem_of_nil in Hu. }
  apply downloadAll_cons in Hall as (st1 & H1%downloadOne_step & H2).
  assert (run_inv E orig hostName startUrl assets st1) as Hinv1.
  { eapply run_inv_step; [done | | done]. apply Hl. left. }
  assert (∀ x, x ∈ l → x ∈ toDownload st1) as Hl1.
  { intros x Hx. apply step_grows in H1 as [Hpre _].
    eapply prefix_elem; [done |]. apply Hl. by right. }
  pose proof (downloadAll_grows _ _ _ _ _ _ H2) as (_ & Hmap & Hfet & Hwarn).
  pose proof (step_grows _ _ _ _ _ _ H1) as (_ & _ & Hfet1 & _).
  destruct (decide (u ∈ l)) as [Hin | Hnotin].
  { destruct (IH st1 Hinv1 Hl1 H2 u Hin) as [Hok Hfail]. split; [done |].
    intros e He. destruct (Hfail e He) as [? ?]. split; [done |].
    pose proof (times_prefix u _ _ Hfet1). lia. }
  apply elem_of_cons in Hu as [-> | ?]; [| done]. split.
  - intros Hok.
    assert (is_Some (urlToLocalPath st1 !! v)) as [p Hp].
    { destruct H1 as [Hknown | e Hnone Hf | buf ct lp Hnone Hf Hlp]; simpl.
      - done.
      - destruct Hok as (? & ? & Hok). congruence.
      - rewrite lookup_insert_eq. by eexists. }
    exists p. by eapply lookup_weaken.
  - intros e He.
    destruct H1 as [[p Hknown] | e' Hnone Hf | buf ct lp Hnone Hf Hlp]; simpl in *.
    + destruct (inv_keys _ _ _ _ _ _ Hinv v) as [_ (? & ? & Hok)]; [by eexists |]. congruence.
    + assert (e' = e) as -> by congruence. split.
      * eapply prefix_elem; [done |]. apply elem_of_app. right. left.
      * eapply Nat.lt_le_trans; [| by apply times_prefix].
        rewrite times_snoc, decide_True by done. lia.
    + congruence.
Qed.

End Invariant.

Section Termination.

Variable E : Env.
Variables (orig hostName : string).
Variable P : state -> Prop.
Variable N : nat.
Hypothesis P_step : ∀ u st st',
  P st → u ∈ toDownload st → download_step E orig hostName u st st' → P st'.
Hypothesis P_bound : ∀ st, P st → length (toDownload st) ≤ N.
Hypothesis P_parse : ∀ st u, P st → u ∈ toDownload st → is_Some (newURL E u None).

Lemma downloadAll_total l st :
  P st → (∀ u, u ∈ l → u ∈ toDownload st) →
  ∃ st', downloadAll E orig hostName l st = Ret st'.
Proof.
  revert st. induction l as [|u l IH]; intros st HP Hl.
  - by exists st.
  - destruct (P_parse st u HP) as [U HU]; [apply Hl; left |].
    destruct (downloadOne_total E orig hostName u U st HU) as [st1 H1].
    destruct (IH st1) as [st' H2].
    + eapply P_step; [done | | by apply downloadOne_step]. apply Hl. left.
    + intros x Hx. apply downloadOne_step, step_grows in H1 as [Hpre _].
      eapply prefix_elem; [done |]. apply Hl. by right.
    + exists st'. apply downloadAll_cons. by exists st1.
Qed.

Lemma waveLoop_total fuel n st :
  P st → n ≤ length (toDownload st) → N + 1 - n ≤ fuel →
  ∃ st', waveLoop E orig hostName fuel n st = Ret st'.
Proof.
  revert n st. induction fuel as [|fuel IH]; intros n st HP Hn Hfuel;
    rewrite waveLoop_unfold;
    destruct (length (toDownload st) =? n) eqn:Heq; try by eexists.
  - apply Nat.eqb_neq in Heq. pose proof (P_bound st HP). lia.
  - apply Nat.eqb_neq in Heq.
    destruct (downloadAll_total (toDownload st) st HP) as [st1 H1]; [done |].
    unfold wave. rewrite H1. simpl.
    apply IH.
    + by eapply (wave_preserves E orig hostName P P_step).
    + apply downloadAll_grows in H1 as [Hpre _]. by apply prefix_length.
    + pose proof (P_bound st HP). lia.
Qed.

End Termination.

Section RunFacts.

Variable E : Env.
Variable url : string.
Variable u0 : URL.
Hypothesis Hround : URL_roundtrip E.
Hypothesis Hseed : newURL E url None = Some u0.

Let startUrl := href u0.
Let orig := origin u0.
Let hostName := host_token (hostname u0).

Lemma run_unfold fuel :
  run E fuel url =
    match fetchWithType E startUrl with
    | OutOfFuel => OutOfFuel
    | Throw e => Throw e
    | Ret (buf, _) =>
        let doc := load E (decode E buf) in
        let assets := collectAndRewriteHtml E doc startUrl true orig in
        let st0 := mkState (new_Set assets) ∅ ∅ [startUrl] [] in
        st1 ← wave E orig hostName st0;
        st2 ← waveLoop E orig hostName fuel 0 st1;
        let doc' := rewriteDocument E hostName startUrl (urlToLocalPath st2) doc in
        Ret (mkState (toDownload st2) (urlToLocalPath st2)
                     (saveFile
                        (Path.join [Path.join [__dirname E; OUTPUT_BASE; hostName];
                                    "index.html"])
                        (html E doc') (disk st2))
                     (fetched st2) (warned st2),
             doc')
    end.
Proof.
  unfold run, new_URL. rewrite Hseed. simpl.
  by rewrite (Hround _ _ _ Hseed).
Qed.

Variable buf : string.
Variable seed_ct : string.
Hypothesis Hfetch : fetchWithType E startUrl = Ret (buf, seed_ct).

Let doc := load E (decode E buf).
Let assets := collectAndRewriteHtml E doc startUrl true orig.
Let st0 := mkState (new_Set assets) ∅ ∅ [startUrl] [].

(** A completed run in pieces. *)
Lemma run_Ret fuel st doc' :
  run E fuel url = Ret (st, doc') →
  ∃ st1 st2,
    wave E orig hostName st0 = Ret st1 ∧
    waveLoop E orig hostName fuel 0 st1 = Ret st2 ∧
    doc' = rewriteDocument E hostName startUrl (urlToLocalPath st2) doc ∧
    st = mkState (toDownload st2) (urlToLocalPath st2)
           (saveFile
              (Path.join [Path.join [__dirname E; OUTPUT_BASE; hostName]; "index.html"])
              (html E doc') (disk st2))
           (fetched st2) (warned st2).
Proof.
  rewrite run_unfold, Hfetch. simpl.
  fold doc. fold assets. fold st0.
  destruct (wave E orig hostName st0) as [st1 | |] eqn:H1; simpl; [| done | done].
  destruct (waveLoop E orig hostName fuel 0 st1) as [st2 | |] eqn:H2; simpl;
    [| done | done].
  intros [= <- <-]. by exists st1, st2.
Qed.

(** The pending URLs parse, and are of the origin of the page. *)
Lemma reachable_parses x :
  reachable E orig assets x → ∃ U, newURL E x None = Some U ∧ origin U = orig.
Proof.
  destruct 1 as [x Hx | u x _ Hx].
  - apply collect_sound in Hx as (ref & U & HU & <- & Ho).
    exists U. split; [by eapply Hround | done].
  - unfold links in Hx. destruct (fetchWithType E u) as [[b c] | |];
      [| by apply elem_of_nil in Hx ..].
    destruct (JS.includes _ _); [| by apply elem_of_nil in Hx].
    apply list_elem_of_filter in Hx as [Hx _]. unfold same_origin in Hx.
    destruct (newURL E x None) as [U|]; [| done].
    exists U. split; [done |]. by apply String.eqb_eq.
Qed.

End RunFacts.

Lemma bind_Ret {A B} (f : A → res B) (a : A) : Ret a ≫= f = f a.
Proof. done. Qed.

Section FixpointInv.

Variable E : Env.
Variables (orig hostName : string).
Variable P : state -> Prop.
Hypothesis P_step : ∀ u st st',
  P st → u ∈ toDownload st → download_step E orig hostName u st st' → P st'.

Lemma waveLoop_last_wave fuel n st st' :
  P st → waveLoop E orig hostName fuel n st = Ret st' →
  (length (toDownload st) = n ∧ st' = st) ∨
  (∃ stp, P stp ∧ grows st stp ∧ wave E orig hostName stp = Ret st' ∧
          toDownload stp = toDownload st').
Proof.
  revert n st. induction fuel as [|fuel IH]; intros n st HP; rewrite waveLoop_unfold;
    destruct (length (toDownload st) =? n) eqn:Hn; try done.
  - intros [= <-]. left. by apply Nat.eqb_eq in Hn.
  - intros [= <-]. left. by apply Nat.eqb_eq in Hn.
  - destruct (wave E orig hostName st) as [st1 | |] eqn:Hw; simpl; [| done | done].
    intros Hloop. right.
    destruct (IH _ st1 (wave_preserves E orig hostName P P_step _ _ HP Hw) Hloop)
      as [[Hlen ->] | (stp & HPp & Hg & Hwp & Hp)].
    + exists st. split; [done |]. split; [apply grows_refl |]. split; [done |].
      symmetry. apply prefix_same_length; [| done].
      by apply (wave_grows E orig hostName) in Hw as [? _].
    + exists stp. split; [done |]. split; [| done].
      eapply grows_trans; [by apply (wave_grows E orig hostName) | done].
Qed.

End FixpointInv.

Section RunSummary.

Variable E : Env.
Variable url : string.
Variable u0 : URL.
Hypothesis Hround : URL_roundtrip E.
Hypothesis Hseed : newURL E url None = Some u0.
Variable buf : string.
Variable seed_ct : string.
Hypothesis Hfetch : fetchWithType E (href u0) = Ret (buf, seed_ct).

Let startUrl := href u0.
Let orig := origin u0.
Let hostName := host_token (hostname u0).
Let doc := load E (decode E buf).
Let assets := collectAndRewriteHtml E doc startUrl true orig.
Let st0 := mkState (new_Set assets) ∅ ∅ [startUrl] [].
Let inv := run_inv E orig hostName startUrl assets.

Lemma inv_step u st st' :
  inv st → u ∈ toDownload st → download_step E orig hostName u st st' → inv st'.
Proof. apply run_inv_step. Qed.

(** The state in which the loop ends satisfies the invariant, and is
    the result of a wave that found every pending URL already
    pending. *)
Lemma run_summary fuel st doc' :
  run E fuel url = Ret (st, doc') →
  ∃ st2 stp,
    st = mkState (toDownload st2) (urlToLocalPath st2)
           (saveFile
              (Path.join [Path.join [__dirname E; OUTPUT_BASE; hostName]; "index.html"])
              (html E doc') (disk st2))
           (fetched st2) (warned st2) ∧
    doc' = rewriteDocument E hostName startUrl (urlToLocalPath st2) doc ∧
    inv st2 ∧ inv stp ∧ grows st0 stp ∧
    wave E orig hostName stp = Ret st2 ∧
    toDownload stp = toDownload st2.
Proof.
  intros (st1 & st2 & H1 & H2 & -> & ->)%(run_Ret E url u0 Hround Hseed buf seed_ct Hfetch).
  fold startUrl orig hostName doc assets st0 in H1, H2 |- *.
  pose proof (run_inv_init E orig hostName startUrl assets) as Hi0. fold st0 inv in Hi0.
  pose proof (wave_preserves E orig hostName inv inv_step _ _ Hi0 H1) as Hi1.
  pose proof (waveLoop_preserves E orig hostName inv inv_step _ _ _ _ Hi1 H2) as Hi2.
  exists st2.
  destruct (waveLoop_last_wave E orig hostName inv inv_step _ _ _ _ Hi1 H2)
    as [[Hlen ->] | (stp & Hp & Hg & Hw & Heq)].
  - exists st0. split_and!; try done.
    apply (wave_grows E orig hostName) in H1 as [Hpre _].
    destruct (toDownload st1); [| done].
    by apply prefix_nil_inv in Hpre.
  - exists stp. split_and!; try done.
    eapply grows_trans; [by apply (wave_grows E orig hostName) in H1 | done].
Qed.

Lemma inv_parses st u : inv st → u ∈ toDownload st → is_Some (newURL E u None).
Proof.
  intros Hi Hu. apply (inv_reach _ _ _ _ _ _ Hi) in Hu.
  apply (reachable_parses E u0 Hround) in Hu as (U & HU & _). by eexists.
Qed.

Lemma inv_bound (site : list string) st :
  (∀ x, reachable E orig assets x → x ∈ site) →
  inv st → length (toDownload st) ≤ length site.
Proof.
  intros Hsite Hi. apply submseteq_length, NoDup_submseteq.
  - apply (inv_nodup _ _ _ _ _ _ Hi).
  - intros x Hx. apply Hsite. by apply (inv_reach _ _ _ _ _ _ Hi).
Qed.

(** On a finite site the run comes to an end. *)
Lemma run_terminates (site : list string) :
  (∀ x, reachable E orig assets x → x ∈ site) →
  ∃ st doc', run E (S (length site)) url = Ret (st, doc').
Proof.
  intros Hsite.
  pose proof (run_inv_init E orig hostName startUrl assets) as Hi0. fold st0 inv in Hi0.
  destruct (downloadAll_total E orig hostName inv inv_step inv_parses
              (toDownload st0) st0 Hi0) as [st1 H1]; [done |].
  pose proof (wave_preserves E orig hostName inv inv_step _ _ Hi0 H1) as Hi1.
  destruct (waveLoop_total E orig hostName inv (length site) inv_step
              (fun st => inv_bound site st Hsite) inv_parses
              (S (length site)) 0 st1 Hi1) as [st2 H2]; [lia | lia |].
  rewrite (run_unfold E url u0 Hround Hseed), Hfetch.
  cbv zeta. fold startUrl orig hostName doc assets st0.
  unfold wave in H1 |- *. rewrite H1, bind_Ret, H2, bind_Ret. by eexists _, _.
Qed.

Lemma run_more_fuel fuel fuel' st doc' :
  run E fuel url = Ret (st, doc') → fuel ≤ fuel' → run E fuel' url = Ret (st, doc').
Proof.
  rewrite !(run_unfold E url u0 Hround Hseed), Hfetch.
  cbv zeta. fold startUrl orig hostName doc assets st0.
  destruct (wave E orig hostName st0) as [st1 | |]; [| done | done].
  rewrite !bind_Ret.
  destruct (waveLoop E orig hostName fuel 0 st1) as [st2 | |] eqn:H2;
    [| done | done].
  intros Heq Hle. by rewrite (waveLoop_more_fuel E orig hostName _ _ _ _ _ H2 Hle).
Qed.

(** Every reachable URL that can be fetched has an entry in the end. *)
Lemma run_covers fuel st doc' :
  run E fuel url = Ret (st, doc') →
  (∀ x, reachable E orig assets x → fetch_ok E x) →
  ∀ x, reachable E orig assets x → is_Some (urlToLocalPath st !! x).
Proof.
  intros (st2 & stp & -> & _ & Hi2 & Hip & Hg & Hw & Heq)%run_summary Hok. simpl.
  assert (∀ x, x ∈ toDownload st2 → is_Some (urlToLocalPath st2 !! x)) as Hres.
  { intros x Hx. rewrite <- Heq in Hx.
    destruct (downloadAll_outcome E orig hostName startUrl assets
                (toDownload stp) stp st2 Hip (fun _ H => H) Hw x Hx) as [Hr _].
    apply Hr, Hok. by apply (inv_reach _ _ _ _ _ _ Hip). }
  assert (∀ x, reachable E orig assets x → x ∈ toDownload st2) as Hpend.
  { induction 1 as [x Hx | u x _ IH Hx].
    - destruct Hg as [Hpre _]. rewrite <- Heq.
      eapply prefix_elem; [done |]. simpl. by apply new_Set_elem.
    - eapply (inv_closed _ _ _ _ _ _ Hi2); [| done]. by apply Hres. }
  intros x Hx. by apply Hres, Hpend.
Qed.

End RunSummary.

Section Rewriting.

Variable E : Env.
Variables (hostName startUrl : string).
Variable m : gmap string string.

Lemma rewriteDocument_fmap doc :
  rewriteDocument E hostName startUrl m doc =
  rewrite_element E hostName startUrl m <$> doc.
Proof.
  unfold rewriteDocument, rewrite_element.
  revert doc. induction attrMap as [|[selector name] l IH]; intros doc; simpl.
  - by rewrite list_fmap_id.
  - rewrite IH, <- list_fmap_compose. done.
Qed.

Lemma rewriteDocument_lookup doc i el :
  doc !! i = Some el →
  rewriteDocument E hostName startUrl m doc !! i =
    Some (rewrite_element E hostName startUrl m el).
Proof. intros H. by rewrite rewriteDocument_fmap, list_lookup_fmap, H. Qed.

Lemma rewrite_attr_other name a el :
  name ≠ a →
  attribs (rewrite_attr E hostName startUrl m a el) !! name = attribs el !! name.
Proof.
  intros Hne. unfold rewrite_attr.
  destruct (attr el a) as [val|]; [| done].
  case_decide.
  - simpl. by rewrite lookup_insert_ne.
  - destruct (newURL E val (Some startUrl)) as [U|]; [| done].
    destruct (JS.truthy _); [| done]. simpl. by rewrite lookup_insert_ne.
Qed.

Lemma attr_Some el a val : attr el a = Some val → attribs el !! a = Some val.
Proof.
  unfold attr. destruct (attribs el !! a) as [v|]; [| done].
  destruct (JS.truthy v); [| done]. by intros [= ->].
Qed.

(** A reference that does not resolve to a key of the map with a truthy
    value is left as it is. *)
Lemma rewrite_attr_unresolved a el :
  a ≠ "srcset" →
  (∀ val U, attribs el !! a = Some val →
            newURL E val (Some startUrl) = Some U →
            default "" (m !! href U) = "") →
  rewrite_attr E hostName startUrl m a el = el.
Proof.
  intros Ha Hun. unfold rewrite_attr.
  destruct (attr el a) as [val|] eqn:Hval; [| done].
  rewrite decide_False by done.
  destruct (newURL E val (Some startUrl)) as [U|] eqn:HU; [| done].
  by rewrite (Hun val U (attr_Some _ _ _ Hval) HU).
Qed.

Lemma rewrite_element_keeps el name val :
  name ≠ "srcset" →
  attribs el !! name = Some val →
  (∀ U, newURL E val (Some startUrl) = Some U → default "" (m !! href U) = "") →
  attribs (rewrite_element E hostName startUrl m el) !! name = Some val.
Proof.
  intros Hname Hval Hun. unfold rewrite_element.
  revert el Hval. induction attrMap as [|[selector a] l IH]; intros el Hval; simpl.
  - done.
  - apply IH. destruct (matches E selector el); [| done].
    destruct (decide (name = a)) as [<- | Hne].
    + rewrite rewrite_attr_unresolved; [done | done |].
      intros val' U. rewrite Hval. intros [= <-]. apply Hun.
    + by rewrite rewrite_attr_other.
Qed.

(** An entry of a [srcset] value whose URL does not resolve to a key of
    the map keeps its URL. *)
Lemma rewrite_entry_unresolved entry uPart rest U :
  JS.split_ws_limit 2 entry = uPart :: rest →
  newURL E uPart (Some startUrl) = Some U →
  default "" (m !! href U) = "" →
  rewrite_entry E startUrl m entry =
    uPart +:+ (match rest with
               | d :: _ => if JS.truthy d then " " +:+ d else ""
               | [] => ""
               end).
Proof.
  intros Hsplit HU Hm. unfold rewrite_entry. rewrite Hsplit. simpl.
  rewrite HU, Hm. simpl. by destruct rest.
Qed.

End Rewriting.

Lemma host_token_underscore_dots h : host_token h = underscore_dots h.
Proof.
  unfold host_token. induction h as [|c h IH]; simpl; [done |].
  unfold is_char at 1 2. rewrite IH.
  destruct (Ascii.eqb c ":") eqn:H1, (Ascii.eqb c ".") eqn:H2; simpl; try done.
Qed.

Lemma underscore_dots_free p h :
  p "_"%char = false → JS.has_char p h = false →
  JS.has_char p (underscore_dots h) = false.
Proof.
  intros Hp. induction h as [|c h IH]; simpl; [done |].
  intros [Hc Hh]%orb_false_iff. rewrite (IH Hh), orb_false_r.
  by destruct (Ascii.eqb c "." || Ascii.eqb c ":").
Qed.

Lemma underscore_dots_no_dot h :
  JS.has_char (is_char ".") (underscore_dots h) = false.
Proof.
  induction h as [|c h IH]; simpl; [done |]. rewrite IH, orb_false_r.
  unfold is_char. destruct (Ascii.eqb c ".") eqn:Hd; simpl; [done |].
  destruct (Ascii.eqb c ":"); [done | done].
Qed.

Lemma host_token_clean h :
  clean_host h →
  clean_segment (host_token h) ∧ JS.has_char (is_char "\") (host_token h) = false.
Proof.
  intros (Hne & Hslash & Hback). rewrite host_token_underscore_dots.
  pose proof (underscore_dots_no_dot h) as Hdot.
  split; [| by apply underscore_dots_free].
  split; [by destruct h |]. split; [| split].
  - intros Heq. by rewrite Heq in Hdot.
  - intros Heq. by rewrite Heq in Hdot.
  - by apply underscore_dots_free.
Qed.

Lemma replace_class_app p r a b :
  JS.replace_class p r (a +:+ b) = JS.replace_class p r a +:+ JS.replace_class p r b.
Proof.
  induction a as [|c a IH]; simpl; [done |].
  destruct (p c); rewrite IH; [by rewrite app_assoc_s | done].
Qed.

Lemma replace_class_id p r s :
  JS.has_char p s = false → JS.replace_class p r s = s.
Proof.
  induction s as [|c s IH]; simpl; [done |].
  intros [-> Hs]%orb_false_iff. by rewrite IH.
Qed.

Lemma replace_class_removes p c s :
  p c = false → JS.has_char p (JS.replace_class p (String c "") s) = false.
Proof.
  intros Hc. induction s as [|a s IH]; simpl; [done |].
  destruct (p a) eqn:Ha; simpl; by rewrite ?Hc, ?Ha, IH.
Qed.

Section Stored.

Variable E : Env.
Variable ds : list string.
Hypothesis Hdir : __dirname E = absolute_path ds.
Hypothesis Hds : Forall clean_segment ds.

(** Below the output folder, the path relative to it is the mapped
    path itself. *)
Lemma relative_to_output (ls : list string) :
  ls ≠ [] → Forall clean_segment ls →
  Path.relative (cwd E)
    (Path.join [__dirname E; OUTPUT_BASE])
    (Path.join [__dirname E; OUTPUT_BASE; JS.join "/" ls]) = JS.join "/" ls.
Proof.
  intros Hne Hls. rewrite Hdir.
  assert (clean_segment OUTPUT_BASE) as Hout by (by repeat split).
  change (Path.join [absolute_path ds; OUTPUT_BASE])
    with (Path.join (absolute_path ds :: (JS.join "/" <$> [[OUTPUT_BASE]]))).
  change (Path.join [absolute_path ds; OUTPUT_BASE; JS.join "/" ls])
    with (Path.join (absolute_path ds :: (JS.join "/" <$> [[OUTPUT_BASE]; ls]))).
  rewrite !join_absolute by tidy. simpl. rewrite app_nil_r.
  change (ds ++ OUTPUT_BASE :: ls) with (ds ++ [OUTPUT_BASE] ++ ls).
  rewrite app_assoc. apply relative_inside; [| done].
  apply Forall_app. split; tidy.
Qed.

Lemma stored_mapped (ls : list string) :
  ls ≠ [] → Forall clean_segment ls →
  stored E (JS.join "/" ls) = JS.replace_class (is_char "\") "/" (JS.join "/" ls).
Proof. intros. unfold stored. by rewrite relative_to_output. Qed.

Lemma index_path h :
  clean_segment h →
  Path.join [Path.join [__dirname E; OUTPUT_BASE; h]; "index.html"] =
  absolute_path (ds ++ [OUTPUT_BASE; h; "index.html"]).
Proof.
  intros Hh. rewrite Hdir.
  assert (clean_segment OUTPUT_BASE) as Hout by (by repeat split).
  assert (clean_segment "index.html") as Hidx by (by repeat split).
  change (Path.join [absolute_path ds; OUTPUT_BASE; h])
    with (Path.join (absolute_path ds :: (JS.join "/" <$> [[OUTPUT_BASE]; [h]]))).
  rewrite join_absolute by tidy. simpl.
  change [absolute_path (ds ++ [OUTPUT_BASE; h]); "index.html"]
    with (absolute_path (ds ++ [OUTPUT_BASE; h]) :: (JS.join "/" <$> [["index.html"]])).
  rewrite join_absolute; [| apply Forall_app; split; tidy | done | tidy].
  simpl. by rewrite <- app_assoc.
Qed.

End Stored.

(** C8: the pending set and the map of resolved URLs are insert-once.
    Over a batch of downloads, and over the wave loop, the pending set
    before is a prefix of the pending set after, so that no URL is
    removed; every entry of the map is an entry of the map after, with
    the value it had, so that none is overwritten or deleted; and
    [downloadOne] called on a URL that has an entry returns the state as
    it is: map, pending set, disk and logs. *)
Theorem pending_and_resolved_insert_once
        (E : Env) (orig hostName : string) (fuel n : nat) (l : list string)
        (st st' : state) :
  downloadAll E orig hostName l st = Ret st' ∨
  waveLoop E orig hostName fuel n st = Ret st' →
  toDownload st `prefix_of` toDownload st' ∧
  urlToLocalPath st ⊆ urlToLocalPath st' ∧
  (∀ u, is_Some (urlToLocalPath st' !! u) →
        downloadOne E orig hostName u st' = Ret st').
Proof.
  intros H.
  assert (grows st st') as (Hp & Hm & _).
  { destruct H as [H | H]; [by eapply downloadAll_grows | by eapply waveLoop_grows]. }
  split; [done |]. split; [done |].
  intros u Hu. unfold downloadOne. by rewrite decide_True.
Qed.


Lemma run_Ret_fetch (E : Env) url u0 fuel st doc' :
  URL_roundtrip E → newURL E url None = Some u0 →
  run E fuel url = Ret (st, doc') →
  ∃ buf ct, fetchWithType E (href u0) = Ret (buf, ct).
Proof.
  intros Hround Hseed. rewrite (run_unfold E url u0 Hround Hseed).
  destruct (fetchWithType E (href u0)) as [[buf ct] | |]; [| done | done].
  by exists buf, ct.
Qed.


(** C10: the host token of a run is the host name of the start URL with
    every dot and colon replaced by an underscore; the document the run
    returns is on disk at [<script dir>/downloaded/<token>/index.html];
    and every value of the map is derived by [localPathFor] with that
    token. *)
Theorem index_saved_under_host_folder
        (E : Env) (url : string) (u0 : URL) (ds : list string)
        (fuel : nat) (st : state) (doc' : document) :
  URL_roundtrip E →
  newURL E url None = Some u0 →
  clean_host (hostname u0) →
  __dirname E = absolute_path ds →
  Forall clean_segment ds →
  run E fuel url = Ret (st, doc') →
  host_token (hostname u0) = underscore_dots (hostname u0) ∧
  disk st !! absolute_path (ds ++ ["downloaded"; host_token (hostname u0); "index.html"]) =
    Some (html E doc') ∧
  (∀ u p, urlToLocalPath st !! u = Some p →
     ∃ ct lp, localPathFor E (host_token (hostname u0)) u ct = Ret lp ∧ p = stored E lp).
Proof.
  intros Hround Hseed Hhost Hdir Hds Hrun.
  destruct (run_Ret_fetch E url u0 fuel st doc' Hround Hseed Hrun) as (buf & sct & Hfetch).
  destruct (run_summary E url u0 Hround Hseed buf sct Hfetch _ _ _ Hrun)
    as (st2 & stp & -> & _ & Hi2 & _).
  destruct (host_token_clean _ Hhost) as [Htok _].
  split; [apply host_token_underscore_dots |]. split.
  - simpl. rewrite (index_path E ds Hdir Hds _ Htok). unfold saveFile.
    apply lookup_insert_eq.
  - simpl. apply (inv_values _ _ _ _ _ _ Hi2).
Qed.

Lemma times_cons u x (l : list string) :
  times u (x :: l) = (if decide (x = u) then 1 else 0) + times u l.
Proof.
  unfold times. case_decide.
  - by rewrite filter_cons_True.
  - by rewrite filter_cons_False.
Qed.

Lemma fetchWithType_Throw (E : Env) u :
  (∃ msg, fetch E u = inr msg) ∨
  (∃ r, fetch E u = inl r ∧ (status r < 200 ∨ 299 < status r)) →
  ∃ e, fetchWithType E u = Throw e.
Proof.
  unfold fetchWithType, ok. intros [[msg ->] | (r & -> & Hr)]; [by eexists |].
  destruct (200 <=? status r) eqn:H1, (status r <=? 299) eqn:H2; simpl;
    try by eexists.
  apply Nat.leb_le in H1, H2. lia.
Qed.

Section RunTheorems.

Variable E : Env.
Variable url : string.
Variable u0 : URL.
Hypothesis Hround : URL_roundtrip E.
Hypothesis Hseed : newURL E url None = Some u0.

Lemma unresolved_not_key fuel st doc' u e :
  run E fuel url = Ret (st, doc') →
  fetchWithType E u = Throw e → urlToLocalPath st !! u = None.
Proof.
  intros Hrun He.
  destruct (run_Ret_fetch E url u0 fuel st doc' Hround Hseed Hrun) as (buf & sct & Hfetch).
  destruct (run_summary E url u0 Hround Hseed buf sct Hfetch _ _ _ Hrun)
    as (st2 & stp & -> & _ & Hi2 & _). simpl.
  destruct (urlToLocalPath st2 !! u) as [p|] eqn:Hp; [| done].
  destruct (inv_keys _ _ _ _ _ _ Hi2 u) as [_ (? & ? & Hok)]; [by eexists |].
  congruence.
Qed.

Lemma off_origin_not_pending fuel st doc' ref base U :
  run E fuel url = Ret (st, doc') →
  newURL E ref base = Some U → origin U ≠ origin u0 →
  (href U ∉ toDownload st) ∧ (href U ∉ fetched st).
Proof.
  intros Hrun HU Ho.
  destruct (run_Ret_fetch E url u0 fuel st doc' Hround Hseed Hrun) as (buf & sct & Hfetch).
  destruct (run_summary E url u0 Hround Hseed buf sct Hfetch _ _ _ Hrun)
    as (st2 & stp & -> & _ & Hi2 & _). simpl.
  assert (href U ∉ toDownload st2) as Hpend.
  { intros Hin. apply (inv_reach _ _ _ _ _ _ Hi2) in Hin.
    apply (reachable_parses E u0 Hround) in Hin as (P & HP & HoP).
    rewrite (Hround _ _ _ HU) in HP. congruence. }
  split; [done |].
  destruct (inv_fetched _ _ _ _ _ _ Hi2) as (rest & -> & Hsub & _).
  intros [Heq | Hin]%elem_of_cons; [| apply Hpend, Hsub; done].
  pose proof (Hround _ _ _ HU) as H1. pose proof (Hround _ _ _ Hseed) as H2.
  rewrite Heq in H1. congruence.
Qed.

End RunTheorems.




(** *** White space, tokens and trimming *)

Lemma trimStart_head x a r : JS.trimStart x = String a r → JS.is_ws a = false.
Proof.
  induction x as [|c x IH]; simpl; [done |].
  destruct (JS.is_ws c) eqn:Hc; [done |]. by intros [= <- _].
Qed.

Lemma trimEnd_head a s b r : JS.trimEnd (String a s) = String b r → b = a.
Proof.
  simpl. destruct (JS.trimEnd s); [| by intros [= <- _]].
  destruct (JS.is_ws a); [done |]. by intros [= <- _].
Qed.

Lemma trim_head x a r : JS.trim x = String a r → JS.is_ws a = false.
Proof.
  unfold JS.trim. destruct (JS.trimStart x) as [|c s] eqn:Hs; [done |].
  intros ->%trimEnd_head. by eapply trimStart_head.
Qed.

Lemma trimEnd_ws_free t : ws_free t → JS.trimEnd t = t.
Proof.
  unfold ws_free. induction t as [|a t IH]; simpl; [done |].
  intros [Ha Ht]%orb_false_iff. rewrite (IH Ht), Ha. by destruct t.
Qed.

Lemma trimEnd_app s t : t ≠ "" → ws_free t → JS.trimEnd (s +:+ t) = s +:+ t.
Proof.
  intros Hne Ht. induction s as [|a s IH]; simpl; [by apply trimEnd_ws_free |].
  rewrite IH. destruct (s +:+ t) eqn:Hst; [| done].
  destruct s; [by subst | done].
Qed.

Lemma trimEnd_idem s : JS.trimEnd (JS.trimEnd s) = JS.trimEnd s.
Proof.
  induction s as [|a s IH]; simpl; [done |].
  destruct (JS.trimEnd s) as [|b t] eqn:Ht.
  - destruct (JS.is_ws a) eqn:Ha; simpl; [done | by rewrite Ha].
  - change (JS.trimEnd (String a (String b t)))
      with (match JS.trimEnd (String b t) with
            | "" => if JS.is_ws a then "" else String a ""
            | t' => String a t'
            end).
    by rewrite IH.
Qed.

Lemma trimStart_trimEnd s a r :
  JS.is_ws a = false → JS.trimEnd s = String a r →
  JS.trimStart (JS.trimEnd s) = JS.trimEnd s.
Proof. intros Ha ->. simpl. by rewrite Ha. Qed.

Lemma trim_idem x : JS.trim (JS.trim x) = JS.trim x.
Proof.
  destruct (JS.trim x) as [|a r] eqn:Hx; [done |].
  pose proof (trim_head x a r Hx) as Ha.
  unfold JS.trim at 1. simpl. rewrite Ha.
  unfold JS.trim in Hx. rewrite <- Hx. apply trimEnd_idem.
Qed.

Lemma has_char_trimStart p s : JS.has_char p s = false → JS.has_char p (JS.trimStart s) = false.
Proof.
  induction s as [|a s IH]; simpl; [done |].
  intros [Ha Hs]%orb_false_iff. destruct (JS.is_ws a); [by apply IH |].
  simpl. by rewrite Ha, Hs.
Qed.

Lemma has_char_trimEnd p s : JS.has_char p s = false → JS.has_char p (JS.trimEnd s) = false.
Proof.
  induction s as [|a s IH]; simpl; [done |].
  intros [Ha Hs]%orb_false_iff. specialize (IH Hs).
  destruct (JS.trimEnd s).
  - destruct (JS.is_ws a); [done |]. simpl. by rewrite Ha.
  - cbn [JS.has_char] in *. by rewrite Ha, IH.
Qed.

Lemma has_char_trim p s : JS.has_char p s = false → JS.has_char p (JS.trim s) = false.
Proof. intros. by apply has_char_trimEnd, has_char_trimStart. Qed.

(** The pieces of a [srcset] value are tight. *)
Lemma srcset_pieces_tight val : Forall tight (srcset_pieces val).
Proof.
  unfold srcset_pieces. apply Forall_forall. intros e [He Hin]%list_elem_of_filter.
  apply list_elem_of_fmap in Hin as (x & -> & Hx).
  split; [by apply truthy_true |]. split; [apply trim_idem |].
  apply has_char_trim.
  pose proof (split_on_pieces_free "," val) as Hf. rewrite Forall_forall in Hf.
  by apply Hf.
Qed.

Lemma split_on_comma_join e (r : list string) :
  Forall comma_free (e :: r) →
  JS.split_on "," (JS.join ", " (e :: r)) = e :: (String " " <$> r).
Proof.
  revert e. induction r as [|e2 r IH]; intros e He.
  - simpl. apply split_on_free. by apply Forall_cons in He as [? _].
  - apply Forall_cons in He as [He He2].
    rewrite join_cons.
    change (e +:+ ", " +:+ JS.join ", " (e2 :: r))
      with (e +:+ String "," (String " " (JS.join ", " (e2 :: r)))).
    rewrite split_on_app, (split_on_free "," e He).
    cbn [JS.split_on]. rewrite (IH e2 He2). done.
Qed.

Lemma trim_space e : JS.trim (String " " e) = JS.trim e.
Proof. done. Qed.

(** Joining tight entries and splitting the result gives them back. *)
Lemma srcset_pieces_join (es : list string) :
  Forall tight es → srcset_pieces (JS.join ", " es) = es.
Proof.
  intros Hes. unfold srcset_pieces. destruct es as [|e r]; [done |].
  rewrite split_on_comma_join.
  2:{ eapply Forall_impl; [exact Hes |]. by intros x (_ & _ & ?). }
  rewrite fmap_cons, <- list_fmap_compose.
  assert (∀ l, Forall tight l →
               filter (fun s => JS.truthy s = true) (JS.trim <$> l) = l) as Hkeep.
  { induction 1 as [|x l (Hx & Ht & _) _ IH]; [done |].
    rewrite fmap_cons, Ht, filter_cons_True by (by apply truthy_true). by rewrite IH. }
  apply Forall_cons in Hes as [(He & Ht & _) Hr].
  rewrite filter_cons_True by (rewrite Ht; by apply truthy_true).
  rewrite Ht. f_equal.
  assert ((JS.trim ∘ String " ") <$> r = JS.trim <$> r) as ->
    by (apply list_fmap_ext; by intros).
  by apply Hkeep.
Qed.

(** *** Tokens *)

Lemma split_ws_go_nonempty prev s : JS.split_ws_go prev s ≠ [].
Proof.
  revert prev. induction s as [|a s IH]; intros prev; simpl; [done |].
  destruct (JS.is_ws a).
  - destruct prev; [apply IH | done].
  - specialize (IH false). by destruct (JS.split_ws_go false s).
Qed.

Lemma split_ws_go_chars p prev s :
  JS.has_char p s = false →
  Forall (fun t => JS.has_char p t = false) (JS.split_ws_go prev s).
Proof.
  revert prev. induction s as [|a s IH]; intros prev; simpl.
  - intros _. by constructor.
  - intros [Ha Hs]%orb_false_iff. destruct (JS.is_ws a).
    + destruct prev; [by apply IH |]. constructor; [done | by apply IH].
    + specialize (IH false Hs).
      destruct (JS.split_ws_go false s) as [|x r];
        [constructor; [simpl; by rewrite Ha | constructor] |].
      apply Forall_cons in IH as [Hx Hr]. constructor; [| done].
      simpl. by rewrite Ha, Hx.
Qed.

Lemma split_ws_go_ws_free prev s : Forall ws_free (JS.split_ws_go prev s).
Proof.
  revert prev. induction s as [|a s IH]; intros prev; simpl.
  - by constructor.
  - destruct (JS.is_ws a) eqn:Ha.
    + destruct prev; [by apply IH |]. constructor; [done | by apply IH].
    + specialize (IH false).
      destruct (JS.split_ws_go false s) as [|x r];
        [constructor; [unfold ws_free; simpl; by rewrite Ha | constructor] |].
      apply Forall_cons in IH as [Hx Hr]. constructor; [| done].
      unfold ws_free. simpl. by rewrite Ha, Hx.
Qed.

Lemma split_ws_go_prev_token t :
  t ≠ "" → ws_free t → JS.split_ws_go true t = JS.split_ws_go false t.
Proof.
  destruct t as [|a t]; [done |]. intros _ [Ha _]%orb_false_iff. simpl. by rewrite Ha.
Qed.

Lemma split_ws_go_token x s :
  ws_free x →
  JS.split_ws_go false (x +:+ s) =
    match JS.split_ws_go false s with
    | t :: r => (x +:+ t) :: r
    | [] => [x]
    end.
Proof.
  unfold ws_free. induction x as [|a x IH]; simpl.
  - intros _. pose proof (split_ws_go_nonempty false s).
    by destruct (JS.split_ws_go false s).
  - intros [Ha Hx]%orb_false_iff. rewrite Ha, (IH Hx).
    by destruct (JS.split_ws_go false s).
Qed.

Lemma split_ws_token x : ws_free x → JS.split_ws x = [x].
Proof.
  intros Hx. unfold JS.split_ws.
  rewrite <- (app_empty_r x) at 1. rewrite split_ws_go_token by done.
  simpl. by rewrite app_empty_r.
Qed.

Lemma split_ws_two x d :
  ws_free x → d ≠ "" → ws_free d → JS.split_ws (x +:+ " " +:+ d) = [x; d].
Proof.
  intros Hx Hd Hdw. unfold JS.split_ws. rewrite split_ws_go_token by done.
  change (JS.split_ws_go false (" " +:+ d)) with ("" :: JS.split_ws_go true d).
  cbv beta iota. rewrite app_empty_r. f_equal.
  rewrite split_ws_go_prev_token by done. by apply split_ws_token.
Qed.

(** The first token of a tight string is not empty. *)
Lemma split_ws_tight e :
  tight e →
  ∃ t1 rest, JS.split_ws e = t1 :: rest ∧ t1 ≠ "" ∧
             Forall (fun t => ws_free t ∧ comma_free t) (t1 :: rest).
Proof.
  intros (Hne & Ht & Hc).
  pose proof (split_ws_go_ws_free false e) as Hw.
  pose proof (split_ws_go_chars _ false e Hc) as Hcf.
  destruct e as [|a e]; [done |].
  assert (JS.is_ws a = false) as Ha by (by eapply trim_head).
  unfold JS.split_ws in *. simpl in *. rewrite Ha in *.
  pose proof (split_ws_go_nonempty false e).
  destruct (JS.split_ws_go false e) as [|x r]; [done |].
  exists (String a x), r. split; [done |]. split; [done |].
  apply Forall_forall. intros t Hin. rewrite Forall_forall in Hw, Hcf.
  split; [by apply Hw | by apply Hcf].
Qed.

Section Idempotence.

Variable E : Env.
Variables (hostName startUrl : string).
Variable m : gmap string string.
Hypothesis Hsettled : map_settled E hostName startUrl m.

Lemma tight_token x s :
  x ≠ "" → ws_free x → comma_free x →
  (s = "" ∨ ∃ d, d ≠ "" ∧ ws_free d ∧ comma_free d ∧ s = " " +:+ d) →
  tight (x +:+ s).
Proof.
  intros Hx Hw Hc Hs. split; [by destruct x |]. split.
  - unfold JS.trim.
    assert (JS.trimStart (x +:+ s) = x +:+ s) as ->.
    { destruct x as [|a x]; [done |]. apply orb_false_iff in Hw as [Ha _].
      simpl. by rewrite Ha. }
    destruct Hs as [-> | (d & Hd & Hdw & _ & ->)].
    + rewrite app_empty_r. by apply trimEnd_ws_free.
    + rewrite <- app_assoc_s. by apply trimEnd_app.
  - unfold comma_free in *. rewrite has_char_app, Hc.
    destruct Hs as [-> | (d & _ & _ & Hdc & ->)]; [done |]. simpl. by rewrite Hdc.
Qed.

Lemma rewrite_entry_token x s :
  x ≠ "" → ws_free x →
  (s = "" ∨ ∃ d, d ≠ "" ∧ ws_free d ∧ s = " " +:+ d) →
  unmapped E startUrl m x →
  rewrite_entry E startUrl m (x +:+ s) = x +:+ s.
Proof.
  intros Hx Hw Hs Hun. unfold rewrite_entry, JS.split_ws_limit.
  destruct Hs as [-> | (d & Hd & Hdw & ->)].
  - rewrite app_empty_r, split_ws_token by done. simpl.
    destruct (newURL E x (Some startUrl)) as [U|] eqn:HU; [| done].
    rewrite (Hun U HU). simpl. by rewrite app_empty_r.
  - rewrite split_ws_two by done. simpl.
    destruct (newURL E x (Some startUrl)) as [U|] eqn:HU; [| done].
    rewrite (Hun U HU). simpl. by destruct d.
Qed.

(** What the rewriter writes for an entry is a tight entry that the
    rewriter leaves as it is. *)
Lemma rewrite_entry_fixed e :
  tight e →
  tight (rewrite_entry E startUrl m e) ∧
  rewrite_entry E startUrl m (rewrite_entry E startUrl m e) =
    rewrite_entry E startUrl m e.
Proof.
  intros He.
  destruct (split_ws_tight e He) as (t1 & rest & Hsplit & Ht1 & Hall).
  apply Forall_cons in Hall as [[Hw1 Hc1] Hrest].
  assert (take 2 (t1 :: rest) !! 1 = head rest) as Hsecond by (by destruct rest).
  unfold rewrite_entry at 1 3 4. unfold JS.split_ws_limit. rewrite Hsplit, Hsecond.
  change (default "" (take 2 (t1 :: rest) !! 0)) with t1.
  destruct (newURL E t1 (Some startUrl)) as [U|] eqn:HU.
  2:{ split; [done |]. unfold rewrite_entry, JS.split_ws_limit. rewrite Hsplit.
      change (default "" (take 2 (t1 :: rest) !! 0)) with t1.
      by rewrite HU. }
  set (s := match head rest with
            | Some d => if JS.truthy d then " " +:+ d else ""
            | None => ""
            end).
  assert (s = "" ∨ ∃ d, d ≠ "" ∧ ws_free d ∧ comma_free d ∧ s = " " +:+ d) as Hs.
  { subst s. destruct rest as [|d rest]; [by left |]. simpl.
    apply Forall_cons in Hrest as [[Hdw Hdc] _].
    destruct d as [|a d]; [by left |]. right. by exists (String a d). }
  assert (s = "" ∨ ∃ d, d ≠ "" ∧ ws_free d ∧ s = " " +:+ d) as Hs'.
  { destruct Hs as [-> | (d & ? & ? & ? & ->)]; [by left |]. right. by exists d. }
  destruct (m !! href U) as [loc|] eqn:Hloc;
    [change (default "" (Some loc)) with loc
    | change (default "" (@None string)) with ""].
  - destruct loc as [|a loc].
    + cbn [JS.or_else JS.truthy]. split; [by apply tight_token |].
      apply rewrite_entry_token; try done.
      intros U' HU'. rewrite HU in HU'. injection HU' as <-. by rewrite Hloc.
    + cbn [JS.or_else JS.truthy].
      destruct (Hsettled _ _ Hloc) as (_ & Hun & Hlw & Hlc); [done |].
      split; [by apply tight_token |].
      by apply rewrite_entry_token.
  - cbn [JS.or_else JS.truthy]. split; [by apply tight_token |].
    apply rewrite_entry_token; try done.
    intros U' HU'. rewrite HU in HU'. injection HU' as <-. by rewrite Hloc.
Qed.

Lemma srcset_target_idem val :
  srcset_target E startUrl m (srcset_target E startUrl m val) =
  srcset_target E startUrl m val.
Proof.
  unfold srcset_target.
  assert (Forall (fun e => tight e ∧ rewrite_entry E startUrl m e = e)
                 (rewrite_entry E startUrl m <$> srcset_pieces val)) as Hfix.
  { apply Forall_fmap. eapply Forall_impl; [apply srcset_pieces_tight |].
    intros e He. by apply rewrite_entry_fixed. }
  rewrite srcset_pieces_join.
  2:{ eapply Forall_impl; [exact Hfix |]. by intros e [? _]. }
  f_equal. induction Hfix as [|e l [_ He] _ IH]; [done |].
  by rewrite fmap_cons, He, IH.
Qed.

Lemma plain_target_idem val :
  plain_target E hostName startUrl m (plain_target E hostName startUrl m val) =
  plain_target E hostName startUrl m val.
Proof.
  unfold plain_target at 2.
  destruct (newURL E val (Some startUrl)) as [U|] eqn:HU; [| done].
  destruct (m !! href U) as [[|a loc]|] eqn:Hloc; [done | | done].
  change (default "" (Some (String a loc))) with (String a loc). cbv iota.
  destruct (Hsettled _ _ Hloc) as (Hun & _); [done |].
  unfold plain_target. rewrite HU, Hloc.
  change (default "" (Some (String a loc))) with (String a loc). cbv iota.
  destruct (newURL E (written_plain E hostName (String a loc)) (Some startUrl))
    as [U'|] eqn:HU'; [| done].
  by rewrite (Hun U' HU').
Qed.

Lemma target_idem name val :
  target E hostName startUrl m name (target E hostName startUrl m name val) =
  target E hostName startUrl m name val.
Proof.
  unfold target. case_decide; [apply srcset_target_idem | apply plain_target_idem].
Qed.

End Idempotence.

Lemma attrMap_names : Forall (fun p => p.2 ∈ ["href"; "src"; "srcset"]) attrMap.
Proof.
  unfold attrMap, assetAttrs. repeat constructor.
Qed.

Lemma set_attr_same el a v : attribs el !! a = Some v → set_attr el a v = el.
Proof. intros H. destruct el as [t at']. unfold set_attr. simpl in *. by rewrite insert_id. Qed.

Lemma attr_set_attr_ne el a b v : a ≠ b → attr (set_attr el b v) a = attr el a.
Proof. intros Hne. unfold attr, set_attr. simpl. by rewrite lookup_insert_ne. Qed.

Lemma attr_set_attr el a v :
  attr (set_attr el a v) a = if JS.truthy v then Some v else None.
Proof. unfold attr, set_attr. simpl. by rewrite lookup_insert_eq. Qed.

Lemma set_attr_set_attr el a v w : set_attr (set_attr el a v) a w = set_attr el a w.
Proof. unfold set_attr. simpl. by rewrite insert_insert_eq. Qed.

Lemma set_attr_comm el a b v w :
  a ≠ b → set_attr (set_attr el a v) b w = set_attr (set_attr el b w) a v.
Proof. intros Hne. unfold set_attr. simpl. by rewrite insert_insert_ne. Qed.

Section ElementIdempotence.

Variable E : Env.
Variables (hostName startUrl : string).
Variable m : gmap string string.
Hypothesis Hsettled : map_settled E hostName startUrl m.
Hypothesis Hstable : selectors_stable E.

Let rw := rewrite_attr E hostName startUrl m.
Let tg := target E hostName startUrl m.

Lemma rewrite_attr_target a el :
  rw a el = match attr el a with
            | None => el
            | Some val => set_attr el a (tg a val)
            end.
Proof.
  unfold rw, tg, rewrite_attr, target.
  destruct (attr el a) as [val|] eqn:Hval; [| done].
  case_decide; [done |].
  unfold plain_target, written_plain.
  destruct (newURL E val (Some startUrl)) as [U|].
  - destruct (default "" (m !! href U)); simpl; [| done].
    symmetry. by apply set_attr_same, attr_Some.
  - symmetry. by apply set_attr_same, attr_Some.
Qed.

Lemma rewrite_attr_idem a el : rw a (rw a el) = rw a el.
Proof.
  rewrite (rewrite_attr_target a el).
  destruct (attr el a) as [val|] eqn:Hval.
  - rewrite rewrite_attr_target, attr_set_attr.
    destruct (JS.truthy (tg a val)); [| done].
    unfold tg. by rewrite target_idem, set_attr_set_attr.
  - by rewrite rewrite_attr_target, Hval.
Qed.

Lemma rewrite_attr_comm a b el : a ≠ b → rw a (rw b el) = rw b (rw a el).
Proof.
  intros Hne.
  rewrite (rewrite_attr_target b el), (rewrite_attr_target a el).
  destruct (attr el a) as [va|] eqn:Ha, (attr el b) as [vb|] eqn:Hb;
    rewrite !rewrite_attr_target, ?attr_set_attr_ne, ?Ha, ?Hb by done; try done.
  by apply set_attr_comm.
Qed.

Lemma matches_rewrite_attr selector a el :
  a ∈ ["href"; "src"; "srcset"] →
  matches E selector (rw a el) = matches E selector el.
Proof.
  intros Ha. rewrite rewrite_attr_target.
  destruct (attr el a) as [val|] eqn:Hval; [| done].
  apply Hstable; [done |]. apply attr_Some in Hval. by eexists.
Qed.

Let step (e : element) (p : string * string) : element :=
  if matches E p.1 e then rw p.2 e else e.

Lemma rewrite_element_fold el :
  rewrite_element E hostName startUrl m el = fold_left step attrMap el.
Proof.
  unfold rewrite_element. generalize attrMap. intros l. revert el.
  induction l as [|[selector a] l IH]; intros el; [done |]. simpl. by rewrite IH.
Qed.

Lemma step_matches selector p el :
  p.2 ∈ ["href"; "src"; "srcset"] →
  matches E selector (step el p) = matches E selector el.
Proof.
  intros Hp. unfold step. destruct (matches E p.1 el); [| done].
  by apply matches_rewrite_attr.
Qed.

Lemma step_keeps_settled a p el : rw a el = el → rw a (step el p) = step el p.
Proof.
  intros Hset. unfold step. destruct (matches E p.1 el); [| done].
  destruct (decide (a = p.2)) as [-> | Hne].
  - by rewrite rewrite_attr_idem.
  - by rewrite rewrite_attr_comm, Hset.
Qed.

Lemma fold_keeps_settled a l el :
  rw a el = el → rw a (fold_left step l el) = fold_left step l el.
Proof.
  revert el. induction l as [|p l IH]; intros el Hset; [done |].
  simpl. by apply IH, step_keeps_settled.
Qed.

Lemma fold_settles l el :
  Forall (fun p => p.2 ∈ ["href"; "src"; "srcset"]) l →
  (∀ selector, matches E selector (fold_left step l el) = matches E selector el) ∧
  (∀ p, p ∈ l → matches E p.1 el = true →
        rw p.2 (fold_left step l el) = fold_left step l el).
Proof.
  intros Hl. revert el. induction Hl as [|p l Hp _ IH]; intros el.
  { split; [done | by intros p ?%elem_of_nil]. }
  simpl. destruct (IH (step el p)) as [Hm Hs]. split.
  - intros selector. by rewrite Hm, step_matches.
  - intros q [-> | Hq]%elem_of_cons Hq1.
    + apply fold_keeps_settled. unfold step. rewrite Hq1. apply rewrite_attr_idem.
    + apply Hs; [done |]. by rewrite step_matches.
Qed.

Lemma fold_fixed l el :
  (∀ p, p ∈ l → matches E p.1 el = true → rw p.2 el = el) →
  fold_left step l el = el.
Proof.
  induction l as [|p l IH]; intros Hfix; [done |]. simpl.
  assert (step el p = el) as ->.
  { unfold step. destruct (matches E p.1 el) eqn:Hp; [| done].
    apply Hfix; [left | done]. }
  apply IH. intros q Hq. apply Hfix. by right.
Qed.

Lemma rewrite_element_idem el :
  rewrite_element E hostName startUrl m (rewrite_element E hostName startUrl m el) =
  rewrite_element E hostName startUrl m el.
Proof.
  rewrite !rewrite_element_fold.
  destruct (fold_settles attrMap el attrMap_names) as [Hm Hs].
  apply fold_fixed. intros p Hp Hp1. apply Hs; [done |]. by rewrite <- Hm.
Qed.

End ElementIdempotence.


(** *** The runtime of the examples *)

Lemma last_nonempty_elem (l : list string) :
  Path.last_nonempty l = "" ∨ Path.last_nonempty l ∈ l.
Proof.
  induction l as [|s l IH]; [by left |]. simpl.
  destruct (Path.last_nonempty l) as [|a t]; [| destruct IH as [? | ?]; [done |]].
  - destruct s; [by left | right; left].
  - right. by right.
Qed.

Lemma basename_absolute (l : list string) :
  Forall (fun x => slash_free x ∧ x ≠ "." ∧ x ≠ "..") l →
  Path.basename (absolute_path l) ≠ "." ∧ Path.basename (absolute_path l) ≠ "..".
Proof.
  intros Hl. unfold Path.basename. rewrite segments_absolute.
  2:{ eapply Forall_impl; [exact Hl |]. by intros x [? _]. }
  destruct (last_nonempty_elem ("" :: (if decide (l = []) then [""] else l)))
    as [-> | Hin]; [done |].
  assert (Forall (fun x => x ≠ "." ∧ x ≠ "..")
                 ("" :: (if decide (l = []) then [""] else l))) as Hall.
  { constructor; [done |]. case_decide; [by constructor |].
    eapply Forall_impl; [exact Hl |]. by intros x [_ ?]. }
  rewrite Forall_forall in Hall. by apply Hall.
Qed.

Module ExampleFacts.

Import Example.

Lemma parseURL_raw s b u :
  parseURL s b = Some u → raw s b = Some u ∧ raw (href u) None = Some u.
Proof.
  unfold parseURL. destruct (raw s b) as [u'|]; [| done].
  case_decide; [| done]. by intros [= <-].
Qed.

Lemma roundtrip net pages : URL_roundtrip (env net pages).
Proof.
  intros s b u [_ Hu]%parseURL_raw. simpl. unfold parseURL.
  rewrite Hu. by rewrite decide_True.
Qed.

Lemma dots_resolved acc segs :
  Forall (fun x => slash_free x ∧ x ≠ "." ∧ x ≠ "..") acc →
  Forall slash_free segs →
  Forall (fun x => slash_free x ∧ x ≠ "." ∧ x ≠ "..") (dots acc segs).
Proof.
  intros Hacc Hsegs. revert acc Hacc.
  induction Hsegs as [|s r Hs _ IH]; intros acc Hacc; simpl.
  - by apply Forall_rev.
  - assert (Forall (fun x => slash_free x ∧ x ≠ "." ∧ x ≠ "..") (tail acc)) as Htail.
    { destruct acc; [done |]. by apply Forall_cons in Hacc as [_ ?]. }
    destruct (String.eqb s ".") eqn:H1; [destruct r; apply IH; try done; by constructor |].
    destruct (String.eqb s "..") eqn:H2; [destruct r; apply IH; try done; by constructor |].
    apply IH. constructor; [| done].
    apply String.eqb_neq in H1, H2. done.
Qed.

Lemma absolute_pathname s u :
  absolute s = Some u →
  ∃ l, pathname u = absolute_path l ∧
       Forall (fun x => slash_free x ∧ x ≠ "." ∧ x ≠ "..") l.
Proof.
  unfold absolute.
  destruct (if JS.startsWith "https://" s then _ else _) as [[sch rest]|]; [| done].
  destruct (break_at is_delim rest) as [auth tail].
  destruct (break_at is_query tail) as [path suffix].
  destruct (break_at (is_char ":") (JS.toLowerCase auth)) as [host port].
  destruct (String.eqb host ""); [done |]. intros [= <-]. simpl.
  eexists. split; [reflexivity |].
  apply dots_resolved; [by constructor |]. apply split_on_pieces_free.
Qed.

Lemma raw_absolute s b u : raw s b = Some u → ∃ s', absolute s' = Some u.
Proof.
  unfold raw. destruct (negb _); [done |].
  destruct (absolute s) as [u'|] eqn:Ha; [intros [= <-]; by eexists |].
  destruct b as [b|]; [| done].
  destruct (absolute b) as [bu|]; [| done].
  destruct (_ || _); [done |].
  destruct (JS.startsWith "/" s); intros H; by eexists.
Qed.

Lemma paths_resolved net pages orig : URL_paths_resolved (env net pages) orig.
Proof.
  intros s b u [Hraw _]%parseURL_raw _.
  apply raw_absolute in Hraw as [s' (l & -> & Hl)%absolute_pathname].
  by apply basename_absolute.
Qed.

Lemma has_attr_set_attr n el name v :
  is_Some (attribs el !! name) →
  has_attr n (set_attr el name v) = has_attr n el.
Proof.
  intros Hname. unfold has_attr, set_attr. simpl.
  destruct (decide (name = n)) as [<- | Hne].
  - rewrite lookup_insert_eq. rewrite !bool_decide_eq_true_2; [done | done | by eexists].
  - by rewrite lookup_insert_ne.
Qed.

Lemma stable net pages : selectors_stable (env net pages).
Proof.
  intros selector el name v Hname Hsome. simpl. unfold selects, rel_words.
  assert (attribs (set_attr el name v) !! "rel" = attribs el !! "rel") as ->.
  { unfold set_attr. simpl. apply lookup_insert_ne. intros ->.
    apply list_elem_of_In in Hname. simpl in Hname. by destruct Hname as [? | [? | [? | []]]]. }
  rewrite !has_attr_set_attr by done. done.
Qed.

End ExampleFacts.

(** *** The example sites *)

(** The test [site_closed] is sound: a list that passes it holds every
    reachable URL. *)
Lemma site_closed_sound (E : Env) (orig : string) (assets site : list string) :
  site_closed E orig assets site = true →
  ∀ x, reachable E orig assets x → x ∈ site.
Proof.
  unfold site_closed. intros [Ha Hs]%andb_prop.
  rewrite forallb_forall in Ha, Hs.
  induction 1 as [x Hx | u x _ IH Hx].
  - apply list_elem_of_In, Ha in Hx. by apply bool_decide_eq_true in Hx.
  - apply list_elem_of_In, Hs in IH. rewrite forallb_forall in IH.
    apply list_elem_of_In, IH in Hx. by apply bool_decide_eq_true in Hx.
Qed.

Lemma seed_parses net pages :
  newURL (Example.env net pages) Scenario.seed None = Some Scenario.seed_url.
Proof. vm_compute. reflexivity. Qed.

(** The runs on the example sites return. *)
Lemma run_site_ok :
  run Scenario.site_ok 10 Scenario.seed =
    Ret (Scenario.final Scenario.site_ok, Scenario.rewritten Scenario.site_ok).
Proof. vm_compute. reflexivity. Qed.

Lemma run_site_404 :
  run Scenario.site_404 10 Scenario.seed =
    Ret (Scenario.final Scenario.site_404, Scenario.rewritten Scenario.site_404).
Proof. vm_compute. reflexivity. Qed.

Lemma run_srcset_site :
  run Scenario.srcset_site 10 Scenario.seed =
    Ret (Scenario.final Scenario.srcset_site, Scenario.rewritten Scenario.srcset_site).
Proof. vm_compute. reflexivity. Qed.

Lemma run_cdn_site :
  run Scenario.cdn_site 10 Scenario.seed =
    Ret (Scenario.final Scenario.cdn_site, Scenario.rewritten Scenario.cdn_site).
Proof. vm_compute. reflexivity. Qed.

Lemma run_logo_site :
  run Scenario.logo_site 10 Scenario.seed =
    Ret (Scenario.final Scenario.logo_site, Scenario.rewritten Scenario.logo_site).
Proof. vm_compute. reflexivity. Qed.

(** The directory of the script in the examples, and their host. *)
Lemma example_dirname_clean : Forall clean_segment ["srv"; "scraper"].
Proof. repeat constructor; discriminate. Qed.

Lemma example_host_clean : clean_host "example.test".
Proof. split_and!; [discriminate | reflexivity | reflexivity]. Qed.

(** The four assets of the example page are reachable. *)
Lemma example_reachable :
  Forall (reachable Scenario.site_ok "https://example.test"
            ["https://example.test/s.css"; "https://example.test/i.png"])
         Scenario.urls.
Proof.
  assert (reachable Scenario.site_ok "https://example.test"
            ["https://example.test/s.css"; "https://example.test/i.png"]
            "https://example.test/s.css") as Hs.
  { apply reach_asset. left. }
  assert (reachable Scenario.site_ok "https://example.test"
            ["https://example.test/s.css"; "https://example.test/i.png"]
            "https://example.test/extra.css") as He.
  { eapply reach_link; [exact Hs |]. vm_compute. left. }
  repeat apply Forall_cons_2; [exact Hs | | exact He | | apply Forall_nil_2].
  - apply reach_asset. right. left.
  - eapply reach_link; [exact He |]. vm_compute. left.
Qed.

(** Every URL of the example site [site_ok] can be fetched. *)
Lemma example_fetch_ok x : x ∈ Scenario.urls → fetch_ok Scenario.site_ok x.
Proof.
  intros Hx. apply list_elem_of_In in Hx. simpl in Hx.
  destruct Hx as [<- | [<- | [<- | [<- | []]]]]; eexists _, _; vm_compute; reflexivity.
Qed.

(** The map with one style sheet is settled. *)
Lemma one_sheet_settled :
  map_settled Scenario.site_ok "example_test" Scenario.seed Scenario.one_sheet.
Proof.
  unfold Scenario.one_sheet. intros k loc [<- <-]%lookup_singleton_Some _.
  split_and!; [| | reflexivity | reflexivity].
  - intros U HU. vm_compute in HU. injection HU as <-. reflexivity.
  - intros U HU. vm_compute in HU. injection HU as <-. reflexivity.
Qed.

(** A resolved candidate of a [srcset] list is replaced by the value of
    the map as it is stored. *)
Lemma rewrite_entry_resolved (E : Env) (startUrl : string) (m : gmap string string)
      (entry uPart : string) (rest : list string) (U : URL) (loc : string) :
  JS.split_ws_limit 2 entry = uPart :: rest →
  newURL E uPart (Some startUrl) = Some U →
  m !! href U = Some loc → loc ≠ "" →
  rewrite_entry E startUrl m entry =
    loc +:+ (match rest with
             | d :: _ => if JS.truthy d then " " +:+ d else ""
             | [] => ""
             end).
Proof.
  intros Hsplit HU Hloc Hne. unfold rewrite_entry. rewrite Hsplit. simpl.
  rewrite HU, Hloc. simpl. destruct loc as [|a loc]; [done |].
  by destruct rest.
Qed.

(** ** The runs on the example sites *)

(** C1: on the page [<img src=a.png srcset=a.png 1x, b.png 2x>] at
    [https://example.test/], with [a.png] fetched and [b.png] answering
    404, the run stores [example_test/img/a.png] for [a.png] and
    rewrites the [srcset] value to
    [example_test/img/a.png 1x, b.png 2x]: per candidate, descriptor
    kept, joined by comma and space, but with the stored path, host
    token included, where the [src] attribute of the same element gets
    [./img/a.png], the path relative to the folder of the origin. *)
Theorem srcset_candidate_gets_stored_path :
  ∃ el',
    run Scenario.srcset_site 10 Scenario.seed =
      Ret (Scenario.final Scenario.srcset_site, Scenario.rewritten Scenario.srcset_site) ∧
    load Scenario.srcset_site (decode Scenario.srcset_site "PAGE") =
      [Example.el "img" [("src", "a.png"); ("srcset", "a.png 1x, b.png 2x")]] ∧
    urlToLocalPath (Scenario.final Scenario.srcset_site) !! "https://example.test/a.png" =
      Some "example_test/img/a.png" ∧
    urlToLocalPath (Scenario.final Scenario.srcset_site) !! "https://example.test/b.png" =
      None ∧
    Scenario.rewritten Scenario.srcset_site !! 0 = Some el' ∧
    attribs el' !! "srcset" = Some "example_test/img/a.png 1x, b.png 2x" ∧
    attribs el' !! "src" = Some "./img/a.png" ∧
    rewrite_entry Scenario.srcset_site Scenario.seed
                  (urlToLocalPath (Scenario.final Scenario.srcset_site)) "a.png 1x" =
      "example_test/img/a.png 1x" ∧
    "example_test/img/a.png 1x, b.png 2x" ≠ "img/a.png 1x, b.png 2x".
Proof.
  eexists. split; [exact run_srcset_site |].
  split_and!; [vm_compute; reflexivity .. | | discriminate].
  apply (rewrite_entry_resolved _ _ _ _ "a.png" ["1x"]
           (mkURL "https://example.test/a.png" "https://example.test"
                  "example.test" "/a.png") "example_test/img/a.png");
    [reflexivity | vm_compute; reflexivity | vm_compute; reflexivity | discriminate].
Qed.

(** C7, amended: for a URL that parses, with a host token that is a
    clean path segment and a path whose last part is not a dot segment,
    [localPathFor] returns the path of the reference definition read
    with the last non-empty segment of the URL path as the file name
    and with the extension of the URL in lower case: host token, the
    subdirectory of the extension if any, and the file name. *)
Theorem localPathFor_follows_reference
        (E : Env) (originHost targetUrl : string) (U : URL) (contentType : string) :
  newURL E targetUrl None = Some U →
  clean_segment originHost →
  Path.basename (pathname U) ≠ "." →
  Path.basename (pathname U) ≠ ".." →
  localPathFor E originHost targetUrl contentType =
    Ret (Reference.deriveLocalPath Reference.last_nonempty_segment
           originHost (pathname U) contentType).
Proof.
  intros HU Hh H1 H2.
  destruct (localPathFor_segments E originHost targetUrl U contentType HU Hh H1 H2)
    as (ls & _ & _ & Hcode & Href).
  by rewrite Hcode, Href.
Qed.

Lemma localPathFor_follows_reference_witness :
  localPathFor Scenario.site_ok "example_test" "https://example.test/a/Logo.JPEG?v=2" "image/png" =
    Ret "example_test/img/Logo.JPEG" ∧
  localPathFor Scenario.site_ok "example_test" "https://example.test/blog/" "text/html" =
    Ret "example_test/blog.html".
Proof.
  split.
  - apply (localPathFor_follows_reference Scenario.site_ok "example_test"
             "https://example.test/a/Logo.JPEG?v=2"
             (mkURL "https://example.test/a/Logo.JPEG?v=2" "https://example.test"
                    "example.test" "/a/Logo.JPEG") "image/png");
      [vm_compute; reflexivity | split_and!; [discriminate .. | reflexivity]
      | vm_compute; discriminate | vm_compute; discriminate].
  - apply (localPathFor_follows_reference Scenario.site_ok "example_test"
             "https://example.test/blog/"
             (mkURL "https://example.test/blog/" "https://example.test"
                    "example.test" "/blog/") "text/html");
      [vm_compute; reflexivity | split_and!; [discriminate .. | reflexivity]
      | vm_compute; discriminate | vm_compute; discriminate].
Defined.

(** The file name of a URL path that ends in a slash is the name of the
    directory, where the last path segment is empty and gives [index]. *)
Lemma trailing_slash_takes_directory_name :
  localPathFor Scenario.site_ok "example_test" "https://example.test/blog/" "text/html" =
    Ret "example_test/blog.html" ∧
  Reference.deriveLocalPath Reference.last_segment "example_test" "/blog/" "text/html" =
    "example_test/index.html".
Proof. split; vm_compute; reflexivity. Qed.









Lemma pending_and_resolved_insert_once_witness :
  ∃ st',
    downloadAll Scenario.site_ok "https://example.test" "example_test"
                (toDownload Scenario.start_state) Scenario.start_state = Ret st' ∧
    toDownload Scenario.start_state `prefix_of` toDownload st' ∧
    urlToLocalPath Scenario.start_state ⊆ urlToLocalPath st' ∧
    (∀ u, is_Some (urlToLocalPath st' !! u) →
          downloadOne Scenario.site_ok "https://example.test" "example_test" u st' =
            Ret st').
Proof.
  eexists.
  assert (downloadAll Scenario.site_ok "https://example.test" "example_test"
            (toDownload Scenario.start_state) Scenario.start_state = Ret ?[st']) as H
    by (vm_compute; reflexivity).
  split; [exact H |].
  exact (pending_and_resolved_insert_once Scenario.site_ok "https://example.test"
           "example_test" 0 0 _ _ _ (or_introl H)).
Defined.


Lemma index_saved_under_host_folder_witness :
  host_token "example.test" = "example_test" ∧
  disk (Scenario.final Scenario.site_ok) !!
    "/srv/scraper/downloaded/example_test/index.html" =
    Some (html Scenario.site_ok (Scenario.rewritten Scenario.site_ok)) ∧
  (∀ u p, urlToLocalPath (Scenario.final Scenario.site_ok) !! u = Some p →
     ∃ ct lp, localPathFor Scenario.site_ok "example_test" u ct = Ret lp ∧
              p = stored Scenario.site_ok lp).
Proof.
  exact (index_saved_under_host_folder Scenario.site_ok Scenario.seed
           Scenario.seed_url ["srv"; "scraper"] 10 _ _
           (ExampleFacts.roundtrip _ _) (seed_parses _ _)
           example_host_clean eq_refl example_dirname_clean run_site_ok).
Defined.

(** ** Further properties of the script *)

(** *** File names *)

Lemma slice0_length n s : String.length (JS.slice0 n s) ≤ n.
Proof.
  revert s. induction n as [|n IH]; intros [|a s]; simpl; try lia.
  specialize (IH s). lia.
Qed.

Lemma slice0_short n s : String.length s ≤ n → JS.slice0 n s = s.
Proof.
  revert s. induction n as [|n IH]; intros [|a s]; simpl; try done; try lia.
  intros H. f_equal. apply IH. lia.
Qed.

Lemma slice0_has_char p n s :
  JS.has_char p s = false → JS.has_char p (JS.slice0 n s) = false.
Proof.
  revert s. induction n as [|n IH]; intros [|a s]; simpl; try done.
  intros [-> H]%orb_false_elim. simpl. by apply IH.
Qed.

Lemma sanitizeFilename_cases name :
  (JS.slice0 200 (JS.replace_class hostile "_" name) = "" ∧ sanitizeFilename name = "file") ∨
  (JS.slice0 200 (JS.replace_class hostile "_" name) ≠ "" ∧
   sanitizeFilename name = JS.slice0 200 (JS.replace_class hostile "_" name)).
Proof.
  unfold sanitizeFilename.
  destruct (JS.slice0 200 (JS.replace_class hostile "_" name)); [by left | by right].
Qed.

Lemma sanitizeFilename_nonempty name : sanitizeFilename name ≠ "".
Proof. destruct (sanitizeFilename_cases name) as [[_ ->] | [? ->]]; done. Qed.

Lemma sanitizeFilename_length name : String.length (sanitizeFilename name) ≤ 200.
Proof.
  destruct (sanitizeFilename_cases name) as [[_ ->] | [_ ->]]; [simpl; lia |].
  apply slice0_length.
Qed.

Lemma sanitizeFilename_no_hostile name :
  JS.has_char hostile (sanitizeFilename name) = false.
Proof.
  destruct (sanitizeFilename_cases name) as [[_ ->] | [_ ->]]; [done |].
  by apply slice0_has_char, replace_class_removes.
Qed.

(** X1: whatever the name, [sanitizeFilename] returns a name that is not
    empty, has at most 200 characters and none of the characters of
    its class: no slash, backslash, colon, quote, [<], [>], [|], [?],
    star or control character. *)
Theorem sanitizeFilename_safe (name : string) :
  sanitizeFilename name ≠ "" ∧
  String.length (sanitizeFilename name) ≤ 200 ∧
  JS.has_char hostile (sanitizeFilename name) = false.
Proof.
  split_and!.
  - apply sanitizeFilename_nonempty.
  - apply sanitizeFilename_length.
  - apply sanitizeFilename_no_hostile.
Qed.

(** X2: [sanitizeFilename] is idempotent: a sanitized name is left as
    it is. *)
Theorem sanitizeFilename_idempotent (name : string) :
  sanitizeFilename (sanitizeFilename name) = sanitizeFilename name.
Proof.
  unfold sanitizeFilename at 1.
  rewrite replace_class_id by apply sanitizeFilename_no_hostile.
  rewrite slice0_short by apply sanitizeFilename_length.
  apply or_else_nonempty, sanitizeFilename_nonempty.
Qed.

Lemma endsWith_snoc (p : string) (c : ascii) : JS.endsWith (String c "") (p +:+ String c "") = true.
Proof.
  induction p as [|a p IH]; simpl.
  - by rewrite Ascii.eqb_refl.
  - rewrite IH. apply orb_true_r.
Qed.

(** X3: the result of [ensureTrailingSlash] ends with a slash; a path
    that ends with one is returned as it is, so that the function is
    idempotent, and any other path gets one slash appended. *)
Theorem ensureTrailingSlash_idempotent (p : string) :
  JS.endsWith "/" (ensureTrailingSlash p) = true ∧
  ensureTrailingSlash (ensureTrailingSlash p) = ensureTrailingSlash p ∧
  (ensureTrailingSlash p = p ∨
   JS.endsWith "/" p = false ∧ ensureTrailingSlash p = p +:+ "/").
Proof.
  assert (JS.endsWith "/" (ensureTrailingSlash p) = true) as Hends.
  { unfold ensureTrailingSlash. destruct (JS.endsWith "/" p) eqn:He; [done |].
    apply endsWith_snoc. }
  split_and!; [done | |].
  - unfold ensureTrailingSlash at 1. by rewrite Hends.
  - unfold ensureTrailingSlash. destruct (JS.endsWith "/" p); [by left | by right].
Qed.

(** *** The path mapper *)

(** X4: [localPathFor] throws for one reason only, a target URL that
    does not parse; for a URL that parses it returns a path whatever the
    content type, also for a content type such as [image/] with nothing
    behind the slash. *)
Theorem localPathFor_throws_only_on_invalid_url
        (E : Env) (originHost targetUrl contentType : string) :
  (∀ e, localPathFor E originHost targetUrl contentType = Throw e ↔
        newURL E targetUrl None = None ∧ e = InvalidURL targetUrl) ∧
  (is_Some (newURL E targetUrl None) ↔
   ∃ lp, localPathFor E originHost targetUrl contentType = Ret lp).
Proof.
  destruct (newURL E targetUrl None) as [U|] eqn:HU.
  - destruct (localPathFor_total E originHost targetUrl U contentType HU) as [lp Hlp].
    rewrite Hlp. split.
    + intros e. split; [discriminate | by intros [? _]].
    + split; [by exists lp | by eexists].
  - assert (localPathFor E originHost targetUrl contentType = Throw (InvalidURL targetUrl))
      as ->.
    { unfold localPathFor, new_URL. by rewrite HU. }
    split.
    + intros e. split; [by intros [= <-] | by intros [_ ->]].
    + split; [by intros [? ?] | by intros [? ?]].
Qed.

Lemma toLowerCase_truthy s : JS.truthy (JS.toLowerCase s) = JS.truthy s.
Proof. by destruct s. Qed.

(** X5: when the path of the target URL has an extension, the content
    type plays no part in [localPathFor]: the extension of the URL
    decides the subdirectory and nothing is appended to the name. *)
Theorem localPathFor_ignores_type_with_extension
        (E : Env) (originHost targetUrl : string) (U : URL) (ct1 ct2 : string) :
  newURL E targetUrl None = Some U →
  Path.extname (pathname U) ≠ "" →
  localPathFor E originHost targetUrl ct1 = localPathFor E originHost targetUrl ct2 ∧
  localPathFor E originHost targetUrl ct1 =
    Ret (Path.join
           [ (let subdir := chooseSubdirByExt (JS.toLowerCase (Path.extname (pathname U))) in
              if JS.truthy subdir then Path.join [originHost; subdir] else originHost);
             sanitizeFilename (Path.basename (pathname U)) ]).
Proof.
  intros HU Hext.
  assert (∀ ct, localPathFor E originHost targetUrl ct =
    Ret (Path.join
           [ (let subdir := chooseSubdirByExt (JS.toLowerCase (Path.extname (pathname U))) in
              if JS.truthy subdir then Path.join [originHost; subdir] else originHost);
             sanitizeFilename (Path.basename (pathname U)) ])) as Hall.
  { intros ct. unfold localPathFor, extFromUrlOrType, new_URL. rewrite HU. simpl.
    rewrite toLowerCase_truthy.
    destruct (Path.extname (pathname U)) as [|a e] eqn:He; [done |].
    cbn [JS.truthy]. cbv iota. cbn [mbind res_bind JS.toLowerCase JS.or_else JS.truthy].
    cbv iota. cbn [negb andb]. rewrite app_empty_r.
    assert (Path.basename (pathname U) ≠ "") as Hb.
    { intros Hb. unfold Path.extname in He. by rewrite Hb in He. }
    rewrite (or_else_nonempty (Path.basename (pathname U))) by done.
    rewrite (or_else_nonempty (sanitizeFilename _)) by apply sanitizeFilename_nonempty.
    done. }
  by rewrite !Hall.
Qed.

(** *** The references of a style sheet *)

Lemma consumed_app (t r : string) : Regex.consumed (t +:+ r) r = t.
Proof.
  unfold Regex.consumed.
  assert (∀ n, JS.slice0 (String.length t + n - n) (t +:+ r) = t) as H.
  { intros n. replace (String.length t + n - n) with (String.length t) by lia.
    induction t as [|a t IH]; simpl; [done | by rewrite IH]. }
  replace (String.length (t +:+ r)) with (String.length t + String.length r); [apply H |].
  clear H. induction t as [|a t IH]; simpl; [done | by rewrite IH].
Qed.

(** A greedy star runs over a prefix of characters of its class when
    the rest of the expression matches behind it. *)
Lemma star_greedy {A} p (t r : string) (k : string → option A) x :
  JS.has_char (fun c => negb (p c)) t = false →
  Regex.star p r k = Some x →
  Regex.star p (t +:+ r) k = Some x.
Proof.
  intros Ht Hr. induction t as [|a t IH]; [done |].
  simpl in Ht. apply orb_false_elim in Ht as [Ha Ht]. apply negb_false_iff in Ha.
  simpl. rewrite Ha. by rewrite IH.
Qed.

Lemma star_stops {A} p a (r : string) (k : string → option A) :
  p a = false → Regex.star p (String a r) k = k (String a r).
Proof. intros Ha. simpl. by rewrite Ha. Qed.

Lemma lower_char_at c : JS.lower_char c = "@"%char → c = "@"%char.
Proof. by destruct c as [[] [] [] [] [] [] [] []]; vm_compute. Qed.

(** A text without [@] has no [@import]. *)
Lemma importRegex_needs_at s :
  JS.has_char (is_char "@") s = false → Regex.exec_all importRegex s = [].
Proof.
  unfold Regex.exec_all. generalize (S (String.length s)) as fuel.
  intros fuel. revert s. induction fuel as [|fuel IH]; intros s Hs; [done |].
  cbn [Regex.exec_all_go].
  assert (Regex.match_here importRegex s = None) as ->.
  { destruct s as [|a s]; [done |]. simpl in Hs. apply orb_false_elim in Hs as [Ha _].
    unfold Regex.match_here, importRegex. cbn [Regex.Lit_i Regex.exec].
    destruct (Ascii.eqb (JS.lower_char a) (JS.lower_char "@")) eqn:He; [| done].
    apply Ascii.eqb_eq, lower_char_at in He. subst a. done. }
  destruct s as [|a s]; [done |]. apply IH.
  simpl in Hs. by apply orb_false_elim in Hs as [_ ?].
Qed.

Lemma consumed_refl (s : string) : Regex.consumed s s = "".
Proof. unfold Regex.consumed. rewrite Nat.sub_diag. by destruct s. Qed.

Lemma strip_prefix_app (q r : string) : Regex.strip_prefix q (q +:+ r) = Some r.
Proof.
  induction q as [|a q IH]; simpl; [by destruct r |]. by rewrite Ascii.eqb_refl.
Qed.

(** The end of both expressions on a target [at] that is followed by
    the quote [q] it was opened with, if any, and by the closing
    parenthesis, which the last part [fin] of the expression takes. *)
Lemma quoted_target_end (fin : Regex.re) (a : ascii) (t q : string) (c1 : Regex.captures) :
  (∀ c, Regex.exec fin ")" c (fun rest c' => Some (rest, c')) = Some ("", c)) →
  q ∈ [""; "'"; String "034" ""] →
  JS.has_char (fun c => negb (url_char c)) t = false →
  c1 1 = q →
  Regex.star url_char (t +:+ q +:+ ")")
    (fun s' =>
       Regex.exec (Regex.Seq (Regex.Backref 1) (Regex.Seq (Regex.Star JS.is_ws) fin))
         s' (Regex.set_capture 2 (Regex.consumed (String a (t +:+ q +:+ ")")) s') c1)
         (fun rest c => Some (rest, c))) =
  Some ("", Regex.set_capture 2 (String a t) c1).
Proof.
  intros Hfin Hq Ht Hc.
  apply star_greedy; [done |].
  assert (Regex.star url_char (q +:+ ")")
            (fun s' =>
               Regex.exec (Regex.Seq (Regex.Backref 1) (Regex.Seq (Regex.Star JS.is_ws) fin))
                 s' (Regex.set_capture 2 (Regex.consumed (String a (t +:+ q +:+ ")")) s') c1)
                 (fun rest c => Some (rest, c))) =
          Regex.exec (Regex.Seq (Regex.Backref 1) (Regex.Seq (Regex.Star JS.is_ws) fin))
                 (q +:+ ")")
                 (Regex.set_capture 2 (Regex.consumed (String a (t +:+ q +:+ ")")) (q +:+ ")")) c1)
                 (fun rest c => Some (rest, c))) as ->.
  { apply list_elem_of_In in Hq. simpl in Hq.
    destruct Hq as [<- | [<- | [<- | []]]]; by apply star_stops. }
  change (String a (t +:+ q +:+ ")")) with (String a t +:+ q +:+ ")").
  rewrite consumed_app.
  cbn [Regex.exec Regex.set_capture Nat.eqb]. rewrite Hc, strip_prefix_app.
  rewrite star_stops by done. apply Hfin.
Qed.

(** A target that does not begin with white space begins with a
    character that is none. *)
Lemma trimStart_fixed_head (a : ascii) (t : string) :
  JS.trimStart (String a t) = String a t → JS.is_ws a = false.
Proof.
  intros Hws. simpl in Hws. destruct (JS.is_ws a) eqn:Hw; [| done]. exfalso.
  assert (String.length (JS.trimStart t) ≤ String.length t) as Hlen.
  { clear. induction t as [|b t IH]; simpl; [lia |]. destruct (JS.is_ws b); simpl; lia. }
  rewrite Hws in Hlen. simpl in Hlen. lia.
Qed.

Lemma url_char_not_quote a : url_char a = true → quote_char a = false.
Proof. unfold url_char. by intros [? _]%negb_true_iff%orb_false_elim. Qed.

(** [urlRegex] on [url(t)], [url('t')] and the form with double
    quotes: the whole text matches and group 2 is [t]. *)
Lemma urlRegex_match (q : string) (a : ascii) (t : string) :
  q ∈ [""; "'"; String "034" ""] →
  url_char a = true →
  JS.has_char (fun c => negb (url_char c)) t = false →
  JS.is_ws a = false →
  Regex.match_here urlRegex ("url(" +:+ q +:+ String a t +:+ q +:+ ")") =
    Some ("", Regex.set_capture 2 (String a t) (Regex.set_capture 1 q Regex.no_captures)).
Proof.
  intros Hq Ha Ht Hwa. pose proof (url_char_not_quote a Ha) as Hqa.
  unfold Regex.match_here, urlRegex.
  change ("url(" +:+ q +:+ String a t +:+ q +:+ ")") with
    (String "u" (String "r" (String "l" (String "(" (q +:+ String a t +:+ q +:+ ")"))))).
  cbn [Regex.Lit_i Regex.exec].
  change (Ascii.eqb (JS.lower_char "u") (JS.lower_char "u")) with true.
  change (Ascii.eqb (JS.lower_char "r") (JS.lower_char "r")) with true.
  change (Ascii.eqb (JS.lower_char "l") (JS.lower_char "l")) with true.
  change (Ascii.eqb (JS.lower_char "(") (JS.lower_char "(")) with true.
  cbv iota.
  pose proof (quoted_target_end (Regex.Chr (is_char ")")) a t q
                (Regex.set_capture 1 q Regex.no_captures) (fun c => eq_refl) Hq Ht
                eq_refl) as Hend.
  apply list_elem_of_In in Hq. simpl in Hq.
  destruct Hq as [<- | [<- | [<- | []]]].
  - change ("" +:+ String a t +:+ "" +:+ ")") with (String a (t +:+ "" +:+ ")")).
    rewrite star_stops by done.
    unfold quoted_target, Regex.Plus. cbn [Regex.exec]. rewrite Hqa, Ha.
    rewrite consumed_refl. exact Hend.
  - change ("'" +:+ String a t +:+ "'" +:+ ")") with
      (String "'" (String a (t +:+ "'" +:+ ")"))).
    rewrite star_stops by done.
    unfold quoted_target, Regex.Plus. cbn [Regex.exec].
    change (quote_char "'") with true. cbv iota. rewrite Ha.
    change (String "'" (String a (t +:+ "'" +:+ ")"))) with
      ("'" +:+ String a (t +:+ "'" +:+ ")")).
    rewrite consumed_app.
    change ("'" +:+ String a (t +:+ "'" +:+ ")")) with
      (String "'" (String a (t +:+ "'" +:+ ")"))).
    cbn [Regex.exec] in Hend. by rewrite Hend.
  - change (String "034" "" +:+ String a t +:+ String "034" "" +:+ ")") with
      (String "034" (String a (t +:+ String "034" "" +:+ ")"))).
    rewrite star_stops by done.
    unfold quoted_target, Regex.Plus. cbn [Regex.exec].
    change (quote_char "034") with true. cbv iota. rewrite Ha.
    change (String "034" (String a (t +:+ String "034" "" +:+ ")"))) with
      (String "034" "" +:+ String a (t +:+ String "034" "" +:+ ")")).
    rewrite consumed_app.
    change (String "034" "" +:+ String a (t +:+ String "034" "" +:+ ")")) with
      (String "034" (String a (t +:+ String "034" "" +:+ ")"))).
    cbn [Regex.exec] in Hend. by rewrite Hend.
Qed.

(** The only match of [urlRegex] in such a text is the text itself. *)
Lemma urlRegex_single (q t : string) :
  q ∈ [""; "'"; String "034" ""] →
  t ≠ "" →
  JS.has_char (fun c => negb (url_char c)) t = false →
  JS.trimStart t = t →
  Regex.exec_all urlRegex ("url(" +:+ q +:+ t +:+ q +:+ ")") = [t].
Proof.
  intros Hq Hne Hurl Hws.
  destruct t as [|a t]; [done |]. clear Hne.
  assert (url_char a = true ∧ JS.has_char (fun c => negb (url_char c)) t = false) as [Ha Ht].
  { simpl in Hurl. apply orb_false_elim in Hurl as [Ha ?]. by apply negb_false_iff in Ha. }
  pose proof (trimStart_fixed_head a t Hws) as Hwa.
  unfold Regex.exec_all.
  change (String.length ("url(" +:+ q +:+ String a t +:+ q +:+ ")")) with
    (S (S (S (S (String.length (q +:+ String a t +:+ q +:+ ")")))))).
  cbn [Regex.exec_all_go]. rewrite urlRegex_match by done.
  cbn [Regex.set_capture Nat.eqb]. done.
Qed.

(** [urlRegex] does not match at a character other than [u] and
    [U]. *)
Lemma urlRegex_needs_u (c : ascii) (s : string) :
  Ascii.eqb (JS.lower_char c) "u" = false →
  Regex.match_here urlRegex (String c s) = None.
Proof.
  intros Hc. unfold Regex.match_here, urlRegex. cbn [Regex.Lit_i Regex.exec].
  change (JS.lower_char "u") with "u"%char. by rewrite Hc.
Qed.

(** [importRegex] on [@import url(t)]: the whole text matches and
    group 2 is [t]. *)
Lemma importRegex_match (a : ascii) (t : string) :
  url_char a = true →
  JS.has_char (fun c => negb (url_char c)) t = false →
  JS.is_ws a = false →
  Regex.match_here importRegex ("@import url(" +:+ String a t +:+ ")") =
    Some ("", Regex.set_capture 2 (String a t) (Regex.set_capture 1 "" Regex.no_captures)).
Proof.
  intros Ha Ht Hwa. pose proof (url_char_not_quote a Ha) as Hqa.
  unfold Regex.match_here, importRegex, Regex.Plus.
  change ("@import url(" +:+ String a t +:+ ")") with
    (String "@" (String "i" (String "m" (String "p" (String "o" (String "r" (String "t"
       (String " " (String "u" (String "r" (String "l" (String "("
          (String a (t +:+ "" +:+ ")")))))))))))))).
  cbn [Regex.Lit_i Regex.exec].
  change (Ascii.eqb (JS.lower_char "@") (JS.lower_char "@")) with true.
  change (Ascii.eqb (JS.lower_char "i") (JS.lower_char "i")) with true.
  change (Ascii.eqb (JS.lower_char "m") (JS.lower_char "m")) with true.
  change (Ascii.eqb (JS.lower_char "p") (JS.lower_char "p")) with true.
  change (Ascii.eqb (JS.lower_char "o") (JS.lower_char "o")) with true.
  change (Ascii.eqb (JS.lower_char "r") (JS.lower_char "r")) with true.
  change (Ascii.eqb (JS.lower_char "t") (JS.lower_char "t")) with true.
  change (JS.is_ws " ") with true.
  cbv iota.
  rewrite (star_stops JS.is_ws "u") by done.
  change (Ascii.eqb (JS.lower_char "u") (JS.lower_char "u")) with true.
  change (Ascii.eqb (JS.lower_char "l") (JS.lower_char "l")) with true.
  change (Ascii.eqb (JS.lower_char "(") (JS.lower_char "(")) with true.
  cbv iota.
  rewrite star_stops by done.
  unfold quoted_target, Regex.Plus. cbn [Regex.exec]. rewrite Hqa, Ha.
  rewrite consumed_refl.
  pose proof (quoted_target_end (Regex.Opt (Regex.Chr (is_char ")"))) a t ""
                (Regex.set_capture 1 "" Regex.no_captures) (fun c => eq_refl)
                ltac:(left) Ht eq_refl) as Hend.
  cbn [Regex.exec] in Hend. by rewrite Hend.
Qed.

(** What [extractUrlsFromCss] returns is built by [add_found] from the
    empty set. *)
Lemma add_found_fold (E : Env) (base : string) (l found : list string) :
  NoDup found →
  NoDup (fold_left (add_found E base) l found) ∧
  ∀ x, x ∈ fold_left (add_found E base) l found →
       x ∈ found ∨ ∃ ref U, ref ∈ l ∧ newURL E ref (Some base) = Some U ∧ href U = x.
Proof.
  revert found. induction l as [|m l IH]; intros found Hnd; simpl.
  { split; [done | by left]. }
  assert (NoDup (add_found E base found m)) as Hnd'.
  { unfold add_found. destruct (newURL E m (Some base)); [by apply set_add_NoDup | done]. }
  destruct (IH _ Hnd') as [H1 H2]. split; [done |].
  intros x Hx. destruct (H2 x Hx) as [Hin | (ref & U & Hr & HU & Hh)].
  - unfold add_found in Hin. destruct (newURL E m (Some base)) as [U|] eqn:HU; [| by left].
    apply set_add_elem in Hin as [-> | ?]; [| by left].
    right. exists m, U. split; [left | done].
  - right. exists ref, U. split; [by right | done].
Qed.

(** X6: [extractUrlsFromCss] returns a list without duplicates, and each
    of its URLs is the serialization of a URL that [new URL] gave for
    some text of the style sheet and the base; texts for which
    [new URL] throws leave no trace. *)
Theorem extractUrlsFromCss_sound (E : Env) (cssText baseUrl : string) :
  NoDup (extractUrlsFromCss E cssText baseUrl) ∧
  ∀ x, x ∈ extractUrlsFromCss E cssText baseUrl →
       ∃ ref U, newURL E ref (Some baseUrl) = Some U ∧ href U = x.
Proof.
  unfold extractUrlsFromCss.
  destruct (add_found_fold E baseUrl (Regex.exec_all urlRegex cssText) [])
    as [Hnd1 Hin1]; [constructor |].
  destruct (add_found_fold E baseUrl (Regex.exec_all importRegex cssText) _ Hnd1)
    as [Hnd2 Hin2].
  split; [done |].
  intros x Hx. destruct (Hin2 x Hx) as [Hx1 | (ref & U & _ & HU & Hh)]; [| by exists ref, U].
  destruct (Hin1 x Hx1) as [[]%elem_of_nil | (ref & U & _ & HU & Hh)]. by exists ref, U.
Qed.

(** X7: for a style sheet that is one [url(...)] term, with the target
    [t] bare, in single or in double quotes, the only reference is [t]
    resolved against the base; it is dropped when it does not parse. *)
Theorem extractUrlsFromCss_single_url (E : Env) (q t baseUrl : string) :
  q ∈ [""; "'"; String "034" ""] →
  t ≠ "" →
  JS.has_char (fun c => negb (url_char c)) t = false →
  JS.trimStart t = t →
  JS.has_char (is_char "@") t = false →
  extractUrlsFromCss E ("url(" +:+ q +:+ t +:+ q +:+ ")") baseUrl =
    match newURL E t (Some baseUrl) with
    | Some U => [href U]
    | None => []
    end.
Proof.
  intros Hq Hne Hurl Hws Hat. unfold extractUrlsFromCss.
  rewrite urlRegex_single by done.
  rewrite importRegex_needs_at.
  - simpl. unfold add_found. by destruct (newURL E t (Some baseUrl)).
  - rewrite !has_char_app, Hat.
    apply list_elem_of_In in Hq. simpl in Hq.
    by destruct Hq as [<- | [<- | [<- | []]]].
Qed.

Lemma exec_all_go_nil fuel r s :
  (∀ s', Regex.match_here r s' = None) → Regex.exec_all_go fuel r s = [].
Proof.
  intros Hnone. revert s. induction fuel as [|fuel IH]; intros s; [done |].
  simpl. rewrite Hnone. by destruct s.
Qed.

Lemma Lit_i_startsWith {A} (l s : string) (c : Regex.captures)
      (k : string → Regex.captures → option A) :
  JS.toLowerCase l = l →
  JS.startsWith l (JS.toLowerCase s) = false →
  Regex.exec (Regex.Lit_i l) s c k = None.
Proof.
  revert s. induction l as [|a l IH]; intros s Hl Hs; [done |].
  simpl in Hl. injection Hl as Ha Hl.
  destruct s as [|b s]; [done |]. simpl in Hs. cbn [Regex.Lit_i Regex.exec].
  rewrite Ha. destruct (Ascii.eqb (JS.lower_char b) a) eqn:Hb.
  - apply Ascii.eqb_eq in Hb. rewrite Hb, Ascii.eqb_refl in Hs. simpl in Hs. by apply IH.
  - done.
Qed.

Lemma exec_all_needs_literal (l : string) (r : Regex.re) (s : string) :
  JS.toLowerCase l = l →
  JS.includes l (JS.toLowerCase s) = false →
  Regex.exec_all (Regex.Seq (Regex.Lit_i l) r) s = [].
Proof.
  intros Hl. unfold Regex.exec_all. generalize (S (String.length s)) as fuel.
  intros fuel. revert s. induction fuel as [|fuel IH]; intros s Hs; [done |].
  cbn [Regex.exec_all_go].
  assert (JS.startsWith l (JS.toLowerCase s) = false) as Hstart.
  { destruct s; simpl in Hs; by apply orb_false_elim in Hs as [? _]. }
  assert (Regex.match_here (Regex.Seq (Regex.Lit_i l) r) s = None) as ->.
  { unfold Regex.match_here. cbn [Regex.exec]. by apply Lit_i_startsWith. }
  destruct s as [|a s]; [done |]. apply IH.
  simpl in Hs. by apply orb_false_elim in Hs as [_ ?].
Qed.

(** X8: a style sheet in which neither [url(] nor [@import] occurs, in
    whatever case, has no references: [extractUrlsFromCss] returns the
    empty list, also for the empty text. *)
Theorem extractUrlsFromCss_nothing_without_url (E : Env) (cssText baseUrl : string) :
  JS.includes "url(" (JS.toLowerCase cssText) = false →
  JS.includes "@import" (JS.toLowerCase cssText) = false →
  extractUrlsFromCss E cssText baseUrl = [].
Proof.
  intros Hurl Himp. unfold extractUrlsFromCss, urlRegex, importRegex.
  by rewrite !exec_all_needs_literal.
Qed.

(** X15: in a style sheet that is [@import url(t)], both expressions
    of [extractUrlsFromCss] find the target [t]; the set keeps the
    resolved URL once. *)
Theorem extractUrlsFromCss_import_url_once (E : Env) (t baseUrl : string) :
  t ≠ "" →
  JS.has_char (fun c => negb (url_char c)) t = false →
  JS.trimStart t = t →
  Regex.exec_all urlRegex ("@import url(" +:+ t +:+ ")") = [t] ∧
  Regex.exec_all importRegex ("@import url(" +:+ t +:+ ")") = [t] ∧
  extractUrlsFromCss E ("@import url(" +:+ t +:+ ")") baseUrl =
    match newURL E t (Some baseUrl) with
    | Some U => [href U]
    | None => []
    end.
Proof.
  intros Hne Hurl Hws.
  destruct t as [|a t]; [done |]. clear Hne.
  assert (url_char a = true ∧ JS.has_char (fun c => negb (url_char c)) t = false) as [Ha Ht].
  { simpl in Hurl. apply orb_false_elim in Hurl as [Ha ?]. by apply negb_false_iff in Ha. }
  pose proof (trimStart_fixed_head a t Hws) as Hwa.
  assert (Regex.exec_all urlRegex ("@import url(" +:+ String a t +:+ ")") = [String a t])
    as Hurls.
  { unfold Regex.exec_all.
    change ("@import url(" +:+ String a t +:+ ")") with
      (String "@" (String "i" (String "m" (String "p" (String "o" (String "r" (String "t"
         (String " " ("url(" +:+ "" +:+ String a t +:+ "" +:+ ")"))))))))).
    cbn [String.length Regex.exec_all_go].
    rewrite !urlRegex_needs_u by done.
    rewrite urlRegex_match by (done || left).
    cbn [Regex.set_capture Nat.eqb]. done. }
  assert (Regex.exec_all importRegex ("@import url(" +:+ String a t +:+ ")") = [String a t])
    as Himports.
  { unfold Regex.exec_all.
    change (String.length ("@import url(" +:+ String a t +:+ ")")) with
      (S (String.length ("import url(" +:+ String a t +:+ ")"))).
    cbn [Regex.exec_all_go]. rewrite importRegex_match by done.
    cbn [Regex.set_capture Nat.eqb]. done. }
  split_and!; [done | done |].
  unfold extractUrlsFromCss. rewrite Hurls, Himports. simpl. unfold add_found.
  destruct (newURL E (String a t) (Some baseUrl)) as [U|]; [| done].
  assert (set_add (href U) [] = [href U]) as ->.
  { unfold set_add. by rewrite decide_False by apply not_elem_of_nil. }
  unfold set_add. rewrite decide_True; [done | left].
Qed.

(** *** The rewriting loop *)

(** The callback of the rewriting loop keeps the tag of the element,
    its attribute names, and every attribute but its own. *)
Lemma rewrite_attr_structure (E : Env) (hostName startUrl : string)
      (m : gmap string string) (a : string) (el : element) :
  tag (rewrite_attr E hostName startUrl m a el) = tag el ∧
  dom (attribs (rewrite_attr E hostName startUrl m a el)) = dom (attribs el) ∧
  ∀ name, name ≠ a →
    attribs (rewrite_attr E hostName startUrl m a el) !! name = attribs el !! name.
Proof.
  assert (∀ val v, attr el a = Some val →
            tag (set_attr el a v) = tag el ∧
            dom (attribs (set_attr el a v)) = dom (attribs el) ∧
            ∀ name, name ≠ a → attribs (set_attr el a v) !! name = attribs el !! name)
    as Hset.
  { intros val v Hval%attr_Some. split_and!; [done | |].
    - unfold set_attr. simpl. rewrite dom_insert_L.
      apply subseteq_union_1_L, singleton_subseteq_l, elem_of_dom. by eexists.
    - intros name Hne. unfold set_attr. simpl. by rewrite lookup_insert_ne. }
  unfold rewrite_attr. destruct (attr el a) as [val|] eqn:Hval; [| done].
  case_decide; [by eapply Hset |].
  destruct (newURL E val (Some startUrl)) as [U|]; [| done].
  destruct (JS.truthy _); [by eapply Hset | done].
Qed.

(** X9: the rewriting loop changes nothing but the values of [href],
    [src] and [srcset]: the rewritten document has the same number of
    elements, and each element keeps its tag, its attribute names and
    the values of all its other attributes. *)
Theorem rewriteDocument_keeps_structure
        (E : Env) (hostName startUrl : string) (m : gmap string string) (doc : document) :
  length (rewriteDocument E hostName startUrl m doc) = length doc ∧
  ∀ i el, doc !! i = Some el →
    ∃ el', rewriteDocument E hostName startUrl m doc !! i = Some el' ∧
      tag el' = tag el ∧
      dom (attribs el') = dom (attribs el) ∧
      ∀ name, name ∉ ["href"; "src"; "srcset"] → attribs el' !! name = attribs el !! name.
Proof.
  rewrite rewriteDocument_fmap. split; [apply length_fmap |].
  intros i el Hel. exists (rewrite_element E hostName startUrl m el).
  split; [by rewrite list_lookup_fmap, Hel |].
  unfold rewrite_element. generalize attrMap_names. generalize attrMap as l.
  intros l Hl. clear Hel. revert el. induction l as [|[selector a] l IH]; intros el; [done |].
  apply Forall_cons in Hl as [Ha Hl]. simpl in Ha. cbn [fold_left].
  set (el1 := if matches E selector el
              then rewrite_attr E hostName startUrl m a el else el).
  assert (tag el1 = tag el ∧ dom (attribs el1) = dom (attribs el) ∧
          ∀ name, name ∉ ["href"; "src"; "srcset"] →
                  attribs el1 !! name = attribs el !! name) as (H1 & H2 & H3).
  { unfold el1. destruct (matches E selector el); [| by split_and!].
    destruct (rewrite_attr_structure E hostName startUrl m a el) as (? & ? & Hother).
    split_and!; [done | done |]. intros name Hname. apply Hother. by intros ->. }
  destruct (IH Hl el1) as (G1 & G2 & G3).
  split_and!; [congruence | congruence |].
  intros name Hname. rewrite G3, H3; done.
Qed.

(** [path.resolve] of a relative path of clean segments, for a working
    directory of clean segments. *)
Lemma resolve_relative (cs l : list string) :
  Forall clean_segment cs → l ≠ [] → Forall clean_segment l →
  Path.resolve_segs (absolute_path cs) (JS.join "/" l) = cs ++ l.
Proof.
  intros Hcs Hne Hl. unfold Path.resolve_segs.
  assert (Path.isAbsolute (JS.join "/" l) = false) as ->.
  { destruct (Path.isAbsolute (JS.join "/" l)) eqn:Habs; [| done].
    apply isAbsolute_segments in Habs as [r Hr].
    rewrite segments_rel in Hr by auto using clean_slash_free. subst l.
    by apply Forall_cons in Hl as [(? & _) _]. }
  rewrite segments_rel by auto using clean_slash_free.
  rewrite segments_absolute by auto using clean_slash_free.
  rewrite norm_go_kept.
  - simpl. rewrite filter_cons_False by naive_solver. rewrite filter_app.
    rewrite (clean_or_empty_filter l) by done. f_equal.
    destruct (decide (cs = [])) as [-> | ?]; [done |].
    by apply clean_or_empty_filter.
  - constructor; [by left |]. apply Forall_app. split; [| by apply clean_or_empty].
    destruct (decide (cs = [])); [constructor; [by left | done] |].
    by apply clean_or_empty.
Qed.

(** Relative to the folder of the host, a mapped path loses its first
    segment. *)
Lemma relative_to_host (cs ls : list string) (h : string) :
  Forall clean_segment cs → clean_segment h → ls ≠ [] → Forall clean_segment ls →
  Path.relative (absolute_path cs) h (JS.join "/" (h :: ls)) = JS.join "/" ls.
Proof.
  intros Hcs Hh Hne Hls. unfold Path.relative.
  assert (String.eqb h (JS.join "/" (h :: ls)) = false) as ->.
  { apply eqb_ne. intros Heq. apply (f_equal Path.segments) in Heq.
    rewrite segments_rel in Heq by (try apply clean_slash_free; by try constructor).
    rewrite segments_slash_free in Heq by (by destruct Hh as (_ & _ & _ & ?)).
    injection Heq as Heq. by destruct ls. }
  change h with (JS.join "/" [h]) at 1.
  rewrite !resolve_relative by (try constructor; done).
  change (cs ++ h :: ls) with (cs ++ [h] ++ ls). rewrite app_assoc.
  by rewrite strip_common_app.
Qed.

(** X10: the branch of the rewriting loop for [href] and [src] writes
    the mapped path relative to the folder of the host: for a reference
    that resolves to a key of the map with the value [host/ls], the
    attribute becomes [./ls], the path from [index.html] to the saved
    file. *)
Theorem plain_reference_rewritten_relative
        (E : Env) (hostName startUrl : string) (m : gmap string string)
        (name : string) (el : element) (val : string) (U : URL)
        (cs ls : list string) :
  cwd E = absolute_path cs →
  Forall clean_segment cs →
  clean_segment hostName →
  ls ≠ [] →
  Forall clean_segment ls →
  name ≠ "srcset" →
  attr el name = Some val →
  newURL E val (Some startUrl) = Some U →
  m !! href U = Some (JS.join "/" (hostName :: ls)) →
  rewrite_attr E hostName startUrl m name el =
    set_attr el name ("./" +:+ JS.join "/" ls).
Proof.
  intros Hcwd Hcs Hh Hne Hls Hname Hattr HU Hm.
  unfold rewrite_attr. rewrite Hattr, decide_False by done. rewrite HU, Hm.
  cbn [default]. unfold id.
  assert (JS.truthy (JS.join "/" (hostName :: ls)) = true) as ->.
  { destruct Hh as (Hh & _). destruct hostName; [done |]. by destruct ls. }
  rewrite Hcwd, relative_to_host by done. done.
Qed.

(** *** Runs *)

Section NoThrow.

Variable E : Env.
Variables (orig hostName : string).
Variable P : state -> Prop.
Hypothesis P_step : ∀ u st st',
P st → u ∈ toDownload st → download_step E orig hostName u st st' → P st'.
Hypothesis P_parse : ∀ st u, P st → u ∈ toDownload st → is_Some (newURL E u None).

(** Whatever the fuel, the loop returns or has not finished; it does
  not throw. *)
Lemma waveLoop_no_throw fuel n st e :
P st → waveLoop E orig hostName fuel n st ≠ Throw e.
Proof.
revert n st. induction fuel as [|fuel IH]; intros n st HP;
  rewrite waveLoop_unfold; destruct (length (toDownload st) =? n); try done.
destruct (downloadAll_total E orig hostName P P_step P_parse (toDownload st) st HP)
  as [st1 H1]; [done |].
unfold wave. rewrite H1. simpl. apply IH.
by eapply (wave_preserves E orig hostName P P_step).
Qed.

End NoThrow.


Lemma on_disk_step (E : Env) (orig hostName u : string) (st st' : state) :
  on_disk E hostName st → download_step E orig hostName u st st' →
  on_disk E hostName st'.
Proof.
  intros Hd [Hknown | e Hnone Hf | buf ct lp Hnone Hf Hlp]; [done | done |].
  intros x p. simpl. unfold saveFile.
  destruct (decide (u = x)) as [<- | Hne].
  - rewrite lookup_insert_eq. intros [= <-]. exists ct, lp.
    split_and!; [done | done |]. rewrite lookup_insert_eq. by eexists.
  - rewrite lookup_insert_ne by done. intros Hp.
    destruct (Hd x p Hp) as (ct' & lp' & ? & ? & Hsome). exists ct', lp'.
    split_and!; [done | done |].
    apply lookup_insert_is_Some. destruct (decide (saved_at E lp = saved_at E lp')); auto.
Qed.



(** *** The references of the page *)

(** X14: with [sameOriginOnly] set, [collectAndRewriteHtml] returns
    the references of the origin and no others: every URL it returns is
    the serialization of a URL of the origin that some text resolves
    to, and it returns the URL of every reference of an element that a
    selector of [assetAttrs] matches, be it the value of the attribute
    or the first token of an entry of a [srcset] list, when that URL is
    of the origin. *)
Theorem collectAndRewriteHtml_same_origin
        (E : Env) (doc : document) (baseUrl orig : string) :
  (∀ x, x ∈ collectAndRewriteHtml E doc baseUrl true orig →
        ∃ ref U, newURL E ref (Some baseUrl) = Some U ∧ href U = x ∧ origin U = orig) ∧
  (∀ selector a el val ref U,
     (selector, a) ∈ assetAttrs → el ∈ doc → matches E selector el = true →
     attr el a = Some val →
     (if decide (a = "srcset")
      then ∃ entry, entry ∈ srcset_pieces val ∧ ref = default "" (head (JS.split_ws entry))
      else ref = val) →
     newURL E ref (Some baseUrl) = Some U → origin U = orig →
     href U ∈ collectAndRewriteHtml E doc baseUrl true orig).
Proof.
  split; [intros x; apply collect_sound |].
  intros selector a el val ref U Hpair Hel Hmatch Hattr Href HU Ho.
  unfold collectAndRewriteHtml. apply list_elem_of_bind.
  exists (selector, a). split; [| done].
  apply list_elem_of_bind. exists el. split; [| by apply list_elem_of_filter].
  unfold collect_one. rewrite Hattr.
  assert (href U ∈ match newURL E ref (Some baseUrl) with
                   | Some u => if true && negb (String.eqb (origin u) orig)
                               then [] else [href u]
                   | None => []
                   end) as Hkeep.
  { rewrite HU. subst orig. rewrite String.eqb_refl. simpl. left. }
  case_decide.
  - destruct Href as (entry & Hentry & ->). apply list_elem_of_bind.
    eexists. split; [exact Hkeep |]. apply list_elem_of_fmap. by exists entry.
  - by subst ref.
Qed.

(** *** The further properties on the example sites *)

Lemma localPathFor_ignores_type_with_extension_witness :
  localPathFor Scenario.site_ok "example_test" "https://example.test/a/Logo.JPEG?v=2" "image/png" =
    localPathFor Scenario.site_ok "example_test" "https://example.test/a/Logo.JPEG?v=2" "text/css" ∧
  localPathFor Scenario.site_ok "example_test" "https://example.test/a/Logo.JPEG?v=2" "image/png" =
    Ret "example_test/img/Logo.JPEG".
Proof.
  assert (Path.extname "/a/Logo.JPEG" ≠ "") as Hext by (vm_compute; discriminate).
  exact (localPathFor_ignores_type_with_extension Scenario.site_ok "example_test"
           "https://example.test/a/Logo.JPEG?v=2"
           (mkURL "https://example.test/a/Logo.JPEG?v=2" "https://example.test"
                  "example.test" "/a/Logo.JPEG")
           "image/png" "text/css" eq_refl Hext).
Defined.

Lemma extractUrlsFromCss_single_url_witness :
  extractUrlsFromCss Scenario.site_ok "url('/sprite.png')" "https://example.test/s.css" =
    ["https://example.test/sprite.png"].
Proof.
  assert ("'" ∈ [""; "'"; String "034" ""]) as Hq by (right; left).
  assert ("/sprite.png" ≠ "") as Hne by discriminate.
  exact (extractUrlsFromCss_single_url Scenario.site_ok "'" "/sprite.png"
           "https://example.test/s.css" Hq Hne eq_refl eq_refl eq_refl).
Defined.

Lemma extractUrlsFromCss_nothing_without_url_witness :
  extractUrlsFromCss Scenario.site_ok ".x{color:red}" "https://example.test/s.css" = [].
Proof.
  exact (extractUrlsFromCss_nothing_without_url Scenario.site_ok ".x{color:red}"
           "https://example.test/s.css" eq_refl eq_refl).
Defined.

Lemma plain_reference_rewritten_relative_witness :
  rewrite_attr Scenario.site_ok "example_test" Scenario.seed Scenario.one_sheet "href"
               (Example.el "link" [("rel", "stylesheet"); ("href", "/s.css")]) =
    set_attr (Example.el "link" [("rel", "stylesheet"); ("href", "/s.css")])
             "href" "./css/s.css".
Proof.
  assert (Forall clean_segment ["srv"]) as Hcs by (repeat constructor; discriminate).
  assert (clean_segment "example_test") as Hh by (split_and!; [discriminate .. | reflexivity]).
  assert (["css"; "s.css"] ≠ []) as Hne by discriminate.
  assert (Forall clean_segment ["css"; "s.css"]) as Hls by (repeat constructor; discriminate).
  assert ("href" ≠ "srcset") as Hname by discriminate.
  assert (attr (Example.el "link" [("rel", "stylesheet"); ("href", "/s.css")]) "href" =
          Some "/s.css") as Hattr by (vm_compute; reflexivity).
  assert (Scenario.one_sheet !! "https://example.test/s.css" =
          Some (JS.join "/" ["example_test"; "css"; "s.css"])) as Hm
    by (vm_compute; reflexivity).
  exact (plain_reference_rewritten_relative Scenario.site_ok "example_test" Scenario.seed
           Scenario.one_sheet "href" _ "/s.css"
           (mkURL "https://example.test/s.css" "https://example.test"
                  "example.test" "/s.css")
           ["srv"] ["css"; "s.css"] eq_refl Hcs Hh Hne Hls Hname Hattr eq_refl Hm).
Defined.




Lemma extractUrlsFromCss_import_url_once_witness :
  extractUrlsFromCss Scenario.site_ok "@import url(/extra.css)" "https://example.test/s.css" =
    ["https://example.test/extra.css"].
Proof.
  assert ("/extra.css" ≠ "") as Hne by discriminate.
  exact (proj2 (proj2 (extractUrlsFromCss_import_url_once Scenario.site_ok "/extra.css"
                         "https://example.test/s.css" Hne eq_refl eq_refl))).
Defined.
